(** * NarrativeConversation backend: file store and chat relay

    A shallow embedding of [backend/app/file_manager.py] (the sandboxed
    file store) and of the chat-completions relay of [backend/app/main.py]
    (fingerprint key, pending registry, last-completion slot), with the
    properties of the specification stated and proved over it.

    Conventions of the embedding.
    - A Python [str] is the list of its code points ([list N]); [py "..."]
      turns an ASCII literal into such a list.
    - Paths follow [pathlib.PurePosixPath]: a path is a root flag and the
      list of its components.
    - The file system is a finite map from absolute paths to bytes together
      with the set of directories.  It has no symbolic links, so
      [Path.resolve()] computes the lexical normal form; the [lstat] and
      [stat] probes it performs on the way are kept in the trace of effects.
    - Blocking and awaiting code is cut at its suspension points: every
      function of the relay is one atomic segment of a coroutine, as the
      asyncio event loop runs it.  No segment awaits while it holds
      [chat_pending_lock], so the lock is never waited for; its acquisitions
      and releases are kept in the log of the shared state.
    - What the code takes from its environment is an argument of the
      embedding: the clock ([ts], [now]), the random part of a temporary
      name ([rnd]), the outcome of the upstream call, and whether another
      process holds a lock file (the set [held] of the world).
    - JSON values are null, booleans, integers, floats, strings, arrays and
      objects, as [json.loads] yields them; a float is carried by its
      [repr], which [json.dumps] prints and from which its value is read.
    - A response is made where it is constructed, as Starlette does: a
      body or a header that cannot be encoded makes the constructor raise. *)

From Stdlib Require Import NArith ZArith Ascii String List Bool Lia.
From Stdlib Require Import DecimalString DecimalPos DecimalZ.
From stdpp Require Import base option list gmap sorting.

Local Open Scope N_scope.

(** ** Python strings *)

Module Py.

Abbreviation str := (list N) (only parsing).

Definition py (s : string) : str := map N_of_ascii (list_ascii_of_string s).

(** [str.isspace] on one code point (the table of [_PyUnicode_IsWhitespace]). *)
Definition is_space (c : N) : bool :=
  ((9 <=? c) && (c <=? 13)) || ((28 <=? c) && (c <=? 32))
  || (c =? 133) || (c =? 160) || (c =? 5760)
  || ((8192 <=? c) && (c <=? 8202))
  || (c =? 8232) || (c =? 8233) || (c =? 8239) || (c =? 8287) || (c =? 12288).

Fixpoint lstrip (s : str) : str :=
  match s with
  | c :: s' => if is_space c then lstrip s' else s
  | [] => []
  end.

Definition rstrip (s : str) : str := rev (lstrip (rev s)).

(** [s.strip()] *)
Definition strip (s : str) : str := rstrip (lstrip s).

(** [s.lower()].  Only the ASCII letters are folded: no code point outside
    ASCII lowers to one of the letters of [.txt], [.json] or [.jsonl], so
    the allow-list test below decides as the full Unicode folding does. *)
Definition lower_char (c : N) : N :=
  if (65 <=? c) && (c <=? 90) then c + 32 else c.

Definition lower (s : str) : str := map lower_char s.

(** [s.startswith(p)] *)
Fixpoint startswith (s p : str) : bool :=
  match p, s with
  | [], _ => true
  | _ :: _, [] => false
  | a :: p', b :: s' => (a =? b) && startswith s' p'
  end.

(** [s.endswith(p)] *)
Definition endswith (s p : str) : bool := startswith (rev s) (rev p).

(** [s < t] on strings: lexicographic on code points. *)
Fixpoint str_ltb (s t : str) : bool :=
  match s, t with
  | _, [] => false
  | [], _ :: _ => true
  | a :: s', b :: t' => (a <? b) || ((a =? b) && str_ltb s' t')
  end.

(** [s.rfind(ch)]: the index of the last occurrence, [None] for [-1]. *)
Fixpoint rfind_from (i : nat) (ch : N) (s : str) : option nat :=
  match s with
  | [] => None
  | c :: s' =>
      match rfind_from (S i) ch s' with
      | Some j => Some j
      | None => if c =? ch then Some i else None
      end
  end.

Definition rfind (ch : N) (s : str) : option nat := rfind_from 0 ch s.

(** [s.split(sep)] for a one-character separator. *)
Fixpoint split (sep : N) (s : str) : list str :=
  match s with
  | [] => [[]]
  | c :: s' =>
      if c =? sep then [] :: split sep s'
      else match split sep s' with
           | w :: ws => (c :: w) :: ws
           | [] => [[c]]
           end
  end.

(** [sep.join(parts)] *)
Fixpoint join (sep : str) (parts : list str) : str :=
  match parts with
  | [] => []
  | [p] => p
  | p :: ps => p ++ sep ++ join sep ps
  end.

End Py.

Import Py.

(** ** pathlib (POSIX flavour) *)

Module PathLib.

Definition SLASH : N := 47.
Definition DOT : N := 46.

Record path := Path { is_absolute : bool; parts : list (list N) }.

#[global] Instance path_eq_dec : EqDecision path.
Proof. solve_decision. Defined.

Definition curdir : list N := [DOT].
Definition pardir : list N := [DOT; DOT].

(** [Path(s)]: the text is cut at the slashes; empty components and [.]
    are dropped, [..] is kept until the path is resolved. *)
Definition parse (s : list N) : path :=
  Path (startswith s [SLASH])
       (filter (fun x => x ≠ [] ∧ x ≠ curdir) (split SLASH s)).

(** [p.name] *)
Definition name (p : path) : list N := List.last (parts p) [].

(** [p.parent] *)
Definition parent (p : path) : path :=
  Path (is_absolute p) (removelast (parts p)).

(** [p.suffix]: from the last dot of the name, unless that dot is the
    first or the last character. *)
Definition suffix (p : path) : list N :=
  let n := name p in
  match rfind DOT n with
  | Some i => if (0 <? i)%nat && (i <? length n - 1)%nat then drop i n else []
  | None => []
  end.

(** [p.stem] *)
Definition stem (p : path) : list N :=
  let n := name p in
  match rfind DOT n with
  | Some i => if (0 <? i)%nat && (i <? length n - 1)%nat then take i n else n
  | None => n
  end.

(** [a / b] *)
Definition joinpath (a b : path) : path :=
  if is_absolute b then b else Path (is_absolute a) (parts a ++ parts b).

(** [p / name] for one component *)
Definition child (p : path) (n : list N) : path :=
  Path (is_absolute p) (parts p ++ [n]).

(** [p.is_relative_to(root)] *)
Definition is_relative_to (p root : path) : bool :=
  bool_decide (is_absolute p = is_absolute root)
  && bool_decide (take (length (parts root)) (parts p) = parts root).

(** [p.relative_to(root)], when [p] is relative to [root]. *)
Definition relative_to (p root : path) : path :=
  Path false (drop (length (parts root)) (parts p)).

End PathLib.

Import PathLib.

#[global] Instance path_countable : Countable path.
Proof.
  apply (inj_countable' (fun p => (is_absolute p, parts p))
                        (fun t => Path (fst t) (snd t))).
  by intros [].
Defined.

(** ** UTF-8 and text-mode reading *)

Module Codec.

Definition is_surrogate (c : N) : bool := (55296 <=? c) && (c <=? 57343).

(** The UTF-8 form of one code point; [None] where
    [str.encode('utf-8', errors='strict')] raises [UnicodeEncodeError]. *)
Definition encode_char (c : N) : option (list N) :=
  if c <? 128 then Some [c]
  else if c <? 2048 then Some [192 + c / 64; 128 + c mod 64]
  else if c <? 65536 then
    if is_surrogate c then None
    else Some [224 + c / 4096; 128 + (c / 64) mod 64; 128 + c mod 64]
  else if c <? 1114112 then
    Some [240 + c / 262144; 128 + (c / 4096) mod 64;
          128 + (c / 64) mod 64; 128 + c mod 64]
  else None.

(** [content.encode('utf-8', errors='strict')] *)
Fixpoint encode (s : list N) : option (list N) :=
  match s with
  | [] => Some []
  | c :: s' =>
      match encode_char c, encode s' with
      | Some b, Some bs => Some (b ++ bs)
      | _, _ => None
      end
  end.

Definition is_cont (b : N) : bool := (128 <=? b) && (b <=? 191).

(** The strict UTF-8 decoder of text-mode reading: overlong forms,
    surrogates and values above U+10FFFF are errors ([None]). *)
Fixpoint decode (b : list N) : option (list N) :=
  match b with
  | [] => Some []
  | b0 :: r =>
      if b0 <? 128 then cons b0 <$> decode r
      else if (194 <=? b0) && (b0 <=? 223) then
        match r with
        | b1 :: r1 =>
            if is_cont b1
            then cons ((b0 - 192) * 64 + (b1 - 128)) <$> decode r1
            else None
        | _ => None
        end
      else if (224 <=? b0) && (b0 <=? 239) then
        match r with
        | b1 :: b2 :: r2 =>
            let c := (b0 - 224) * 4096 + (b1 - 128) * 64 + (b2 - 128) in
            if is_cont b1 && is_cont b2 && (2048 <=? c) && negb (is_surrogate c)
            then cons c <$> decode r2
            else None
        | _ => None
        end
      else if (240 <=? b0) && (b0 <=? 244) then
        match r with
        | b1 :: b2 :: b3 :: r3 =>
            let c := (b0 - 240) * 262144 + (b1 - 128) * 4096
                     + (b2 - 128) * 64 + (b3 - 128) in
            if is_cont b1 && is_cont b2 && is_cont b3
               && (65536 <=? c) && (c <? 1114112)
            then cons c <$> decode r3
            else None
        | _ => None
        end
      else None
  end.

Definition CR : N := 13.
Definition LF : N := 10.

(** Universal newlines of [open(..., 'r')] with the default [newline=None]:
    on input, CR LF and a lone CR both become LF. *)
Fixpoint translate_newlines (s : list N) : list N :=
  match s with
  | [] => []
  | c :: r =>
      if c =? CR then
        match r with
        | d :: r' => if d =? LF then LF :: translate_newlines r'
                     else LF :: translate_newlines r
        | [] => [LF]
        end
      else c :: translate_newlines r
  end.

End Codec.

(** ** The file system and its effects *)

Module FS.

(** Operations that consult or change the file system, in the order the
    program performs them. *)
Inductive event :=
| EvLstat (p : path)
| EvStat (p : path)
| EvIterdir (p : path)
| EvOpenRead (p : path)
| EvMkdir (p : path)
| EvOpenWrite (p : path)
| EvOpenAppend (p : path)
| EvMkstemp (p : path)
| EvUnlink (p : path)
| EvReplace (src dst : path).

Record world := World {
  dirs : gset path;              (* directories *)
  files : gmap path (list N);    (* regular files and their bytes *)
  held : gset path;              (* lock files locked by another writer *)
  cwd : path;
  trace : list event
}.

Inductive value_error :=
| ExtensionNotAllowed (file_extension : list N)
| OutsideDataDir (file_path : list N)
| NotRelative
| EmbeddedNullByte
| NotValidUtf8.

Inductive exn :=
| ValueError (e : value_error)
| UnicodeDecodeError
| LockException
| OSError.

(** State and exceptions: an exception keeps the changes made before it. *)
Definition io (A : Type) : Type := world → world * (exn + A).

Definition ret {A} (a : A) : io A := fun w => (w, inr a).

Definition raise {A} (e : exn) : io A := fun w => (w, inl e).

Definition bind {A B} (m : io A) (k : A → io B) : io B :=
  fun w => match m w with
           | (w', inl e) => (w', inl e)
           | (w', inr a) => k a w'
           end.

Notation "'let!' x ':=' m 'in' k" := (bind m (fun x => k))
  (at level 10, x name, m at level 100, k at level 200).
Notation "m '>>' k" := (bind m (fun _ => k))
  (at level 100, k at level 200, right associativity).

(** [try: m except Exception: h] *)
Definition try_except {A} (m : io A) (h : exn → io A) : io A :=
  fun w => match m w with
           | (w', inl e) => h e w'
           | r => r
           end.

(** [try: m finally: f] *)
Definition try_finally {A} (m : io A) (f : io unit) : io A :=
  fun w => match m w with
           | (w', r) => match f w' with
                        | (w'', inl e) => (w'', inl e)
                        | (w'', inr _) => (w'', r)
                        end
           end.

Definition get : io world := fun w => (w, inr w).

Definition log (e : event) : io unit :=
  fun w => (World (dirs w) (files w) (held w) (cwd w) (trace w ++ [e]), inr tt).

Definition set_files (f : gmap path (list N)) : io unit :=
  fun w => (World (dirs w) f (held w) (cwd w) (trace w), inr tt).

Definition set_dirs (d : gset path) : io unit :=
  fun w => (World d (files w) (held w) (cwd w) (trace w), inr tt).

Fixpoint for_each {A} (f : A → io unit) (l : list A) : io unit :=
  match l with
  | [] => ret tt
  | x :: l' => f x >> for_each f l'
  end.

Fixpoint filter_io {A} (f : A → io bool) (l : list A) : io (list A) :=
  match l with
  | [] => ret []
  | x :: l' => let! b := f x in let! r := filter_io f l' in ret (if b then x :: r else r)
  end.

Definition is_dir_in (w : world) (p : path) : bool :=
  bool_decide (parts p = []) || bool_decide (p ∈ dirs w).

Definition is_file_in (w : world) (p : path) : bool :=
  bool_decide (is_Some (files w !! p)).

Definition NUL : N := 0.

(** [os.lstat(p)]: refuses a name with an embedded null byte before it
    reaches the file system; there are no links to report. *)
Definition lstat (p : path) : io unit :=
  if bool_decide (NUL ∈ name p) then raise (ValueError EmbeddedNullByte)
  else log (EvLstat p).

(** The walk of [os.path.realpath]: [..] steps back, every other component
    is probed and, not being a link, kept. *)
Fixpoint realpath_walk (cur rest : list (list N)) : io (list (list N)) :=
  match rest with
  | [] => ret cur
  | n :: rest' =>
      if bool_decide (n = pardir) then realpath_walk (removelast cur) rest'
      else lstat (Path true (cur ++ [n])) >> realpath_walk (cur ++ [n]) rest'
  end.

(** [p.resolve()]: the walk of [os.path.realpath], then one [stat] of the
    result, whose [OSError] (the path need not exist) is passed over; there
    being no links, it never reports a loop. *)
Definition resolve (p : path) : io path :=
  let! w := get in
  let! r := realpath_walk (if is_absolute p then [] else parts (cwd w)) (parts p) in
  log (EvStat (Path true r)) >>
  ret (Path true r).

(** [p.exists()] and [os.path.exists(p)] *)
Definition exists_ (p : path) : io bool :=
  log (EvStat p) >> let! w := get in ret (is_dir_in w p || is_file_in w p).

(** [p.is_file()] *)
Definition is_file (p : path) : io bool :=
  log (EvStat p) >> let! w := get in ret (is_file_in w p).

(** [os.mkdir(p)] where [p] is missing; an existing directory is accepted
    ([exist_ok=True]), a regular file in the way is an error. *)
Definition mkdir_one (p : path) : io unit :=
  let! w := get in
  if is_dir_in w p then ret tt
  else if is_file_in w p then raise OSError
  else log (EvMkdir p) >> set_dirs ({[p]} ∪ dirs w).

(** The non-empty prefixes of a list, shortest first. *)
Fixpoint prefixes {A} (acc l : list A) : list (list A) :=
  match l with
  | [] => []
  | x :: l' => (acc ++ [x]) :: prefixes (acc ++ [x]) l'
  end.

(** [p.mkdir(parents=True, exist_ok=True)] *)
Definition mkdir_parents (p : path) : io unit :=
  for_each (fun q => mkdir_one (Path (is_absolute p) q)) (prefixes [] (parts p)).

(** [open(p, 'rb').read()] *)
Definition read_bytes (p : path) : io (list N) :=
  log (EvOpenRead p) >>
  let! w := get in
  match files w !! p with
  | Some b => ret b
  | None => raise OSError
  end.

(** [open(p, 'wb').write(data)] *)
Definition write_bytes (p : path) (data : list N) : io unit :=
  log (EvOpenWrite p) >>
  let! w := get in
  if is_dir_in w p || negb (is_dir_in w (parent p)) then raise OSError
  else set_files (<[p := data]> (files w)).

(** [p.unlink()] and [os.remove(p)] *)
Definition unlink (p : path) : io unit :=
  log (EvUnlink p) >>
  let! w := get in
  if is_file_in w p then set_files (delete p (files w)) else raise OSError.

(** [os.replace(src, dst)] *)
Definition replace (src dst : path) : io unit :=
  log (EvReplace src dst) >>
  let! w := get in
  match files w !! src with
  | Some b =>
      if is_dir_in w dst then raise OSError
      else set_files (<[dst := b]> (delete src (files w)))
  | None => raise OSError
  end.

(** [list(d.iterdir())]: the entries of a directory, in no promised order. *)
Definition iterdir (d : path) : io (list path) :=
  log (EvIterdir d) >>
  let! w := get in
  if is_dir_in w d
  then ret (filter (fun p => parts p ≠ [] ∧ parent p = d)
                   (elements (dom (files w) ∪ dirs w)))
  else raise OSError.

(** [tempfile.mkstemp(dir=d, prefix=pre, suffix=suf)]: an empty file under
    a name that was free; [rnd] is the random part drawn for the name. *)
Definition mkstemp (d : path) (pre suf rnd : list N) : io path :=
  let tmp := child d (pre ++ rnd ++ suf) in
  log (EvMkstemp tmp) >>
  let! w := get in
  if is_dir_in w tmp || is_file_in w tmp || negb (is_dir_in w d)
  then raise OSError
  else set_files (<[tmp := []]> (files w)) >> ret tmp.

(** Entering [portalocker.Lock(p, mode='w', timeout=10)]: the lock file is
    opened for appending (and so created when missing); if another writer
    keeps it locked for the whole wait the entry raises, otherwise the file
    is truncated.  Leaving the block unlocks and closes; the file stays. *)
Definition lock_enter (p : path) : io unit :=
  log (EvOpenAppend p) >>
  let! w := get in
  if is_dir_in w p || negb (is_dir_in w (parent p)) then raise OSError
  else
    (if is_file_in w p then ret tt else set_files (<[p := []]> (files w))) >>
    if bool_decide (p ∈ held w) then raise LockException
    else let! w' := get in set_files (<[p := []]> (files w')).

End FS.

Import FS.

(** ** file_manager.py *)

Module FileManager.

(** [self.data_dir] and [self.backup_dir] of a [FileManager]. *)
Record file_manager := Build { data_dir : path; backup_dir : path }.

Definition allowed_extensions : list (list N) :=
  [py ".txt"; py ".json"; py ".jsonl"].

Definition _validate_file_path (self : file_manager) (file_path : list N)
  : io path :=
  let file_extension := lower (suffix (parse file_path)) in
  if negb (bool_decide (file_extension ∈ allowed_extensions))
  then raise (ValueError (ExtensionNotAllowed file_extension))
  else
    let! full_path := resolve (joinpath (data_dir self) (parse file_path)) in
    let! data_root := resolve (data_dir self) in
    if negb (is_relative_to full_path data_root)
    then raise (ValueError (OutsideDataDir file_path))
    else ret full_path.

(** [aiofiles.open(full_path, 'r', encoding='utf-8')] and [f.read()] *)
Definition read_text (p : path) : io (list N) :=
  let! b := read_bytes p in
  match Codec.decode b with
  | Some s => ret (Codec.translate_newlines s)
  | None => raise UnicodeDecodeError
  end.

Definition read_file (self : file_manager) (file_path : list N)
  : io (option (list N)) :=
  let! full_path := _validate_file_path self file_path in
  let! found := exists_ full_path in
  if negb found then ret None
  else let! content := read_text full_path in ret (Some content).

(** Order of [Path] objects: their component lists, compared as Python
    compares lists of strings. *)
Fixpoint parts_ltb (a b : list (list N)) : bool :=
  match a, b with
  | _, [] => false
  | [], _ :: _ => true
  | x :: a', y :: b' => str_ltb x y || (bool_decide (x = y) && parts_ltb a' b')
  end.

Definition path_ge (a b : path) : Prop := parts_ltb (parts a) (parts b) = false.

#[global] Instance path_ge_dec a b : Decision (path_ge a b).
Proof. unfold path_ge. apply _. Defined.

(** [candidates.sort(reverse=True)] *)
Definition sort_reverse (l : list path) : list path := merge_sort path_ge l.

Definition BAK : list N := py ".bak".

(** The generations kept by one rotation. *)
Definition KEEP : nat := 30.

(** The rotation inside [_write_locked]: the entries of the backup
    directory whose name starts with [stem + "."] and ends with
    [suffix + ".bak"], newest name first, all but the first thirty
    unlinked; a failing unlink is skipped. *)
Definition rotate (backup_base_dir : path) (stem suffix : list N) : io unit :=
  let prefix := stem ++ [DOT] in
  let suffix_match := suffix ++ BAK in
  let! entries := iterdir backup_base_dir in
  let! candidates :=
    filter_io (fun p => let! f := is_file p in
                        ret (f && startswith (name p) prefix
                               && endswith (name p) suffix_match))
              entries in
  for_each (fun old => try_except (unlink old) (fun _ => ret tt))
           (drop KEEP (sort_reverse candidates)).

(** The backup step of [_write_locked]; [ts] is the UTC time of the call
    formatted with ['%Y-%m-%dT%H-%M-%S.%fZ']. *)
Definition backup (full_path backup_base_dir : path) (ts : list N) : io unit :=
  let stem := stem full_path in
  let suffix := suffix full_path in
  let backup_name := stem ++ [DOT] ++ ts ++ suffix ++ BAK in
  let backup_path := child backup_base_dir backup_name in
  let! src := read_bytes full_path in
  write_bytes backup_path src >>
  try_except (rotate backup_base_dir stem suffix) (fun _ => ret tt).

Definition lock_path_of (full_path : path) : path :=
  child (parent full_path) (name full_path ++ py ".lock").

Definition _write_locked (full_path backup_base_dir : path) (data : list N)
    (ts rnd : list N) : io unit :=
  lock_enter (lock_path_of full_path) >>
  let! found := exists_ full_path in
  (if found
   then try_except (backup full_path backup_base_dir ts) (fun _ => ret tt)
   else ret tt) >>
  let! tmp_path := mkstemp (parent full_path) (name full_path ++ [DOT])
                           (py ".tmp") rnd in
  try_finally
    (write_bytes tmp_path data >> replace tmp_path full_path)
    (try_except
       (let! left := exists_ tmp_path in
        if left then unlink tmp_path else ret tt)
       (fun _ => ret tt)).

(** [write_file]; [ts] and [rnd] are what the clock and the temporary-name
    generator hand out during the call. *)
Definition write_file (self : file_manager) (file_path content : list N)
    (ts rnd : list N) : io bool :=
  let! full_path := _validate_file_path self file_path in
  mkdir_parents (parent full_path) >>
  let! data := match Codec.encode content with
               | Some d => ret d
               | None => raise (ValueError NotValidUtf8)
               end in
  let! rel_path := (if is_relative_to full_path (data_dir self)
                    then ret (relative_to full_path (data_dir self))
                    else raise (ValueError NotRelative)) in
  let! backup_base_dir :=
    resolve (joinpath (backup_dir self) (parent rel_path)) in
  mkdir_parents backup_base_dir >>
  _write_locked full_path backup_base_dir data ts rnd >>
  ret true.

Definition delete_file (self : file_manager) (file_path : list N) : io bool :=
  let! full_path := _validate_file_path self file_path in
  let! found := exists_ full_path in
  (if found then unlink full_path else ret tt) >>
  ret true.

End FileManager.

Import FileManager.

(** ** JSON values and [json.dumps] *)

Module Json.

(** What [json.loads] yields.  A float is carried by its [repr], the
    shortest decimal text that reads back as the same double (or [nan],
    [inf], [-inf]): that text is what [json.dumps] prints and what tells
    one float from another.  An integer is one [str()] can print (fewer
    than 4300 digits, as [json.loads] yields them).  An object is the list
    of its items in insertion order; its keys are pairwise distinct. *)
#[warnings="-register-all"]
Inductive value :=
| Null
| Bool (b : bool)
| Int (z : Z)
| Float (repr : list N)
| Str (s : list N)
| Arr (l : list value)
| Obj (d : list (list N * value)).

(** *** Floats *)

Definition is_digit (c : N) : bool := (48 <=? c) && (c <=? 57).

(** The characters of the repr of a finite float: digits, [-], [+], [.], [e]. *)
Definition is_float_char (c : N) : bool :=
  is_digit c || (c =? 45) || (c =? 43) || (c =? 46) || (c =? 101).

Definition special (r : list N) : bool :=
  bool_decide (r = py "nan") || bool_decide (r = py "inf") || bool_decide (r = py "-inf").

(** [r] has the shape of the repr of a float: [nan], [inf], [-inf], or a
    decimal that starts with a digit or a sign and holds a point or an
    exponent (what tells it from the text of an integer). *)
Definition float_text (r : list N) : bool :=
  special r
  || (match r with c :: _ => is_digit c || (c =? 45) | [] => false end
      && forallb is_float_char r
      && existsb (fun c => (c =? 46) || (c =? 101)) r).

(** [floatstr] of [json.encoder] with [allow_nan=True]. *)
Definition dumps_float (r : list N) : list N :=
  if bool_decide (r = py "nan") then py "NaN"
  else if bool_decide (r = py "inf") then py "Infinity"
  else if bool_decide (r = py "-inf") then py "-Infinity"
  else r.

(** A number as Python compares it: [m] times two to the [e], or an infinity. *)
Inductive number :=
| Fin (m e : Z)
| Inf (negative : bool).

Definition number_eqb (x y : number) : bool :=
  match x, y with
  | Fin m e, Fin m' e' =>
      let k := Z.min e e' in (m * 2 ^ (e - k) =? m' * 2 ^ (e' - k))%Z
  | Inf s, Inf s' => bool_decide (s = s')
  | _, _ => false
  end.

(** The value of a run of decimal digits; [None] if it is empty or holds
    another character. *)
Fixpoint digits_from (acc : Z) (s : list N) : option Z :=
  match s with
  | [] => Some acc
  | c :: s' => if is_digit c then digits_from (10 * acc + Z.of_N (c - 48)) s' else None
  end.

Definition digits (s : list N) : option Z :=
  match s with [] => None | _ => digits_from 0 s end.

(** [n / d] rounded to the nearest integer, a tie to the even one ([0 < d]). *)
Definition round_half_even (n d : Z) : Z :=
  let q := (n / d)%Z in
  let r := (n mod d)%Z in
  if (2 * r <? d)%Z then q
  else if (d <? 2 * r)%Z then (q + 1)%Z
  else if Z.even q then q else (q + 1)%Z.

(** The double nearest to [a / b] ([0 < a], [0 < b]), as the correctly
    rounded conversion of [float()] gives it: 53 bits of mantissa, ties to
    even, subnormal below [2^-1022], infinite from [2^1024] on. *)
Definition binary64 (a b : Z) : number :=
  let k0 := (Z.log2 a - Z.log2 b)%Z in
  let below := if (0 <=? k0)%Z then (a <? b * 2 ^ k0)%Z else (a * 2 ^ (- k0) <? b)%Z in
  let k := if below then (k0 - 1)%Z else k0 in
  let e := Z.max (k - 52) (-1074) in
  let m := if (0 <=? e)%Z then round_half_even a (b * 2 ^ e)
           else round_half_even (a * 2 ^ (- e)) b in
  if (971 <? e)%Z || ((e =? 971)%Z && (m =? 2 ^ 53)%Z) then Inf false else Fin m e.

Definition negate (x : number) : number :=
  match x with
  | Fin m e => Fin (- m) e
  | Inf s => Inf (negb s)
  end.

(** The mantissa of a decimal: its digits as an integer and the number of
    digits after the point. *)
Definition mantissa (s : list N) : option (Z * Z) :=
  match split 46 s with
  | [i] => d ← digits i; Some (d, 0%Z)
  | [i; f] => _ ← digits i; _ ← digits f; d ← digits_from 0 (i ++ f);
              Some (d, Z.of_nat (length f))
  | _ => None
  end.

Definition exponent (s : list N) : option Z :=
  match s with
  | 45 :: d => Z.opp <$> digits d
  | 43 :: d => digits d
  | _ => digits s
  end.

Definition unsigned_value (s : list N) : option number :=
  if bool_decide (s = py "inf") then Some (Inf false)
  else
    '(m, x) ← match split 101 s with
              | [m] => mf ← mantissa m; Some (mf, 0%Z)
              | [m; x] => mf ← mantissa m; e ← exponent x; Some (mf, e)
              | _ => None
              end;
    let '(d, frac) := m in
    let e10 := (x - frac)%Z in
    if (d =? 0)%Z then Some (Fin 0 0)
    else if (0 <=? e10)%Z then Some (binary64 (d * 10 ^ e10) 1)
    else Some (binary64 d (10 ^ (- e10))).

(** The number a float stands for, from its repr; [None] for [nan] (and
    for a text that is not the repr of a float). *)
Definition float_value (r : list N) : option number :=
  match r with
  | 45 :: s => negate <$> unsigned_value s
  | _ => unsigned_value r
  end.

(** *** Serialization *)

Definition hex_digit (n : N) : N := if n <? 10 then 48 + n else 87 + n.

(** One character inside a JSON string, [ensure_ascii=False]. *)
Definition BACKSLASH : N := 92.
Definition QUOTE : N := 34.

Definition escape_char (c : N) : list N :=
  if c =? QUOTE then [BACKSLASH; QUOTE]
  else if c =? BACKSLASH then [BACKSLASH; BACKSLASH]
  else if c =? 10 then BACKSLASH :: py "n"
  else if c =? 13 then BACKSLASH :: py "r"
  else if c =? 9 then BACKSLASH :: py "t"
  else if c =? 8 then BACKSLASH :: py "b"
  else if c =? 12 then BACKSLASH :: py "f"
  else if c <? 32
       then BACKSLASH :: py "u00" ++ [hex_digit (c / 16); hex_digit (c mod 16)]
  else [c].

Definition encode_basestring (s : list N) : list N :=
  [QUOTE] ++ concat (map escape_char s) ++ [QUOTE].

Definition dumps_int (z : Z) : list N :=
  py (DecimalString.NilZero.string_of_int (Z.to_int z)).

Definition item_le (a b : list N * list N) : Prop := str_ltb (fst b) (fst a) = false.

#[global] Instance item_le_dec a b : Decision (item_le a b).
Proof. unfold item_le. apply _. Defined.

(** [json.dumps(v, ensure_ascii=False, sort_keys=True, separators=(",", ":"))] *)
Fixpoint dumps (v : value) : list N :=
  match v with
  | Null => py "null"
  | Bool true => py "true"
  | Bool false => py "false"
  | Int z => dumps_int z
  | Float r => dumps_float r
  | Str s => encode_basestring s
  | Arr l => py "[" ++ join (py ",") (map dumps l) ++ py "]"
  | Obj d =>
      let items := map (fun kv => (fst kv, dumps (snd kv))) d in
      py "{"
      ++ join (py ",")
              (map (fun kv => encode_basestring (fst kv) ++ py ":" ++ snd kv)
                   (merge_sort item_le items))
      ++ py "}"
  end.

(** What a boolean, an integer or a float is worth in a comparison;
    [None] for [nan] and for what is not a number. *)
Definition number_of (v : value) : option number :=
  match v with
  | Bool b => Some (Fin (if b then 1 else 0) 0)
  | Int z => Some (Fin z 0)
  | Float r => float_value r
  | _ => None
  end.

(** The one object [json.decoder.NaN], which [json.loads] yields for every
    [NaN] it reads. *)
Definition is_nan (v : value) : bool :=
  match v with
  | Float r => bool_decide (r = py "nan")
  | _ => false
  end.

(** [a == b] between two lists or dicts read by [json.loads], and between
    their items.  Lists are compared by position, dicts by size and by the
    value under each key.  A list or a dict takes an item to be equal to
    itself before it asks [==]: the one [NaN] object is equal to itself
    there.  Apart from that booleans, integers and floats are compared by
    their value ([True == 1], [1 == 1.0], [nan] equal to no number). *)
Fixpoint py_eq (a b : value) {struct a} : bool :=
  match a, b with
  | Null, Null => true
  | (Bool _ | Int _ | Float _), (Bool _ | Int _ | Float _) =>
      if is_nan a && is_nan b then true
      else match number_of a, number_of b with
           | Some x, Some y => number_eqb x y
           | _, _ => false
           end
  | Str x, Str y => bool_decide (x = y)
  | Arr x, Arr y =>
      (fix go (x y : list value) : bool :=
         match x, y with
         | [], [] => true
         | u :: x', v :: y' => py_eq u v && go x' y'
         | _, _ => false
         end) x y
  | Obj x, Obj y =>
      (length x =? length y)%nat
      && (fix go (x : list (list N * value)) : bool :=
            match x with
            | [] => true
            | (k, u) :: x' =>
                match list_find (fun kv => fst kv = k) y with
                | Some (_, (_, v)) => py_eq u v && go x'
                | None => false
                end
            end) x
  | _, _ => false
  end.

End Json.

(** ** main.py: the chat-completions relay *)

Module Relay.

(** [ChatCompletionRequest] *)
Record request := Request {
  base_url : list N;
  api_key : list N;
  payload : list (list N * Json.value)
}.

(** The dictionary returned by [APIClient.chat_completion] and stored as
    the [result] of a pending entry. *)
Record snapshot := Snapshot {
  status_code : Z;
  content_type : list N;
  json : option Json.value;
  text : option (list N)
}.

(** How a call of an endpoint ends: it returns a response, it raises an
    [HTTPException], or another exception leaves it ([exc] is its text). *)
Inductive http_result :=
| JSONResponse (content : Json.value) (status : Z) (content_type_header : list N)
| Response (content : list N) (status : Z) (media_type : option (list N))
| HTTPException (status : Z) (detail : list N)
| Unhandled (exc : list N).

(** Starlette makes the body and the headers of a response when the
    response is constructed.  The body of a [JSONResponse] is
    [json.dumps(content, ensure_ascii=False, allow_nan=False, ...)] encoded
    in UTF-8: [nan] and the infinities are refused, and so is a string or a
    key with a surrogate.  The body of a [Response] is its text encoded in
    UTF-8.  The content type goes into a header, encoded in Latin-1. *)
Definition latin1 (s : list N) : bool := forallb (fun c => c <? 256) s.

Definition utf8 (s : list N) : bool := bool_decide (is_Some (Codec.encode s)).

Fixpoint json_renders (v : Json.value) : bool :=
  match v with
  | Json.Float r => negb (Json.special r)
  | Json.Str s => utf8 s
  | Json.Arr l => forallb json_renders l
  | Json.Obj d => forallb (fun kv => utf8 (fst kv) && json_renders (snd kv)) d
  | _ => true
  end.

(** The constructor of the response does not raise. *)
Definition renders (a : http_result) : bool :=
  match a with
  | JSONResponse j _ ct => json_renders j && latin1 ct
  | Response c _ mt => utf8 c && latin1 (default [] mt)
  | HTTPException _ _ | Unhandled _ => true
  end.

(** [_canonicalize_payload].  [json.dumps] does not fail on a payload that
    came out of [json.loads], so the [repr] fallback is never taken. *)
Definition _canonicalize_payload (payload : list (list N * Json.value)) : list N :=
  Json.dumps (Json.Obj payload).

Definition BAR : N := 124.

Definition _make_chat_key (base_url api_key : list N)
    (payload : list (list N * Json.value)) : list N :=
  strip base_url ++ [BAR] ++ strip api_key ++ [BAR] ++ _canonicalize_payload payload.

Definition key_of (r : request) : list N :=
  _make_chat_key (base_url r) (api_key r) (payload r).

(** An entry of [app.state.chat_pending_map]; [event] names the
    [asyncio.Event] object the entry holds. *)
Record holder := Holder {
  event : nat;
  result : option snapshot;
  created_at : list N
}.

(** [app.state.last_chat_completion_entry] *)
Record entry := Entry {
  req : request;
  res : snapshot;
  stored_at : list N
}.

(** What one segment does to the shared state, in order. *)
Inductive op :=
| Acquire                   (* entering [async with chat_pending_lock] *)
| Release                   (* leaving it *)
| Lookup (key : list N)     (* [chat_pending_map.get(key)] *)
| Register (key : list N)   (* [chat_pending_map[key] = {...}] *)
| Complete (key : list N)   (* [holder["result"] = ...; event.set()] *)
| Remove (key : list N)     (* [del chat_pending_map[key]] *)
| Invoke (r : request).     (* [api_client.chat_completion(...)] is started *)

Record state := State {
  chat_pending_map : gmap (list N) holder;
  events : list bool;                      (* [is_set()] of every event made *)
  last_chat_completion_entry : option entry;
  cleanups : list (list N * list N);       (* sleeping [_cleanup_pending_later] tasks *)
  log : list op
}.

Definition note (o : op) (st : state) : state :=
  State (chat_pending_map st) (events st) (last_chat_completion_entry st)
        (cleanups st) (log st ++ [o]).

Definition set_map (m : gmap (list N) holder) (st : state) : state :=
  State m (events st) (last_chat_completion_entry st) (cleanups st) (log st).

Definition set_events (e : list bool) (st : state) : state :=
  State (chat_pending_map st) e (last_chat_completion_entry st) (cleanups st) (log st).

Definition set_last (l : option entry) (st : state) : state :=
  State (chat_pending_map st) (events st) l (cleanups st) (log st).

Definition set_cleanups (c : list (list N * list N)) (st : state) : state :=
  State (chat_pending_map st) (events st) (last_chat_completion_entry st) c (log st).

(** [evt.is_set()] *)
Definition is_set (st : state) (ev : nat) : bool := default false (events st !! ev).

(** The first locked block of both endpoints: the event of the entry under
    [key] when that entry is still in flight. *)
Definition in_flight (key : list N) (st : state) : state * option nat :=
  let st := note Acquire st in
  let st := note (Lookup key) st in
  let event :=
    match chat_pending_map st !! key with
    | Some holder => if is_set st (event holder) then None else Some (event holder)
    | None => None
    end in
  (note Release st, event).

(** The tail shared by the endpoints: status, content type and body of the
    answer built from a stored dictionary ([None] stands for [{}]). *)
Definition respond (upstream : option snapshot) : http_result :=
  let status := default 200%Z (status_code <$> upstream) in
  let ct := match content_type <$> upstream with
            | Some (c :: r) => c :: r
            | _ => py "application/json"
            end in
  match upstream ≫= json with
  | Some j => JSONResponse j status ct
  | None => Response (default [] (upstream ≫= text)) status (Some ct)
  end.

(** "Errors are not cached": the slot is replaced when the status is below 400. *)
Definition record_last (request_data : request) (res : snapshot) (now : list N)
    (st : state) : state :=
  if (status_code res <? 400)%Z
  then set_last (Some (Entry request_data res now)) st
  else st.

Inductive begun :=
| Rejected (r : http_result)
| Follower (ev : nat)
| Leader.

(** [chat_completions] up to its first suspension.  [mismatch] is the
    verdict of the base-URL check against settings.json; [now] is the clock. *)
Definition chat_begin (mismatch : bool) (request_data : request) (now : list N)
    (st : state) : state * begun :=
  if mismatch
  then (st, Rejected (HTTPException 403 (py "Security error: Base URL mismatch")))
  else
    let key := key_of request_data in
    let '(st, event) := in_flight key st in
    match event with
    | Some ev => (st, Follower ev)
    | None =>
        let st := note Acquire st in
        let st :=
          match chat_pending_map st !! key with
          | None =>
              let ev := length (events st) in
              note (Register key)
                (set_map (<[key := Holder ev None now]> (chat_pending_map st))
                   (set_events (events st ++ [false]) st))
          | Some _ => st
          end in
        let st := note Release st in
        (note (Invoke request_data) st, Leader)
    end.

(** The locked block that publishes a result: it is stored in the entry
    under [key], the event is set and the delayed cleanup is scheduled. *)
Definition publish (key : list N) (r : snapshot) (st : state) : state :=
  let st := note Acquire st in
  let st :=
    match chat_pending_map st !! key with
    | Some holder =>
        let st := set_map (<[key := Holder (event holder) (Some r) (created_at holder)]>
                             (chat_pending_map st)) st in
        let st := set_events (<[event holder := true]> (events st)) st in
        note (Complete key) (set_cleanups (cleanups st ++ [(key, created_at holder)]) st)
    | None => st
    end in
  note Release st.

(** How the upstream call ends for the handlers of the endpoint.  A call
    that is cancelled ends in a [CancelledError], which no handler of the
    endpoint catches: that is the turn [step_cancel] of the event loop. *)
Inductive upstream_outcome :=
| Returned (upstream : snapshot)
| HTTPError (e : list N)        (* [httpx.HTTPError], [str(e)] *)
| OtherError (e : list N).      (* any other exception *)

Definition error_snapshot (code : Z) (msg : list N) : snapshot :=
  Snapshot code (py "application/json") (Some (Json.Obj [(py "error", Json.Str msg)])) None.

(** The leader after [api_client.chat_completion] has returned or raised.
    What follows the call sits in the same [try]: when the response cannot
    be constructed, the handler of [Exception] stores a 500 snapshot in the
    entry, over the result published a moment before, and answers 500;
    [why] is the text of that exception. *)
Definition chat_leader_done (request_data : request) (o : upstream_outcome)
    (now why : list N) (st : state) : state * http_result :=
  let key := key_of request_data in
  match o with
  | Returned upstream =>
      let st := publish key upstream st in
      let st := record_last request_data upstream now st in
      let answer := respond (Some upstream) in
      if renders answer then (st, answer)
      else
        let msg := py "AI API request failed: " ++ why in
        (publish key (error_snapshot 500 msg) st, HTTPException 500 msg)
  | HTTPError e =>
      let msg := py "Upstream request failed: " ++ e in
      (publish key (error_snapshot 502 msg) st, HTTPException 502 msg)
  | OtherError e =>
      let msg := py "AI API request failed: " ++ e in
      (publish key (error_snapshot 500 msg) st, HTTPException 500 msg)
  end.

(** A follower after [event.wait()] has returned.  No handler surrounds
    the construction of its response: an exception raised there ([why] is
    its text) leaves the endpoint. *)
Definition chat_follower_wake (request_data : request) (now why : list N)
    (st : state) : state * http_result :=
  let key := key_of request_data in
  match chat_pending_map st !! key ≫= result with
  | None => (st, HTTPException 500 (py "No result available after waiting"))
  | Some result =>
      let answer := respond (Some result) in
      (record_last request_data result now st,
       if renders answer then answer else Unhandled why)
  end.

(** A follower whose [asyncio.wait_for] ran into its timeout. *)
Definition chat_follower_timeout : http_result :=
  HTTPException 504 (py "Upstream request still in progress (timeout)").

(** [_cleanup_pending_later] after its sleep. *)
Definition _cleanup_pending_later (key created : list N) (st : state) : state :=
  let st := note Acquire st in
  let st :=
    match chat_pending_map st !! key with
    | Some holder =>
        if bool_decide (created_at holder = created) && is_set st (event holder)
        then note (Remove key) (set_map (delete key (chat_pending_map st)) st)
        else st
    | None => st
    end in
  note Release st.

(** Field-for-field comparison of the stored request with the incoming one. *)
Definition same (stored incoming : request) : bool :=
  bool_decide (base_url stored = base_url incoming)
  && bool_decide (api_key stored = api_key incoming)
  && Json.py_eq (Json.Obj (payload stored)) (Json.Obj (payload incoming)).

Inductive looked_up :=
| Answer (r : http_result)
| Wait (ev : nat).

Definition no_content : http_result := Response [] 204 None.

(** The [try] around the whole of [get_last_chat_completion]: when the
    response cannot be constructed the endpoint answers 500; [why] is the
    text of the exception. *)
Definition or_500 (why : list N) (a : http_result) : http_result :=
  if renders a then a
  else HTTPException 500 (py "Failed to get last chat completion: " ++ why).

(** [get_last_chat_completion] up to its first suspension. *)
Definition last_begin (request_data : request) (why : list N) (st : state)
    : state * looked_up :=
  let key := key_of request_data in
  let wait_or_204 (st : state) :=
    let '(st, event) := in_flight key st in
    match event with
    | Some ev => (st, Wait ev)
    | None => (st, Answer no_content)
    end in
  match last_chat_completion_entry st with
  | None => wait_or_204 st
  | Some entry =>
      if same (req entry) request_data
      then (st, Answer (or_500 why (respond (Some (res entry)))))
      else wait_or_204 st
  end.

(** The lookup after the awaited event has been set. *)
Definition last_wake (request_data : request) (why : list N) (st : state)
    : http_result :=
  or_500 why (respond (chat_pending_map st !! key_of request_data ≫= result)).

(** The lookup whose wait ran into its timeout. *)
Definition last_timeout : http_result := no_content.

(** *** The event loop

    The coroutines of the two endpoints, cut at their suspension points. *)

Inductive task :=
| Arrived (mismatch : bool) (r : request)  (* [chat_completions] called *)
| Following (r : request) (ev : nat)       (* suspended in [event.wait()] *)
| Leading (r : request)                    (* suspended in the upstream call *)
| LastArrived (r : request)                (* [get_last_chat_completion] called *)
| LastWaiting (r : request) (ev : nat)     (* suspended in [event.wait()] *)
| Done (answer : http_result)
| Cancelled.                               (* ended by a [CancelledError] *)

(** A coroutine that has not ended. *)
Definition live (t : task) : bool :=
  match t with
  | Done _ | Cancelled => false
  | _ => true
  end.

Record config := Config { shared : state; tasks : list task }.

Definition after_begin (r : request) (b : begun) : task :=
  match b with
  | Rejected a => Done a
  | Follower ev => Following r ev
  | Leader => Leading r
  end.

Definition after_lookup (r : request) (l : looked_up) : task :=
  match l with
  | Answer a => Done a
  | Wait ev => LastWaiting r ev
  end.

(** One turn of the event loop: a request arrives, or one coroutine runs
    from where it was suspended to its next suspension or to its end, or
    a coroutine is cancelled where it stands (the client has gone, the
    server shuts down): [CancelledError] is no [Exception], so no handler
    of the endpoints runs and the shared state stays as it is. *)
Inductive step : config → config → Prop :=
| step_arrive st ts mm r :
    step (Config st ts) (Config st (ts ++ [Arrived mm r]))
| step_arrive_last st ts r :
    step (Config st ts) (Config st (ts ++ [LastArrived r]))
| step_begin st ts i mm r now :
    ts !! i = Some (Arrived mm r) →
    step (Config st ts)
         (Config (fst (chat_begin mm r now st))
                 (<[i := after_begin r (snd (chat_begin mm r now st))]> ts))
| step_leader_done st ts i r o now why :
    ts !! i = Some (Leading r) →
    step (Config st ts)
         (Config (fst (chat_leader_done r o now why st))
                 (<[i := Done (snd (chat_leader_done r o now why st))]> ts))
| step_follower_wake st ts i r ev now why :
    ts !! i = Some (Following r ev) →
    is_set st ev = true →
    step (Config st ts)
         (Config (fst (chat_follower_wake r now why st))
                 (<[i := Done (snd (chat_follower_wake r now why st))]> ts))
| step_follower_timeout st ts i r ev :
    ts !! i = Some (Following r ev) →
    is_set st ev = false →
    step (Config st ts) (Config st (<[i := Done chat_follower_timeout]> ts))
| step_cleanup st ts pre key created post :
    cleanups st = pre ++ (key, created) :: post →
    step (Config st ts)
         (Config (_cleanup_pending_later key created (set_cleanups (pre ++ post) st)) ts)
| step_last_begin st ts i r why :
    ts !! i = Some (LastArrived r) →
    step (Config st ts)
         (Config (fst (last_begin r why st))
                 (<[i := after_lookup r (snd (last_begin r why st))]> ts))
| step_last_wake st ts i r ev why :
    ts !! i = Some (LastWaiting r ev) →
    is_set st ev = true →
    step (Config st ts) (Config st (<[i := Done (last_wake r why st)]> ts))
| step_last_timeout st ts i r ev :
    ts !! i = Some (LastWaiting r ev) →
    is_set st ev = false →
    step (Config st ts) (Config st (<[i := Done last_timeout]> ts))
| step_cancel st ts i t :
    ts !! i = Some t →
    live t = true →
    step (Config st ts) (Config st (<[i := Cancelled]> ts))
| step_cleanup_cancel st ts pre key created post :
    cleanups st = pre ++ (key, created) :: post →
    step (Config st ts) (Config (set_cleanups (pre ++ post) st) ts).

(** The server as it starts. *)
Definition initial : state := State ∅ [] None [] [].

(** Status and body of the answer; FastAPI renders an [HTTPException] as
    the JSON object [{"detail": ...}], and the handler that [main.py]
    registers for 500 answers an exception that left an endpoint. *)
Definition status_of (a : http_result) : Z :=
  match a with
  | JSONResponse _ s _ | Response _ s _ | HTTPException s _ => s
  | Unhandled _ => 500
  end.

Inductive body :=
| JsonBody (j : Json.value)
| RawBody (b : list N).

Definition body_of (a : http_result) : body :=
  match a with
  | JSONResponse j _ _ => JsonBody j
  | Response c _ _ => RawBody c
  | HTTPException _ d => JsonBody (Json.Obj [(py "detail", Json.Str d)])
  | Unhandled e =>
      JsonBody (Json.Obj [(py "message", Json.Str (py "Internal server error"));
                          (py "detail", Json.Str e)])
  end.

(** The upstream calls started for [key], counted in the log. *)
Definition is_invoke (key : list N) (o : op) : bool :=
  match o with
  | Invoke r => bool_decide (key_of r = key)
  | _ => false
  end.

Definition invocations (key : list N) (st : state) : nat :=
  length (List.filter (is_invoke key) (log st)).

End Relay.

(** ** Vocabulary of the file-store properties *)

Module FileSpec.

(** The lexical normal form computed by [realpath_walk]. *)
Fixpoint normalize (cur rest : list (list N)) : list (list N) :=
  match rest with
  | [] => cur
  | n :: rest' =>
      if bool_decide (n = pardir) then normalize (removelast cur) rest'
      else normalize (cur ++ [n]) rest'
  end.

(** The probes of a walk that meets no null byte. *)
Fixpoint walk_probes (cur rest : list (list N)) : list event :=
  match rest with
  | [] => []
  | n :: rest' =>
      if bool_decide (n = pardir) then walk_probes (removelast cur) rest'
      else EvLstat (Path true (cur ++ [n])) :: walk_probes (cur ++ [n]) rest'
  end.

Definition start_of (w : world) (p : path) : list (list N) :=
  if is_absolute p then [] else parts (cwd w).

(** The value of [p.resolve()] in a world. *)
Definition resolved (w : world) (p : path) : path :=
  Path true (normalize (start_of w p) (parts p)).

Definition add_trace (w : world) (evs : list event) : world :=
  World (dirs w) (files w) (held w) (cwd w) (trace w ++ evs).

(** The probes of [p.resolve()] where no null byte stops it. *)
Definition resolve_probes (w : world) (p : path) : list event :=
  walk_probes (start_of w p) (parts p) ++ [EvStat (resolved w p)].

(** The calls that only ask the file system about a path. *)
Definition is_probe (e : event) : bool :=
  match e with EvLstat _ | EvStat _ => true | _ => false end.

Definition target (self : file_manager) (file_path : list N) : path :=
  joinpath (data_dir self) (parse file_path).

(** The extension of the path is outside the allow-list. *)
Definition bad_extension (file_path : list N) : Prop :=
  lower (suffix (parse file_path)) ∉ allowed_extensions.

(** The resolved form of the path is not inside the resolved data root. *)
Definition escapes (self : file_manager) (w : world) (file_path : list N) : Prop :=
  is_relative_to (resolved w (target self file_path))
                 (resolved w (data_dir self)) = false.

Definition nul_free (p : path) : Prop := Forall (fun n => NUL ∉ n) (parts p).

(** The path resolves (no null byte) to a place inside the data root. *)
Definition contained (self : file_manager) (w : world) (file_path : list N) : Prop :=
  nul_free (target self file_path) ∧ nul_free (data_dir self)
  ∧ is_relative_to (resolved w (target self file_path))
                    (resolved w (data_dir self)) = true.

(** Same letters up to ASCII case. *)
Definition same_up_to_case (a b : list N) : Prop := lower a = lower b.

(** Only directories were added (and events recorded). *)
Definition only_dirs (w w' : world) : Prop :=
  files w' = files w ∧ held w' = held w ∧ cwd w' = cwd w ∧ dirs w ⊆ dirs w'.

End FileSpec.

Import FileSpec.

(** ** Scenarios of the file store *)

Module Scenario.

Definition fm0 : file_manager :=
  Build (Path true [py "app"; py "data"]) (Path true [py "app"; py "backups"]).

Definition w0 : world :=
  World {[ Path true [py "app"]; Path true [py "app"; py "data"];
           Path true [py "app"; py "backups"] ]} ∅ ∅ (Path true [py "app"]) [].

(** The clock reading of the [n]-th call, [n < 100], in the format of the
    backup names. *)
Definition ts_of (n : N) : list N :=
  py "2025-09-28T12-34-56.0000" ++ [48 + n / 10; 48 + n mod 10] ++ py "Z".

Definition rnd_of (n : N) : list N := py "tmp" ++ [48 + n / 10; 48 + n mod 10].

Definition content_of (n : N) : list N := py "version " ++ [48 + n / 10; 48 + n mod 10].

(** [count] successive writes to one path; the first is call number [n]. *)
Fixpoint writes (self : file_manager) (file_path : list N) (count : nat) (n : N)
    (w : world) : world :=
  match count with
  | O => w
  | S count' =>
      writes self file_path count' (n + 1)
        (fst (write_file self file_path (content_of n) (ts_of n) (rnd_of n) w))
  end.

Definition backup_of (stem : list N) (n : N) (suffix : list N) : path :=
  Path true [py "app"; py "backups"; stem ++ [DOT] ++ ts_of n ++ suffix ++ BAK].

(** The names in the backup directory, newest first. *)
Definition backup_names (w : world) : list (list N) :=
  map name (sort_reverse
              (filter (fun p => parent p = Path true [py "app"; py "backups"])
                      (elements (dom (files w))))).

(** Text with a Windows line end. *)
Definition crlf_text : list N := py "a" ++ [Codec.CR; Codec.LF] ++ py "b".

(** A lone surrogate, as [json.loads] yields it for an escaped one. *)
Definition lone_surrogate : list N := [55296].

(** Another writer holds the lock of [notes/a.txt]. *)
Definition w_locked : world :=
  World {[ Path true [py "app"]; Path true [py "app"; py "data"];
           Path true [py "app"; py "backups"];
           Path true [py "app"; py "data"; py "notes"];
           Path true [py "app"; py "backups"; py "notes"] ]}
        {[ Path true [py "app"; py "data"; py "notes"; py "a.txt"] := py "hello";
           Path true [py "app"; py "data"; py "notes"; py "a.txt.lock"] := [] ]}
        {[ Path true [py "app"; py "data"; py "notes"; py "a.txt.lock"] ]}
        (Path true [py "app"]) [].

(** Two writes of [a.1.txt] (one backup of it), then thirty writes of
    [a.txt] (twenty-nine backups of it). *)
Definition w_two_files : world :=
  writes fm0 (py "a.txt") 30 3 (writes fm0 (py "a.1.txt") 2 1 w0).

End Scenario.

Import Scenario.

(** ** Vocabulary of the serialization properties *)

Module JsonSpec.

Import Json.

(** Equality of JSON values up to the order of the items of objects. *)
#[warnings="-register-all"]
Inductive alike : value → value → Prop :=
| alike_null : alike Null Null
| alike_bool b : alike (Bool b) (Bool b)
| alike_int z : alike (Int z) (Int z)
| alike_float r : alike (Float r) (Float r)
| alike_str s : alike (Str s) (Str s)
| alike_arr l l' : Forall2 alike l l' → alike (Arr l) (Arr l')
| alike_obj d d' ds ds' :
    d ≡ₚ ds → d' ≡ₚ ds' →
    Forall2 (fun a b => fst a = fst b ∧ alike (snd a) (snd b)) ds ds' →
    alike (Obj d) (Obj d').

(** No object has a key twice. *)
#[warnings="-register-all"]
Inductive distinct_keys : value → Prop :=
| distinct_keys_null : distinct_keys Null
| distinct_keys_bool b : distinct_keys (Bool b)
| distinct_keys_int z : distinct_keys (Int z)
| distinct_keys_float r : distinct_keys (Float r)
| distinct_keys_str s : distinct_keys (Str s)
| distinct_keys_arr l : Forall distinct_keys l → distinct_keys (Arr l)
| distinct_keys_obj d : NoDup (map fst d) → Forall (fun kv => distinct_keys (snd kv)) d → distinct_keys (Obj d).

(** What may follow a value inside a document: nothing, or a comma, or a
    closing bracket or brace. *)
Definition closes (s : list N) : Prop :=
  match s with
  | [] => True
  | c :: _ => c = 44 ∨ c = 93 ∨ c = 125
  end.

Definition is_numeric (c : N) : Prop := c = 45 ∨ (48 ≤ c ∧ c ≤ 57).

(** Every float of the value is written as floats are. *)
Fixpoint floats_ok (v : value) : bool :=
  match v with
  | Float r => float_text r
  | Arr l => forallb floats_ok l
  | Obj d => forallb (fun kv => floats_ok (snd kv)) d
  | _ => true
  end.

(** A character that ends no value: not a comma, nor a closing bracket or
    brace. *)
Definition inner (c : N) : Prop := c ≠ 44 ∧ c ≠ 93 ∧ c ≠ 125.

(** The first character of the text of a value tells its kind, numbers
    apart: an integer and a float may start alike. *)
Definition opens (v : value) (c : N) : Prop :=
  match v with
  | Null => c = 110
  | Bool b => c = (if b then 116 else 102)
  | Int _ | Float _ => is_numeric c ∨ c = 78 ∨ c = 73
  | Str _ => c = QUOTE
  | Arr _ => c = 91
  | Obj _ => c = 123
  end.

(** Where a reader of JSON text stands: outside the strings, inside one,
    or behind a backslash inside one. *)
Inductive lex := Out | In | Esc.

(** One character further.  Outside the strings a text printed by [dumps]
    has no backslash and no bar: there the reader stops. *)
Definition lex_step (s : lex) (c : N) : option lex :=
  match s with
  | Out => if c =? QUOTE then Some In
           else if (c =? BACKSLASH) || (c =? 124) then None
           else Some Out
  | In => if c =? QUOTE then Some Out
          else if c =? BACKSLASH then Some Esc
          else Some In
  | Esc => Some In
  end.

Fixpoint lex_run (s : lex) (t : list N) : option lex :=
  match t with
  | [] => Some s
  | c :: t' => s' ← lex_step s c; lex_run s' t'
  end.

(** A character that opens no string, escapes nothing and is no bar. *)
Definition plain (c : N) : Prop := c ≠ QUOTE ∧ c ≠ BACKSLASH ∧ c ≠ 124.

(** The reader that took the same text for the other side of a quote. *)
Definition opposite (s : lex) : lex :=
  match s with
  | Out => In
  | In | Esc => Out
  end.

(** Reading one character of a JSON string back from its escaped form;
    [None] at the closing quote. *)
Definition unhex (d : N) : N := if d <? 58 then d - 48 else d - 87.

Definition unescape_head (s : list N) : option (N * list N) :=
  match s with
  | [] => None
  | c :: r =>
      if c =? QUOTE then None
      else if c =? BACKSLASH then
        match r with
        | x :: r' =>
            if x =? QUOTE then Some (QUOTE, r')
            else if x =? BACKSLASH then Some (BACKSLASH, r')
            else if x =? 110 then Some (10, r')
            else if x =? 114 then Some (13, r')
            else if x =? 116 then Some (9, r')
            else if x =? 98 then Some (8, r')
            else if x =? 102 then Some (12, r')
            else match r' with
                 | _ :: _ :: h1 :: h2 :: r'' => Some (unhex h1 * 16 + unhex h2, r'')
                 | _ => None
                 end
        | [] => None
        end
      else Some (c, r)
  end.

(** Two numbers of one value: the same multiple of every unit that
    measures both, or the same infinity. *)
Definition same_number (x y : number) : Prop :=
  match x, y with
  | Fin m e, Fin m' e' =>
      ∀ k, (k ≤ e → k ≤ e' → m * 2 ^ (e - k) = m' * 2 ^ (e' - k))%Z
  | Inf s, Inf s' => s = s'
  | _, _ => False
  end.

(** Equality as Python's [==] decides it between two payloads read by
    [json.loads]: booleans, integers and floats are numbers and equal when
    their values are; [NaN] is equal to [NaN] and to nothing else; strings
    are equal when they are the same string; lists when their items are
    equal in order; dicts when they have as many items and each key of the
    one holds an equal value in the other. *)
#[warnings="-register-all"]
Inductive py_equal : value → value → Prop :=
| py_equal_null : py_equal Null Null
| py_equal_number a b x y :
    number_of a = Some x → number_of b = Some y → same_number x y → py_equal a b
| py_equal_nan : py_equal (Float (py "nan")) (Float (py "nan"))
| py_equal_str s : py_equal (Str s) (Str s)
| py_equal_arr l l' : Forall2 py_equal l l' → py_equal (Arr l) (Arr l')
| py_equal_obj d d' :
    length d = length d' →
    Forall (fun ku => Exists (fun kv => fst kv = fst ku ∧ py_equal (snd ku) (snd kv)) d') d →
    py_equal (Obj d) (Obj d').

(** Every float of the value is [nan] or has the value read from its text. *)
Fixpoint floats_valued (v : value) : bool :=
  match v with
  | Float r => bool_decide (r = py "nan") || bool_decide (is_Some (float_value r))
  | Arr l => forallb floats_valued l
  | Obj d => forallb (fun kv => floats_valued (snd kv)) d
  | _ => true
  end.

(** An item of an object as [dumps] prints it. *)
Definition item_text (kv : list N * value) : list N :=
  encode_basestring (fst kv) ++ 58 :: dumps (snd kv).

(** One text is the text of one value, up to the order of object items. *)
Definition sound (v : value) : Prop :=
  ∀ v' s s', floats_ok v' = true → closes s → closes s' →
             dumps v ++ s = dumps v' ++ s' → alike v v' ∧ s = s'.

End JsonSpec.

Import JsonSpec.

(** ** Vocabulary of the relay properties *)

Module RelaySpec.

Import Relay.

(** The last-completion slot holds nothing or a record with a status below 400. *)
Definition slot_ok (st : state) : Prop :=
  match last_chat_completion_entry st with
  | Some e => (status_code (res e) < 400)%Z
  | None => True
  end.

(** The stored request and the incoming one are equal field for field:
    the same target identity, the same credential and the same payload
    document. *)
Definition field_for_field (stored incoming : request) : Prop :=
  base_url stored = base_url incoming
  ∧ api_key stored = api_key incoming
  ∧ alike (Json.Obj (payload stored)) (Json.Obj (payload incoming)).

(** The stored request and the incoming one are equal as Python's [==]
    compares their fields. *)
Definition equal_requests (stored incoming : request) : Prop :=
  base_url stored = base_url incoming
  ∧ api_key stored = api_key incoming
  ∧ py_equal (Json.Obj (payload stored)) (Json.Obj (payload incoming)).

(** Two states that differ in the log of operations only. *)
Definition same_shared (st st' : state) : Prop :=
  chat_pending_map st' = chat_pending_map st
  ∧ events st' = events st
  ∧ last_chat_completion_entry st' = last_chat_completion_entry st
  ∧ cleanups st' = cleanups st.

(** Entries name events that exist, and no two entries share an event. *)
Definition registry_ok (st : state) : Prop :=
  ∀ k h, chat_pending_map st !! k = Some h →
    (event h < length (events st))%nat
    ∧ ∀ k' h', chat_pending_map st !! k' = Some h' → event h' = event h → k' = k.

(** The entry of [k] is registered, still in flight, with event [ev]. *)
Definition pending (k : list N) (ev : nat) (st : state) : Prop :=
  registry_ok st
  ∧ (∃ created, chat_pending_map st !! k = Some (Holder ev None created))
  ∧ is_set st ev = false.

(** What the leader leaves in the entry for the followers: the response
    of upstream if its own answer could be built from it, a snapshot of
    the error otherwise. *)
Definition published (o : upstream_outcome) (why : list N) : snapshot :=
  match o with
  | Returned upstream =>
      if renders (respond (Some upstream)) then upstream
      else error_snapshot 500 (py "AI API request failed: " ++ why)
  | HTTPError e => error_snapshot 502 (py "Upstream request failed: " ++ e)
  | OtherError e => error_snapshot 500 (py "AI API request failed: " ++ e)
  end.

(** The call for [k] is in flight under task [i]: the entry of [k] is
    registered with the unset event [ev] and no result, and [i] is the one
    task suspended in an upstream call for [k]. *)
Definition sole_leader (k : list N) (i ev : nat) (c : config) : Prop :=
  registry_ok (shared c)
  ∧ (∃ created, chat_pending_map (shared c) !! k = Some (Holder ev None created))
  ∧ is_set (shared c) ev = false
  ∧ (∃ r, tasks c !! i = Some (Leading r) ∧ key_of r = k)
  ∧ (∀ j r, tasks c !! j = Some (Leading r) → key_of r = k → j = i).

(** The lock as the log shows it: [Some held] after a run of operations in
    which no block is entered while the lock is held, none is left while
    it is free, and no upstream call (a suspension) starts inside one;
    [None] otherwise. *)
Fixpoint lock_state (held : bool) (ops : list op) : option bool :=
  match ops with
  | [] => Some held
  | Acquire :: ops' => if held then None else lock_state true ops'
  | Release :: ops' => if held then lock_state false ops' else None
  | Invoke _ :: ops' => if held then None else lock_state false ops'
  | _ :: ops' => lock_state held ops'
  end.

(** The lock is free, and was never waited for. *)
Definition lock_free (st : state) : Prop := lock_state false (log st) = Some false.

(** A turn of the event loop that leaves task [i] suspended in its
    upstream call. *)
Definition step_keeping (i : nat) (c c' : config) : Prop :=
  step c c' ∧ ∃ r, tasks c' !! i = Some (Leading r).

End RelaySpec.

Import Relay RelaySpec.

(** ** Scenarios of the relay *)

Module RelayScenario.

Definition rq0 : request := Request (py "http://x") (py "k") [].

Definition ok200 : snapshot :=
  Snapshot 200 (py "application/json") (Some (Json.Obj [(py "id", Json.Int 7)])) None.

(** A response of upstream whose JSON body holds a lone surrogate. *)
Definition unsendable : snapshot :=
  Snapshot 200 (py "application/json")
           (Some (Json.Obj [(py "text", Json.Str [55296])])) None.

Definition c_failed : config :=
  Config (fst (chat_begin false rq0 (ts_of 1) initial))
         [Leading rq0].

Definition c_waiting : config :=
  Config (fst (chat_begin false rq0 (ts_of 1) initial)) [Leading rq0; Following rq0 0].

Definition st_cached : state :=
  fst (chat_leader_done rq0 (Returned ok200) (ts_of 2) []
         (fst (chat_begin false rq0 (ts_of 1) initial))).

(** Requests whose payloads are [{"stream": true}] and [{"stream": 1}]. *)
Definition rq_true : request :=
  Request (py "http://x") (py "k") [(py "stream", Json.Bool true)].

Definition rq_one : request :=
  Request (py "http://x") (py "k") [(py "stream", Json.Int 1)].

(** The state after one exchange for [r] that upstream answered with [u]. *)
Definition after_exchange (r : request) (u : snapshot) : state :=
  fst (chat_leader_done r (Returned u) (ts_of 2) []
         (fst (chat_begin false r (ts_of 1) initial))).

End RelayScenario.

Import RelayScenario.

(** * Properties *)

(** ** Sanity checks of the string, path and codec models *)

Example parse_rel : parse (py "notes/./a.txt") = Path false [py "notes"; py "a.txt"].
Proof. reflexivity. Qed.

Example parse_abs : parse (py "/etc//passwd") = Path true [py "etc"; py "passwd"].
Proof. reflexivity. Qed.

Example suffix_upper : suffix (parse (py "dir/a.b.TXT")) = py ".TXT".
Proof. reflexivity. Qed.

Example suffix_hidden : suffix (parse (py ".txt")) = [].
Proof. reflexivity. Qed.

Example stem_dots : stem (parse (py "dir/a.b.TXT")) = py "a.b".
Proof. reflexivity. Qed.

Example encode_ascii : Codec.encode (py "hi") = Some [104; 105].
Proof. reflexivity. Qed.

(* U+3042 HIRAGANA LETTER A, U+1F600 *)
Example encode_wide :
  Codec.encode [12354; 128512] = Some [227; 129; 130; 240; 159; 152; 128].
Proof. reflexivity. Qed.

Example decode_wide :
  Codec.decode [227; 129; 130; 240; 159; 152; 128] = Some [12354; 128512].
Proof. reflexivity. Qed.

Example encode_lone_surrogate : Codec.encode [97; 55296] = None.
Proof. reflexivity. Qed.

(** ** The effect monad *)

Lemma add_trace_nil w : add_trace w [] = w.
Proof. destruct w. unfold add_trace. simpl. by rewrite app_nil_r. Qed.

Lemma add_trace_app w a b : add_trace (add_trace w a) b = add_trace w (a ++ b).
Proof. unfold add_trace. simpl. by rewrite app_assoc. Qed.

Lemma bind_raise {A B} (m : io A) (k : A → io B) w w' e :
  m w = (w', inl e) → bind m k w = (w', inl e).
Proof. unfold bind. by intros ->. Qed.

Lemma bind_ret {A B} (m : io A) (k : A → io B) w w' a :
  m w = (w', inr a) → bind m k w = k a w'.
Proof. unfold bind. by intros ->. Qed.

(** ** Path resolution *)

Lemma lstat_cases p w :
  (NUL ∈ name p ∧ lstat p w = (w, inl (ValueError EmbeddedNullByte)))
  ∨ ((NUL ∉ name p) ∧ lstat p w = (add_trace w [EvLstat p], inr tt)).
Proof.
  unfold lstat. case_bool_decide; [left|right]; split; try done.
Qed.

Lemma name_child cur n : name (Path true (cur ++ [n])) = n.
Proof. unfold name. simpl. apply last_last. Qed.

(** A walk ends with the normal form, or stops at a null byte; either way
    it has only probed. *)
Lemma realpath_walk_cases rest : ∀ cur w,
  ∃ probes, forallb is_probe probes = true ∧
    (realpath_walk cur rest w = (add_trace w probes, inr (normalize cur rest))
     ∨ realpath_walk cur rest w = (add_trace w probes, inl (ValueError EmbeddedNullByte))).
Proof.
  induction rest as [|n rest IH]; intros cur w; simpl.
  - exists []. split; [done|]. left. by rewrite add_trace_nil.
  - case_bool_decide.
    + apply IH.
    + destruct (lstat_cases (Path true (cur ++ [n])) w) as [[_ E]|[_ E]].
      * exists []. split; [done|]. right. rewrite add_trace_nil.
        by apply bind_raise.
      * destruct (IH (cur ++ [n]) (add_trace w [EvLstat (Path true (cur ++ [n]))]))
          as (probes & Hp & Hr).
        exists (EvLstat (Path true (cur ++ [n])) :: probes). split; [done|].
        rewrite (bind_ret _ _ _ _ _ E). rewrite add_trace_app in Hr. exact Hr.
Qed.

Lemma realpath_walk_ok rest : ∀ cur w,
  Forall (fun n => NUL ∉ n) rest →
  realpath_walk cur rest w
  = (add_trace w (walk_probes cur rest), inr (normalize cur rest)).
Proof.
  induction rest as [|n rest IH]; intros cur w Hn; simpl.
  - by rewrite add_trace_nil.
  - inversion Hn as [|? ? Hn1 Hn2]; subst. case_bool_decide.
    + by apply IH.
    + destruct (lstat_cases (Path true (cur ++ [n])) w) as [[E _]|[_ E]].
      * by rewrite name_child in E.
      * rewrite (bind_ret _ _ _ _ _ E), IH, add_trace_app; done.
Qed.

Lemma resolve_cases p w :
  ∃ probes, forallb is_probe probes = true ∧
    (resolve p w = (add_trace w probes, inr (resolved w p))
     ∨ resolve p w = (add_trace w probes, inl (ValueError EmbeddedNullByte))).
Proof.
  destruct (realpath_walk_cases (parts p) (start_of w p) w) as (probes & Hp & [E|E]).
  - exists (probes ++ [EvStat (resolved w p)]).
    split; [by rewrite forallb_app, Hp|]. left.
    unfold resolve, resolved, bind, get, ret, log; fold (start_of w p). rewrite E. simpl.
    unfold add_trace. simpl. by rewrite app_assoc.
  - exists probes. split; [done|]. right.
    unfold resolve, resolved, bind, get, ret; fold (start_of w p). by rewrite E.
Qed.

Lemma resolve_ok p w :
  nul_free p →
  resolve p w = (add_trace w (resolve_probes w p), inr (resolved w p)).
Proof.
  intros Hn. unfold resolve, resolve_probes, resolved, bind, get, ret, log.
  fold (start_of w p). rewrite (realpath_walk_ok _ _ w Hn). simpl.
  unfold add_trace. simpl. by rewrite app_assoc.
Qed.

Lemma walk_probes_probe rest : ∀ cur, forallb is_probe (walk_probes cur rest) = true.
Proof.
  induction rest as [|n r IH]; intros cur; simpl; [done|].
  case_bool_decide; simpl; apply IH.
Qed.

Lemma resolve_probes_probe w p : forallb is_probe (resolve_probes w p) = true.
Proof. unfold resolve_probes. by rewrite forallb_app, walk_probes_probe. Qed.

Lemma resolved_add_trace w evs p : resolved (add_trace w evs) p = resolved w p.
Proof. done. Qed.

(** ** Path validation *)

Lemma validate_bad_extension self file_path w :
  bad_extension file_path →
  _validate_file_path self file_path w
  = (w, inl (ValueError (ExtensionNotAllowed (lower (suffix (parse file_path)))))).
Proof.
  intros Hb. unfold _validate_file_path.
  by rewrite bool_decide_eq_false_2.
Qed.

Lemma validate_allowed self file_path w :
  ¬ bad_extension file_path →
  ∃ probes, forallb is_probe probes = true ∧
    (_validate_file_path self file_path w
       = (add_trace w probes, inl (ValueError EmbeddedNullByte))
     ∨ (escapes self w file_path
        ∧ _validate_file_path self file_path w
          = (add_trace w probes, inl (ValueError (OutsideDataDir file_path))))
     ∨ (¬ escapes self w file_path
        ∧ _validate_file_path self file_path w
          = (add_trace w probes, inr (resolved w (target self file_path))))).
Proof.
  intros Hb. unfold _validate_file_path, bad_extension in *.
  rewrite bool_decide_eq_true_2 by (by apply dec_stable). simpl.
  fold (target self file_path).
  destruct (resolve_cases (target self file_path) w) as (p1 & H1 & [E1|E1]).
  - rewrite (bind_ret _ _ _ _ _ E1).
    destruct (resolve_cases (data_dir self) (add_trace w p1)) as (p2 & H2 & [E2|E2]).
    + rewrite (bind_ret _ _ _ _ _ E2), add_trace_app, resolved_add_trace.
      exists (p1 ++ p2). split; [by rewrite forallb_app, H1, H2|].
      right. unfold escapes.
      destruct (is_relative_to _ _); simpl; [right|left]; split; done.
    + rewrite (bind_raise _ _ _ _ _ E2), add_trace_app.
      exists (p1 ++ p2). split; [by rewrite forallb_app, H1, H2|]. by left.
  - rewrite (bind_raise _ _ _ _ _ E1). exists p1. split; [done|]. by left.
Qed.

Lemma validate_contained self file_path w :
  ¬ bad_extension file_path → contained self w file_path →
  ∃ probes, forallb is_probe probes = true ∧
    _validate_file_path self file_path w
    = (add_trace w probes, inr (resolved w (target self file_path))).
Proof.
  intros Hb (N1 & N2 & Hin). unfold _validate_file_path, bad_extension in *.
  rewrite bool_decide_eq_true_2 by (by apply dec_stable). simpl.
  fold (target self file_path).
  rewrite (bind_ret _ _ _ _ _ (resolve_ok _ w N1)).
  rewrite (bind_ret _ _ _ _ _ (resolve_ok _ _ N2)).
  rewrite add_trace_app, resolved_add_trace, Hin. simpl.
  eexists. split; [|reflexivity].
  by rewrite forallb_app, !resolve_probes_probe.
Qed.

(** Every failure of the validation is a [ValueError] raised after probes only. *)
Lemma validate_rejects self file_path w :
  bad_extension file_path ∨ escapes self w file_path →
  ∃ e probes,
    forallb is_probe probes = true
    ∧ (bad_extension file_path → probes = [])
    ∧ _validate_file_path self file_path w = (add_trace w probes, inl (ValueError e)).
Proof.
  intros H. destruct (decide (bad_extension file_path)) as [Hb|Hb].
  - exists (ExtensionNotAllowed (lower (suffix (parse file_path)))), [].
    rewrite add_trace_nil. split; [done|]. split; [done|].
    by apply validate_bad_extension.
  - destruct H as [H|H]; [done|].
    destruct (validate_allowed self file_path w Hb) as (probes & Hp & [E|[[_ E]|[Hn _]]]).
    + by exists EmbeddedNullByte, probes.
    + by exists (OutsideDataDir file_path), probes.
    + done.
Qed.

(** C6 (as amended): a path with an extension outside the allow-list is
    rejected by [read_file], [write_file] and [delete_file] with a
    validation error and no file-system access at all; a path whose
    resolved form escapes the data root is rejected by all three with a
    validation error after the read-only probes of [resolve()] only: the
    [lstat] of each component and the [stat] of the result, there being no
    symbolic link to read.  In both cases the world is unchanged: no file
    is read, created, modified or deleted. *)
Theorem rejected_paths_touch_no_file self file_path w :
  bad_extension file_path ∨ escapes self w file_path →
  ∃ e probes,
    forallb is_probe probes = true
    ∧ (bad_extension file_path → probes = [])
    ∧ read_file self file_path w = (add_trace w probes, inl (ValueError e))
    ∧ (∀ content ts rnd,
         write_file self file_path content ts rnd w
         = (add_trace w probes, inl (ValueError e)))
    ∧ delete_file self file_path w = (add_trace w probes, inl (ValueError e)).
Proof.
  intros H. destruct (validate_rejects self file_path w H) as (e & probes & Hp & Hb & E).
  exists e, probes. repeat split; try done.
  - unfold read_file. by apply bind_raise.
  - intros. unfold write_file. by apply bind_raise.
  - unfold delete_file. by apply bind_raise.
Qed.

Lemma rejected_paths_touch_no_file_witness :
  escapes fm0 w0 (py "../x.txt")
  ∧ ∃ e probes,
      forallb is_probe probes = true
      ∧ (bad_extension (py "../x.txt") → probes = [])
      ∧ read_file fm0 (py "../x.txt") w0 = (add_trace w0 probes, inl (ValueError e))
      ∧ (∀ content ts rnd,
           write_file fm0 (py "../x.txt") content ts rnd w0
           = (add_trace w0 probes, inl (ValueError e)))
      ∧ delete_file fm0 (py "../x.txt") w0 = (add_trace w0 probes, inl (ValueError e)).
Proof.
  split; [reflexivity|].
  apply (rejected_paths_touch_no_file fm0 (py "../x.txt") w0).
  right. reflexivity.
Defined.

(** C6 (as stated) fails: the traversal path [../x.txt] is rejected, but
    only after [resolve()] has probed the file system. *)
Lemma traversal_is_probed_before_rejection :
  escapes fm0 w0 (py "../x.txt")
  ∧ snd (read_file fm0 (py "../x.txt") w0)
    = inl (ValueError (OutsideDataDir (py "../x.txt")))
  ∧ trace (fst (read_file fm0 (py "../x.txt") w0))
    = [EvLstat (Path true [py "app"]);
       EvLstat (Path true [py "app"; py "data"]);
       EvLstat (Path true [py "app"; py "x.txt"]);
       EvStat (Path true [py "app"; py "x.txt"]);
       EvLstat (Path true [py "app"]);
       EvLstat (Path true [py "app"; py "data"]);
       EvStat (Path true [py "app"; py "data"])]
  ∧ trace (fst (read_file fm0 (py "../x.txt") w0)) ≠ trace w0.
Proof. repeat split; try reflexivity. vm_compute. discriminate. Qed.

(** C10: the extension test ignores letter case.  A path whose suffix is
    one of [.txt], [.json], [.jsonl] up to case is never refused for its
    extension, and is accepted whenever it resolves inside the data root. *)
Theorem extension_match_ignores_case self file_path ext w :
  ext ∈ allowed_extensions →
  same_up_to_case (suffix (parse file_path)) ext →
  (∀ e, snd (_validate_file_path self file_path w)
        ≠ inl (ValueError (ExtensionNotAllowed e)))
  ∧ (contained self w file_path →
     ∃ probes, forallb is_probe probes = true ∧
       _validate_file_path self file_path w
       = (add_trace w probes, inr (resolved w (target self file_path)))).
Proof.
  intros Hext Hcase.
  assert (Hb : ¬ bad_extension file_path).
  { unfold bad_extension, same_up_to_case in *. rewrite Hcase. intros Hn. apply Hn.
    unfold allowed_extensions in *.
    repeat (apply elem_of_cons in Hext as [->|Hext]; [vm_compute; set_solver|]).
    by apply elem_of_nil in Hext. }
  split.
  - intros e. destruct (validate_allowed self file_path w Hb)
      as (probes & _ & [E|[[_ E]|[_ E]]]); by rewrite E.
  - intros Hc. by apply validate_contained.
Qed.

Lemma extension_match_ignores_case_witness :
  (∀ e, snd (_validate_file_path fm0 (py "b.Json") w0)
        ≠ inl (ValueError (ExtensionNotAllowed e)))
  ∧ ∃ probes, forallb is_probe probes = true ∧
      _validate_file_path fm0 (py "b.Json") w0
      = (add_trace w0 probes, inr (resolved w0 (target fm0 (py "b.Json")))).
Proof.
  destruct (extension_match_ignores_case fm0 (py "b.Json") (py ".json") w0) as [H1 H2].
  - vm_compute. apply list_elem_of_further, list_elem_of_here.
  - reflexivity.
  - split; [exact H1|]. apply H2.
    repeat split; try reflexivity; vm_compute; repeat constructor;
      repeat (apply not_elem_of_cons; split; [done|]); apply not_elem_of_nil.
Defined.

(** ** Frames of the primitive operations *)

#[local] Instance only_dirs_preorder : PreOrder only_dirs.
Proof.
  split.
  - intros w. by repeat split.
  - intros a b c (F1 & H1 & C1 & D1) (F2 & H2 & C2 & D2).
    repeat split; [congruence..|by etrans].
Qed.

Lemma only_dirs_add_trace w evs : only_dirs w (add_trace w evs).
Proof. by repeat split. Qed.

Lemma mkdir_one_frame p w :
  only_dirs w (fst (mkdir_one p w))
  ∧ (snd (mkdir_one p w) = inr tt ∨ snd (mkdir_one p w) = inl OSError).
Proof.
  unfold mkdir_one, bind, get, ret, raise, log, set_dirs. simpl.
  destruct (is_dir_in w p); simpl; [split; [reflexivity|by left]|].
  unfold is_file_in. simpl.
  case_bool_decide; simpl; [split; [reflexivity|by right]|].
  split; [|by left]. repeat split; simpl; set_solver.
Qed.

Lemma for_each_frame {A} (f : A → io unit) (R : relation world) `{!PreOrder R}
    (P : exn → Prop) l :
  (∀ x w, R w (fst (f x w)) ∧ ∀ e, snd (f x w) = inl e → P e) →
  ∀ w, R w (fst (for_each f l w)) ∧ ∀ e, snd (for_each f l w) = inl e → P e.
Proof.
  intros Hf. induction l as [|x l IH]; intros w; simpl.
  - split; [reflexivity|]. unfold ret. simpl. congruence.
  - unfold bind. destruct (Hf x w) as [H1 H2].
    destruct (f x w) as [w1 [e|[]]]; simpl in *.
    + split; [done|]. intros e' [= <-]. by apply H2.
    + destruct (IH w1) as [H3 H4]. split; [by etrans|done].
Qed.

Lemma mkdir_parents_frame p w :
  only_dirs w (fst (mkdir_parents p w))
  ∧ ∀ e, snd (mkdir_parents p w) = inl e → e = OSError.
Proof.
  unfold mkdir_parents. apply (for_each_frame _ only_dirs (fun e => e = OSError)).
  intros q w'. destruct (mkdir_one_frame (Path (is_absolute p) q) w') as [H1 [H2|H2]];
    (split; [done|]); rewrite H2; congruence.
Qed.

Lemma resolve_frame p w :
  only_dirs w (fst (resolve p w))
  ∧ ∀ e, snd (resolve p w) = inl e → e = ValueError EmbeddedNullByte.
Proof.
  destruct (resolve_cases p w) as (probes & _ & [E|E]); rewrite E; simpl;
    (split; [apply only_dirs_add_trace|congruence]).
Qed.

Lemma lock_path_differs full_path : lock_path_of full_path ≠ full_path.
Proof.
  intros E. apply (f_equal name) in E. unfold lock_path_of, child in E.
  unfold name at 1 in E. simpl in E. rewrite last_last in E.
  apply (f_equal length) in E. rewrite length_app in E. simpl in E. lia.
Qed.

(** Entering the lock while another writer holds it: the entry raises, and
    the only file that can have changed is a lock file that was missing
    and is now there, empty. *)
Lemma lock_enter_held p w :
  p ∈ held w →
  ∃ e w', lock_enter p w = (w', inl e)
    ∧ (e = LockException ∨ e = OSError)
    ∧ dirs w' = dirs w
    ∧ (files w' = files w ∨ (files w !! p = None ∧ files w' = <[p := []]> (files w))).
Proof.
  intros Hh. unfold lock_enter, bind, get, ret, raise, log, set_files. simpl.
  destruct (is_dir_in _ p || negb (is_dir_in _ (parent p))) eqn:E; simpl.
  - eexists _, _. split; [reflexivity|]. split; [by right|]. split; [done|by left].
  - unfold is_file_in. simpl. case_bool_decide as Hf; simpl;
      rewrite bool_decide_eq_true_2 by done.
    + eexists _, _. split; [reflexivity|]. split; [by left|]. split; [done|by left].
    + eexists _, _. split; [reflexivity|]. split; [by left|]. split; [done|right].
      split; [|done]. by apply eq_None_not_Some.
Qed.

(** ** Failures of [write_file] before the write *)

(** C7 (as amended): when the content has no UTF-8 form, or the lock of the
    target is held by another writer for the whole wait, [write_file]
    raises and the target keeps its previous content.  Directories may
    have been created on the way (the parent of the target before the
    encoding check, the backup directory before the lock), and a lock file
    that was missing has been created, empty; no other file is created,
    changed or deleted. *)
Theorem write_fails_with_target_unchanged self file_path content ts rnd w w1 full_path :
  _validate_file_path self file_path w = (w1, inr full_path) →
  Codec.encode content = None ∨ lock_path_of full_path ∈ held w →
  ∃ e w',
    write_file self file_path content ts rnd w = (w', inl e)
    ∧ files w' !! full_path = files w !! full_path
    ∧ (∀ p, p ≠ lock_path_of full_path → files w' !! p = files w !! p)
    ∧ (is_Some (files w !! lock_path_of full_path) → files w' = files w)
    ∧ dirs w ⊆ dirs w'
    ∧ (Codec.encode content = None →
       files w' = files w ∧ (e = ValueError NotValidUtf8 ∨ e = OSError)).
Proof.
  intros Hv Hc.
  assert (Hw1 : only_dirs w w1).
  { destruct (decide (bad_extension file_path)) as [Hb|Hb].
    - rewrite validate_bad_extension in Hv by done. congruence.
    - destruct (validate_allowed self file_path w Hb)
        as (probes & _ & [E|[[_ E]|[_ E]]]); rewrite E in Hv; inversion Hv; subst.
      apply only_dirs_add_trace. }
  assert (HQ : ∀ e w', only_dirs w w' →
            (Codec.encode content = None → e = ValueError NotValidUtf8 ∨ e = OSError) →
            files w' !! full_path = files w !! full_path
            ∧ (∀ p, p ≠ lock_path_of full_path → files w' !! p = files w !! p)
            ∧ (is_Some (files w !! lock_path_of full_path) → files w' = files w)
            ∧ dirs w ⊆ dirs w'
            ∧ (Codec.encode content = None →
               files w' = files w ∧ (e = ValueError NotValidUtf8 ∨ e = OSError))).
  { intros e w' (F & _ & _ & D) He. rewrite F. by repeat split; auto. }
  unfold write_file. rewrite (bind_ret _ _ _ _ _ Hv).
  destruct (mkdir_parents_frame (parent full_path) w1) as [Hm He].
  unfold bind at 1.
  destruct (mkdir_parents (parent full_path) w1) as [w2 [e|[]]] eqn:Em; simpl in *.
  { exists e, w2. split; [done|]. apply HQ; [by etrans|]. intros _. right. by apply He. }
  assert (Hw2 : only_dirs w w2) by (by etrans).
  destruct (Codec.encode content) as [data|] eqn:Eenc.
  2:{ exists (ValueError NotValidUtf8), w2. split; [done|]. apply HQ; [done|by left]. }
  destruct Hc as [Hc|Hc]; [done|].
  unfold bind at 1, ret at 1.
  destruct (is_relative_to full_path (data_dir self)) eqn:Erel.
  2:{ eexists _, w2. split; [reflexivity|]. by apply HQ. }
  unfold bind at 1, ret at 1.
  set (bp := joinpath (backup_dir self) (parent (relative_to full_path (data_dir self)))).
  destruct (resolve_frame bp w2) as [Hr _].
  unfold bind at 1.
  destruct (resolve bp w2) as [w3 [e|bdir]] eqn:Er; simpl in *.
  { eexists _, w3. split; [reflexivity|]. apply HQ; [by etrans|done]. }
  destruct (mkdir_parents_frame bdir w3) as [Hm4 _].
  unfold bind at 1.
  destruct (mkdir_parents bdir w3) as [w4 [e|[]]] eqn:Em4; simpl in *.
  { eexists _, w4. split; [reflexivity|]. apply HQ; [|done]. etrans; [|done]. by etrans. }
  assert (Hw4 : only_dirs w w4) by (etrans; [|done]; by etrans).
  destruct Hw4 as (F4 & H4 & _ & D4).
  assert (Hh : lock_path_of full_path ∈ held w4) by (by rewrite H4).
  destruct (lock_enter_held _ _ Hh) as (e & w5 & El & _ & D5 & F5).
  unfold _write_locked. rewrite (bind_raise _ _ _ _ _ (bind_raise _ _ _ _ _ El)).
  exists e, w5. split; [done|]. rewrite F4 in F5.
  destruct F5 as [F5|[Hnone F5]]; rewrite F5.
  - repeat split; try done. by rewrite D5.
  - split; [by rewrite lookup_insert_ne by apply lock_path_differs|].
    split; [intros p Hp; by rewrite lookup_insert_ne|].
    split; [intros [? Hs]; congruence|].
    split; [by rewrite D5|done].
Qed.

Lemma write_fails_with_target_unchanged_witness :
  lock_path_of (Path true [py "app"; py "data"; py "notes"; py "a.txt"]) ∈ held w_locked
  ∧ ∃ e w',
      write_file fm0 (py "notes/a.txt") (py "new") (ts_of 1) (rnd_of 1) w_locked
      = (w', inl e)
      ∧ files w' !! Path true [py "app"; py "data"; py "notes"; py "a.txt"]
        = files w_locked !! Path true [py "app"; py "data"; py "notes"; py "a.txt"]
      ∧ (∀ p, p ≠ lock_path_of (Path true [py "app"; py "data"; py "notes"; py "a.txt"]) →
              files w' !! p = files w_locked !! p)
      ∧ (is_Some (files w_locked
                    !! lock_path_of (Path true [py "app"; py "data"; py "notes"; py "a.txt"])) →
         files w' = files w_locked)
      ∧ dirs w_locked ⊆ dirs w'
      ∧ (Codec.encode (py "new") = None →
         files w' = files w_locked ∧ (e = ValueError NotValidUtf8 ∨ e = OSError)).
Proof.
  assert (H : lock_path_of (Path true [py "app"; py "data"; py "notes"; py "a.txt"])
              ∈ held w_locked) by (vm_compute; set_solver).
  split; [exact H|].
  apply (write_fails_with_target_unchanged fm0 (py "notes/a.txt") (py "new")
           (ts_of 1) (rnd_of 1) w_locked
           (fst (_validate_file_path fm0 (py "notes/a.txt") w_locked))
           (Path true [py "app"; py "data"; py "notes"; py "a.txt"])).
  - reflexivity.
  - right. exact H.
Defined.

(** C7 (as stated) fails: content that cannot be encoded makes [write_file]
    raise, but by then the missing parent directory of the target has been
    created. *)
Lemma encoding_failure_after_mkdir :
  let r := write_file fm0 (py "newdir/a.txt") lone_surrogate (ts_of 1) (rnd_of 1) w0 in
  snd r = inl (ValueError NotValidUtf8)
  ∧ is_dir_in w0 (Path true [py "app"; py "data"; py "newdir"]) = false
  ∧ is_dir_in (fst r) (Path true [py "app"; py "data"; py "newdir"]) = true
  ∧ dirs (fst r) ≠ dirs w0.
Proof.
  repeat split; try (vm_compute; reflexivity).
  intros E. apply (f_equal (fun d => bool_decide (Path true [py "app"; py "data"; py "newdir"] ∈ d))) in E.
  vm_compute in E. discriminate.
Qed.

(** ** The relay: answers and the last-completion slot *)

Lemma respond_status u : status_of (respond (Some u)) = status_code u.
Proof. unfold respond. simpl. by destruct (json u). Qed.

Lemma record_last_slot r u now st :
  (slot_ok st → slot_ok (record_last r u now st))
  ∧ ((400 ≤ status_code u)%Z →
     last_chat_completion_entry (record_last r u now st) = last_chat_completion_entry st).
Proof.
  unfold record_last. destruct (status_code u <? 400)%Z eqn:E; split; try done.
  - intros _. unfold slot_ok. simpl. lia.
  - lia.
Qed.

Lemma publish_last k u st :
  last_chat_completion_entry (publish k u st) = last_chat_completion_entry st.
Proof. unfold publish. simpl. by destruct (chat_pending_map st !! k). Qed.

Lemma in_flight_same k st : same_shared st (fst (in_flight k st)).
Proof. by repeat split. Qed.

Lemma chat_begin_last mm r now st :
  last_chat_completion_entry (fst (chat_begin mm r now st)) = last_chat_completion_entry st.
Proof.
  unfold chat_begin. destruct mm; [done|]. simpl.
  destruct (chat_pending_map st !! key_of r) as [h|]; simpl; [|done].
  by destruct (is_set _ _).
Qed.

Lemma cleanup_last k created st :
  last_chat_completion_entry (_cleanup_pending_later k created st)
  = last_chat_completion_entry st.
Proof.
  unfold _cleanup_pending_later. simpl.
  destruct (chat_pending_map st !! k); [|done]. simpl.
  by destruct (_ && _).
Qed.

Lemma last_begin_last r why st :
  last_chat_completion_entry (fst (last_begin r why st)) = last_chat_completion_entry st.
Proof.
  unfold last_begin.
  destruct (last_chat_completion_entry st) as [e|] eqn:E; [destruct (same _ _)|];
    simpl; try done;
    destruct (chat_pending_map st !! key_of r) as [h|]; simpl; try done;
    by destruct (is_set _ _).
Qed.

(** The leader keeps the slot in order; it leaves the slot as it was when
    the upstream call failed or returned a status of 400 or more. *)
Lemma leader_done_slot r o now why st :
  (slot_ok st → slot_ok (fst (chat_leader_done r o now why st)))
  ∧ ((∀ u, o = Returned u → (400 ≤ status_code u)%Z) →
     last_chat_completion_entry (fst (chat_leader_done r o now why st))
     = last_chat_completion_entry st).
Proof.
  destruct o as [u|e|e]; simpl.
  - destruct (record_last_slot r u now (publish (key_of r) u st)) as [H1 H2].
    assert (slot_ok st → slot_ok (record_last r u now (publish (key_of r) u st))) as Hk.
    { intros H. apply H1. unfold slot_ok in *. by rewrite publish_last. }
    destruct (renders _); cbn [fst]; (split; [|intros H; specialize (H u eq_refl)]).
    + done.
    + by rewrite H2, publish_last.
    + intros H. unfold slot_ok. rewrite publish_last. by apply Hk.
    + by rewrite publish_last, H2, publish_last.
  - split; [unfold slot_ok; by rewrite publish_last|intros _; apply publish_last].
  - split; [unfold slot_ok; by rewrite publish_last|intros _; apply publish_last].
Qed.

Lemma follower_wake_slot r now why st :
  (slot_ok st → slot_ok (fst (chat_follower_wake r now why st)))
  ∧ ((∀ u, chat_pending_map st !! key_of r ≫= result = Some u → (400 ≤ status_code u)%Z) →
     last_chat_completion_entry (fst (chat_follower_wake r now why st))
     = last_chat_completion_entry st).
Proof.
  unfold chat_follower_wake.
  destruct (chat_pending_map st !! key_of r ≫= result) as [u|]; simpl; [|done].
  destruct (record_last_slot r u now st) as [H1 H2]. split; [done|].
  intros H. by apply H2, H.
Qed.

(** A finished task stays finished with its answer. *)
Lemma step_keeps_done c c' i a :
  step c c' → tasks c !! i = Some (Done a) → tasks c' !! i = Some (Done a).
Proof.
  intros Hs Hi. inversion Hs; subst; simpl in *; try done;
    try (by apply lookup_app_l_Some);
    (rewrite list_lookup_insert_ne; [done|]; intros ->; by simplify_eq).
Qed.

Lemma steps_keep_done c c' i a :
  rtc step c c' → tasks c !! i = Some (Done a) → tasks c' !! i = Some (Done a).
Proof. induction 1; [done|]. eauto using step_keeps_done. Qed.

(** Every record ever stored in the slot has a status below 400. *)
Lemma slot_ok_step c c' : step c c' → slot_ok (shared c) → slot_ok (shared c').
Proof.
  intros Hs. inversion Hs; subst; simpl; try done.
  - unfold slot_ok. by rewrite chat_begin_last.
  - apply leader_done_slot.
  - apply follower_wake_slot.
  - unfold slot_ok. by rewrite cleanup_last.
  - unfold slot_ok. by rewrite last_begin_last.
Qed.

Lemma slot_ok_reachable c : rtc step (Config initial []) c → slot_ok (shared c).
Proof.
  intros H. assert (H0 : slot_ok (shared (Config initial []))) by done.
  revert H0. induction H; eauto using slot_ok_step.
Qed.

(** C5, at an upstream response that cannot be sent on.  Upstream answers
    200 with a JSON body that holds a lone surrogate (as [json.loads] reads
    an escaped one).  The leader stores the record in the slot, its status
    being below 400, and then fails to build its own response: the handler
    of [Exception] answers 500.  The exchange has failed and the slot has
    changed; a lookup for the same request finds the record and cannot
    send it either. *)
Theorem slot_written_by_failed_exchange why :
  let st0 := fst (chat_begin false rq0 (ts_of 1) initial) in
  let done := chat_leader_done rq0 (Returned unsendable) (ts_of 2) why st0 in
  step (Config st0 [Leading rq0]) (Config (fst done) [Done (snd done)])
  ∧ snd done = HTTPException 500 (py "AI API request failed: " ++ why)
  ∧ last_chat_completion_entry st0 = None
  ∧ last_chat_completion_entry (fst done) = Some (Entry rq0 unsendable (ts_of 2))
  ∧ status_code unsendable = 200%Z
  ∧ snd (last_begin rq0 why (fst done))
    = Answer (HTTPException 500 (py "Failed to get last chat completion: " ++ why)).
Proof.
  intros st0 done.
  split; [apply (step_leader_done st0 [Leading rq0] 0 rq0 (Returned unsendable)
                   (ts_of 2) why); reflexivity|].
  repeat split.
Qed.

(** ** The follower's timeout *)

(** C9: a follower whose wait elapses while the event is still unset
    answers 504.  That status is neither of the statuses of a failed
    upstream call (502, 500), for the leader and for the followers served
    from its error snapshot alike; the timeout leaves the shared state as it
    is, and nothing that happens later, whatever the leader obtains,
    changes the follower's answer. *)
Theorem follower_timeout_answers_504 c i r ev :
  tasks c !! i = Some (Following r ev) →
  is_set (shared c) ev = false →
  let c' := Config (shared c) (<[i := Done chat_follower_timeout]> (tasks c)) in
  step c c'
  ∧ status_of chat_follower_timeout = 504%Z
  ∧ (∀ r' e now why st,
       status_of (snd (chat_leader_done r' (HTTPError e) now why st)) = 502%Z
       ∧ status_of (snd (chat_leader_done r' (OtherError e) now why st)) = 500%Z)
  ∧ (∀ code msg, status_of (respond (Some (error_snapshot code msg))) = code)
  ∧ (∀ c'', rtc step c' c'' → tasks c'' !! i = Some (Done chat_follower_timeout)).
Proof.
  intros Hi He c'. destruct c as [st ts]. simpl in *.
  split; [by eapply step_follower_timeout|].
  split; [done|]. split; [done|]. split; [done|].
  intros c'' Hr. eapply steps_keep_done; [done|]. subst c'. simpl.
  apply list_lookup_insert_eq. by eapply lookup_lt_Some.
Qed.

Lemma follower_timeout_answers_504_witness :
  let c' := Config (shared c_waiting) (<[1%nat := Done chat_follower_timeout]> (tasks c_waiting)) in
  tasks c_waiting !! 1%nat = Some (Following rq0 0)
  ∧ is_set (shared c_waiting) 0 = false
  ∧ step c_waiting c'
  ∧ status_of chat_follower_timeout = 504%Z
  ∧ (∀ r' e now why st,
       status_of (snd (chat_leader_done r' (HTTPError e) now why st)) = 502%Z
       ∧ status_of (snd (chat_leader_done r' (OtherError e) now why st)) = 500%Z)
  ∧ (∀ code msg, status_of (respond (Some (error_snapshot code msg))) = code)
  ∧ (∀ c'', rtc step c' c'' → tasks c'' !! 1%nat = Some (Done chat_follower_timeout)).
Proof.
  split; [reflexivity|]. split; [reflexivity|].
  apply (follower_timeout_answers_504 c_waiting 1 rq0 0); reflexivity.
Defined.

(** ** [json.dumps] is injective *)

Section JsonDumps.

Import Json.

Lemma value_ind' (P : value → Prop) :
  P Null → (∀ b, P (Bool b)) → (∀ z, P (Int z)) → (∀ r, P (Float r)) →
  (∀ s, P (Str s)) →
  (∀ l, Forall P l → P (Arr l)) →
  (∀ d, Forall (fun kv => P (snd kv)) d → P (Obj d)) →
  ∀ v, P v.
Proof.
  intros Hn Hb Hi Hf Hs Ha Ho.
  fix IH 1. intros [| b | z | r | s | l | d].
  - exact Hn.
  - apply Hb.
  - apply Hi.
  - apply Hf.
  - apply Hs.
  - apply Ha. induction l as [|v l IHl]; constructor; [apply IH|exact IHl].
  - apply Ho. induction d as [|[k v] d IHd]; constructor; [apply IH|exact IHd].
Qed.

Lemma unescape_escape c r : unescape_head (escape_char c ++ r) = Some (c, r).
Proof.
  unfold escape_char.
  destruct (c =? QUOTE) eqn:E1; [apply N.eqb_eq in E1; by subst|].
  destruct (c =? BACKSLASH) eqn:E2; [apply N.eqb_eq in E2; by subst|].
  destruct (c =? 10) eqn:E3; [apply N.eqb_eq in E3; by subst|].
  destruct (c =? 13) eqn:E4; [apply N.eqb_eq in E4; by subst|].
  destruct (c =? 9) eqn:E5; [apply N.eqb_eq in E5; by subst|].
  destruct (c =? 8) eqn:E6; [apply N.eqb_eq in E6; by subst|].
  destruct (c =? 12) eqn:E7; [apply N.eqb_eq in E7; by subst|].
  destruct (c <? 32) eqn:E8.
  - apply N.ltb_lt in E8.
    assert (c ∈ (N.of_nat <$> seq 0 32)) as Hc.
    { apply list_elem_of_fmap. exists (N.to_nat c). split; [lia|].
      apply list_elem_of_In, in_seq. lia. }
    vm_compute in Hc.
    repeat (apply elem_of_cons in Hc as [->|Hc]; [by vm_compute|]).
    by apply elem_of_nil in Hc.
  - simpl. by rewrite E1, E2.
Qed.

(** The escaped form of a string, with its closing quote, is read back in
    one way only. *)
Lemma escaped_inj s : ∀ s' r r',
  concat (map escape_char s) ++ QUOTE :: r = concat (map escape_char s') ++ QUOTE :: r' →
  s = s' ∧ r = r'.
Proof.
  induction s as [|c s IH]; intros [|c' s'] r r' E; simpl in E.
  - by inversion E.
  - apply (f_equal unescape_head) in E. rewrite <- app_assoc, unescape_escape in E. done.
  - apply (f_equal unescape_head) in E. rewrite <- app_assoc, unescape_escape in E. done.
  - apply (f_equal unescape_head) in E. rewrite <- !app_assoc, !unescape_escape in E.
    inversion E as [[Ec Er]]. subst. destruct (IH _ _ _ Er) as [-> ->]. done.
Qed.

Lemma basestring_inj s s' r r' :
  encode_basestring s ++ r = encode_basestring s' ++ r' → s = s' ∧ r = r'.
Proof.
  unfold encode_basestring. simpl. rewrite <- !app_assoc. simpl. intros [= E].
  by apply escaped_inj.
Qed.

Lemma py_inj s s' : py s = py s' → s = s'.
Proof.
  unfold py. intros E.
  rewrite <- (string_of_list_ascii_of_string s), <- (string_of_list_ascii_of_string s').
  f_equal. revert E. generalize (list_ascii_of_string s) (list_ascii_of_string s').
  induction l as [|a l IH]; intros [|a' l'] E; simpl in E; try done.
  inversion E as [[Ea El]]. f_equal; [|by apply IH].
  by rewrite <- (ascii_N_embedding a), <- (ascii_N_embedding a'), Ea.
Qed.

Lemma uint_numeric d : Forall is_numeric (py (NilEmpty.string_of_uint d)).
Proof.
  induction d; simpl; try done;
    (constructor; [right; vm_compute; split; discriminate|exact IHd]).
Qed.

Lemma dumps_int_numeric z : Forall is_numeric (dumps_int z) ∧ dumps_int z ≠ [].
Proof.
  unfold dumps_int.
  assert (∀ d, Forall is_numeric (py (NilZero.string_of_uint d))
               ∧ py (NilZero.string_of_uint d) ≠ []) as Hu.
  { intros d. destruct d; simpl; split; try done;
      try (constructor; [right; vm_compute; split; discriminate|apply uint_numeric]).
    constructor; [right; vm_compute; split; discriminate|done]. }
  destruct (Z.to_int z) as [d|d]; simpl.
  - apply Hu.
  - split; [|done]. constructor; [by left|]. apply Hu.
Qed.

Lemma dumps_int_inj z z' : dumps_int z = dumps_int z' → z = z'.
Proof.
  unfold dumps_int. intros E. apply py_inj in E.
  assert (∀ z, NilZero.int_of_string (NilZero.string_of_int (Z.to_int z))
               = Some (Z.to_int z)) as H.
  { intros x. apply NilZero.isi; destruct x; simpl; try done;
      intros [= E0]; by apply DecimalPos.Unsigned.to_uint_nonnil in E0. }
  pose proof (H z) as H1. rewrite E, H in H1. inversion H1 as [E'].
  by rewrite <- (DecimalZ.of_to z), <- (DecimalZ.of_to z'), E'.
Qed.

Lemma numeric_inner c : is_numeric c → inner c.
Proof. unfold is_numeric, inner. lia. Qed.

Lemma inner_not_closing c r : inner c → closes (c :: r) → False.
Proof. unfold inner. simpl. lia. Qed.

(** A text without commas and closing brackets ends where the first of
    them stands. *)
Lemma inner_split a : ∀ a' s s',
  Forall inner a → Forall inner a' → closes s → closes s' →
  a ++ s = a' ++ s' → a = a' ∧ s = s'.
Proof.
  induction a as [|c a IH]; intros [|c' a'] s s' Ha Ha' Hs Hs' E; simpl in E.
  - done.
  - subst s. inversion Ha'; subst. by destruct (inner_not_closing c' (a' ++ s')).
  - subst s'. inversion Ha; subst. by destruct (inner_not_closing c (a ++ s)).
  - inversion E as [[Ec Er]]. subst. inversion Ha; inversion Ha'; subst.
    destruct (IH a' s s') as [-> ->]; done.
Qed.

Lemma dumps_int_inner z : Forall inner (dumps_int z).
Proof.
  eapply Forall_impl; [apply dumps_int_numeric|]. apply numeric_inner.
Qed.

(** *** The text of a float *)

Lemma float_char_cases c :
  is_float_char c = true → is_numeric c ∨ c = 43 ∨ c = 46 ∨ c = 101.
Proof.
  unfold is_float_char, is_digit, is_numeric.
  rewrite !orb_true_iff, andb_true_iff, !N.eqb_eq, !N.leb_le. lia.
Qed.

Lemma float_text_cases r :
  float_text r = true →
  (r = py "nan" ∨ r = py "inf" ∨ r = py "-inf")
  ∨ (dumps_float r = r
     ∧ (∃ c t, r = c :: t ∧ is_numeric c)
     ∧ Forall (fun c => is_float_char c = true) r
     ∧ Exists (fun c => c = 46 ∨ c = 101) r).
Proof.
  unfold float_text, special, dumps_float.
  repeat case_bool_decide; simpl; auto.
  rewrite !andb_true_iff. intros [[Ha Hb] Hc]. right.
  split; [done|]. split; [|split].
  - destruct r as [|c t]; [done|]. exists c, t. split; [done|].
    unfold is_digit, is_numeric in *.
    rewrite orb_true_iff, andb_true_iff, N.eqb_eq, !N.leb_le in Ha. lia.
  - apply Forall_forall. intros x Hx. rewrite forallb_forall in Hb.
    apply Hb. by apply list_elem_of_In.
  - apply existsb_exists in Hc as (x & Hin & Hx). apply Exists_exists.
    exists x. split; [by apply list_elem_of_In|].
    rewrite orb_true_iff, !N.eqb_eq in Hx. done.
Qed.

(** What the text of a float is made of: it ends no value, it starts as a
    number or with the N of NaN or the I of Infinity, and it is not a run
    of digits behind a sign, as the text of an integer is. *)
Lemma dumps_float_shape r :
  float_text r = true →
  Forall inner (dumps_float r)
  ∧ Forall (fun c => c ≠ QUOTE ∧ c ≠ BACKSLASH ∧ c ≠ 124) (dumps_float r)
  ∧ (∃ c t, dumps_float r = c :: t ∧ (is_numeric c ∨ c = 78 ∨ c = 73))
  ∧ ¬ Forall is_numeric (dumps_float r).
Proof.
  intros H. destruct (float_text_cases r H) as [Hs|Hr].
  1: destruct Hs as [-> | [-> | ->]].
  4: destruct Hr as (E & (c & t & Ec & Hc) & Hf & Hx).
  - change (dumps_float (py "nan")) with [78; 97; 78].
    split; [|split; [|split]].
    + repeat constructor; lia.
    + repeat constructor; unfold QUOTE, BACKSLASH; lia.
    + eexists _, _. split; [reflexivity|]. right. by left.
    + intros Hn. apply Forall_cons in Hn as [Hn _]. unfold is_numeric in Hn. lia.
  - change (dumps_float (py "inf")) with [73; 110; 102; 105; 110; 105; 116; 121].
    split; [|split; [|split]].
    + repeat constructor; lia.
    + repeat constructor; unfold QUOTE, BACKSLASH; lia.
    + eexists _, _. split; [reflexivity|]. right. by right.
    + intros Hn. apply Forall_cons in Hn as [Hn _]. unfold is_numeric in Hn. lia.
  - change (dumps_float (py "-inf")) with [45; 73; 110; 102; 105; 110; 105; 116; 121].
    split; [|split; [|split]].
    + repeat constructor; lia.
    + repeat constructor; unfold QUOTE, BACKSLASH; lia.
    + eexists _, _. split; [reflexivity|]. left. by left.
    + intros Hn. apply Forall_cons in Hn as [_ Hn].
      apply Forall_cons in Hn as [Hn _]. unfold is_numeric in Hn. lia.
  - rewrite E. split; [|split; [|split]].
    + eapply Forall_impl; [exact Hf|]. intros x Hx'.
      apply float_char_cases in Hx'. unfold inner, is_numeric in *. lia.
    + eapply Forall_impl; [exact Hf|]. intros x Hx'.
      apply float_char_cases in Hx'. unfold QUOTE, BACKSLASH, is_numeric in *. lia.
    + exists c, t. split; [done|]. by left.
    + intros Hn. apply Exists_exists in Hx as (x & Hin & Hx).
      rewrite Forall_forall in Hn. specialize (Hn x Hin). unfold is_numeric in Hn. lia.
Qed.

Lemma dumps_float_inj r r' :
  float_text r = true → float_text r' = true →
  dumps_float r = dumps_float r' → r = r'.
Proof.
  intros H H'.
  destruct (float_text_cases r H) as [Hs|[E [_ [Hf _]]]],
           (float_text_cases r' H') as [Hs'|[E' [_ [Hf' _]]]].
  - destruct Hs as [-> | [-> | ->]], Hs' as [-> | [-> | ->]]; by vm_compute.
  - rewrite E'. intros <-.
    destruct Hs as [-> | [-> | ->]]; vm_compute in Hf';
      repeat (apply Forall_cons in Hf' as [? Hf']); done.
  - rewrite E. intros ->.
    destruct Hs' as [-> | [-> | ->]]; vm_compute in Hf;
      repeat (apply Forall_cons in Hf as [? Hf]); done.
  - by rewrite E, E'.
Qed.

(** Every text starts with a character that tells the kind of the value
    and closes nothing. *)
Lemma dumps_opens v : floats_ok v = true → ∃ c r, dumps v = c :: r ∧ opens v c.
Proof.
  destruct v as [| [|] | z | t | s | l | d]; simpl; eauto.
  - intros _. destruct (dumps_int_numeric z) as [Hn He].
    destruct (dumps_int z) as [|c r]; [done|]. inversion Hn; subst. eauto.
  - intros H. destruct (dumps_float_shape t H) as (_ & _ & (c & r & E & Hc) & _). eauto.
Qed.

Lemma opens_not_closing v c r : opens v c → closes (c :: r) → False.
Proof.
  destruct v as [| [|] | z | t | s | l | d]; simpl; unfold is_numeric, QUOTE; lia.
Qed.

Lemma opens_same_kind v v' c :
  opens v c → opens v' c →
  match v, v' with
  | Null, Null | Str _, Str _ | Arr _, Arr _ | Obj _, Obj _ => True
  | (Int _ | Float _), (Int _ | Float _) => True
  | Bool b, Bool b' => b = b'
  | _, _ => False
  end.
Proof.
  destruct v as [| [|] | z | t | s | l | d], v' as [| [|] | z' | t' | s' | l' | d'];
    simpl; unfold is_numeric, QUOTE; try done; lia.
Qed.

Lemma join_cons t ts : join [44] (t :: ts) = t ++ concat (map (cons 44) ts).
Proof.
  revert t. induction ts as [|u ts IH]; intros t.
  - simpl. by rewrite app_nil_r.
  - change (join [44] (t :: u :: ts)) with (t ++ [44] ++ join [44] (u :: ts)).
    by rewrite IH.
Qed.

Lemma tail_eq {A} (x y : A) a b : x :: a = y :: b → a = b.
Proof. by intros [= _ ->]. Qed.

Lemma same_kind v v' s s' :
  floats_ok v = true → floats_ok v' = true →
  dumps v ++ s = dumps v' ++ s' →
  match v, v' with
  | Null, Null | Str _, Str _ | Arr _, Arr _ | Obj _, Obj _ => True
  | (Int _ | Float _), (Int _ | Float _) => True
  | Bool b, Bool b' => b = b'
  | _, _ => False
  end.
Proof.
  intros H H'.
  destruct (dumps_opens v H) as (c & r & E & Ho), (dumps_opens v' H') as (c' & r' & E' & Ho').
  rewrite E, E'. intros [= -> _]. by eapply opens_same_kind.
Qed.

Lemma closes_tail (ts : list (list N)) (close : N) s :
  close = 93 ∨ close = 125 →
  closes (concat (map (cons 44) ts) ++ close :: s).
Proof. intros H. destruct ts; simpl; [|by left]. destruct H; subst; auto. Qed.

Lemma arr_tail_inj l :
  Forall sound l → ∀ l' s s', forallb floats_ok l' = true → closes s → closes s' →
  concat (map (cons 44) (map dumps l)) ++ 93 :: s
  = concat (map (cons 44) (map dumps l')) ++ 93 :: s' →
  Forall2 alike l l' ∧ s = s'.
Proof.
  induction 1 as [|v l Hv Hl IH]; intros [|v' l'] s s' Hok Hs Hs' E;
    cbn [map concat app] in E.
  - inversion E. by split.
  - done.
  - done.
  - apply tail_eq in E. rewrite <- !app_assoc in E. rename E into E1.
    cbn [forallb] in Hok. apply andb_true_iff in Hok as [Hok1 Hok2].
    apply Hv in E1 as [Hvv E1]; [|done| by apply closes_tail; left..].
    apply IH in E1 as [Hll ->]; [|done..]. split; [by constructor|done].
Qed.

Lemma item_inj k v k' v' r r' :
  sound v → floats_ok v' = true → closes r → closes r' →
  item_text (k, v) ++ r = item_text (k', v') ++ r' →
  k = k' ∧ alike v v' ∧ r = r'.
Proof.
  intros Hv Hok Hr Hr' E. unfold item_text in E. cbn [fst snd] in E.
  rewrite <- !app_assoc in E.
  apply basestring_inj in E as [-> E]. apply tail_eq in E.
  apply Hv in E as [? ?]; done.
Qed.

Lemma obj_tail_inj ds :
  Forall (fun kv => sound (snd kv)) ds → ∀ ds' s s',
  forallb (fun kv => floats_ok (snd kv)) ds' = true → closes s → closes s' →
  concat (map (cons 44) (map item_text ds)) ++ 125 :: s
  = concat (map (cons 44) (map item_text ds')) ++ 125 :: s' →
  Forall2 (fun a b => fst a = fst b ∧ alike (snd a) (snd b)) ds ds' ∧ s = s'.
Proof.
  induction 1 as [|[k v] ds Hv Hl IH]; intros [|[k' v'] ds'] s s' Hok Hs Hs' E;
    cbn [map concat app] in E.
  - inversion E. by split.
  - done.
  - done.
  - apply tail_eq in E. rewrite <- !app_assoc in E. rename E into E1.
    cbn [forallb snd] in Hok. apply andb_true_iff in Hok as [Hok1 Hok2].
    apply item_inj in E1 as (-> & Hvv & E1);
      [|done|done| by apply closes_tail; right..].
    apply IH in E1 as [Hll ->]; [|done..]. split; [by constructor|done].
Qed.

Lemma dumps_arr l : dumps (Arr l) = 91 :: join [44] (map dumps l) ++ [93].
Proof. done. Qed.

(** The items of an object as [dumps] prints them: some arrangement of the
    items, each as its key and the text of its value. *)
Lemma dumps_obj d :
  ∃ ds, d ≡ₚ ds ∧ dumps (Obj d) = 123 :: join [44] (map item_text ds) ++ [125].
Proof.
  pose proof (merge_sort_Permutation item_le
                (map (fun kv => (fst kv, dumps (snd kv))) d)) as Hp.
  apply Permutation_map_inv in Hp as (ds & E & Hp).
  exists ds. split; [done|].
  change (dumps (Obj d))
    with (123 :: join [44]
            (map (fun kv => encode_basestring (fst kv) ++ 58 :: snd kv)
               (merge_sort item_le (map (fun kv => (fst kv, dumps (snd kv))) d)))
          ++ [125]).
  by rewrite E, map_map.
Qed.

Lemma forallb_Forall_ok {A} (f : A → bool) (P : A → Prop) l :
  forallb f l = true → Forall (fun x => f x = true → P x) l → Forall P l.
Proof.
  intros Hf Hl. induction Hl as [|x l Hx Hl IH]; [done|].
  cbn [forallb] in Hf. apply andb_true_iff in Hf as [H1 H2]. constructor; auto.
Qed.

Lemma forallb_Permutation {A} (f : A → bool) l l' :
  l ≡ₚ l' → forallb f l = true → forallb f l' = true.
Proof.
  intros Hp. rewrite !forallb_forall. intros H x Hx. apply H.
  apply list_elem_of_In. rewrite Hp. by apply list_elem_of_In.
Qed.

Lemma dumps_sound : ∀ v, floats_ok v = true → sound v.
Proof.
  induction v as [| b | z | t | u | l IHl | d IHd] using value_ind';
    intros Hok v' s s' Hok' Hs Hs' E;
    pose proof (same_kind _ _ _ _ Hok Hok' E) as K;
    destruct v' as [| b' | z' | t' | u' | l' | d']; try done.
  - apply app_inv_head in E. split; [constructor|done].
  - subst b'. apply app_inv_head in E. split; [constructor|done].
  - change (dumps_int z ++ s = dumps_int z' ++ s') in E.
    apply inner_split in E as [E ->]; try done; try apply dumps_int_inner.
    apply dumps_int_inj in E as ->. split; [constructor|done].
  - change (dumps_int z ++ s = dumps_float t' ++ s') in E. cbn [floats_ok] in Hok'.
    destruct (dumps_float_shape t' Hok') as (Hi & _ & _ & Hn).
    apply inner_split in E as [E ->]; try done; try apply dumps_int_inner.
    destruct Hn. rewrite <- E. apply dumps_int_numeric.
  - change (dumps_float t ++ s = dumps_int z' ++ s') in E. cbn [floats_ok] in Hok.
    destruct (dumps_float_shape t Hok) as (Hi & _ & _ & Hn).
    apply inner_split in E as [E ->]; try done; try apply dumps_int_inner.
    destruct Hn. rewrite E. apply dumps_int_numeric.
  - change (dumps_float t ++ s = dumps_float t' ++ s') in E.
    cbn [floats_ok] in Hok, Hok'.
    destruct (dumps_float_shape t Hok) as (Hi & _), (dumps_float_shape t' Hok') as (Hi' & _).
    apply inner_split in E as [E ->]; try done.
    apply dumps_float_inj in E as ->; try done. split; [constructor|done].
  - change (encode_basestring u ++ s = encode_basestring u' ++ s') in E.
    apply basestring_inj in E as [-> ->]. split; [constructor|done].
  - rewrite !dumps_arr in E. cbn [app] in E. apply tail_eq in E.
    rewrite <- !app_assoc in E. cbn [app] in E. rename E into E1. clear K.
    cbn [floats_ok] in Hok, Hok'.
    pose proof (forallb_Forall_ok _ _ _ Hok IHl) as Hsl.
    destruct l as [|v l], l' as [|v' l'].
    + cbn [map join app] in E1. inversion E1. split; [by repeat constructor|done].
    + cbn [map] in E1. rewrite join_cons in E1. cbn [join app] in E1.
      cbn [forallb] in Hok'. apply andb_true_iff in Hok' as [Hv' _].
      destruct (dumps_opens v' Hv') as (c & r & Ec & Ho). rewrite Ec in E1.
      cbn [app] in E1. assert (c = 93) as -> by congruence.
      destruct (opens_not_closing v' 93 [] Ho). by right; left.
    + cbn [map] in E1. rewrite join_cons in E1. cbn [join app] in E1.
      cbn [forallb] in Hok. apply andb_true_iff in Hok as [Hv _].
      destruct (dumps_opens v Hv) as (c & r & Ec & Ho). rewrite Ec in E1.
      cbn [app] in E1. assert (c = 93) as -> by congruence.
      destruct (opens_not_closing v 93 [] Ho). by right; left.
    + cbn [map] in E1. rewrite !join_cons in E1. rewrite <- !app_assoc in E1.
      inversion Hsl as [|? ? Hv Hl]; subst.
      cbn [forallb] in Hok'. apply andb_true_iff in Hok' as [Hv' Hl'].
      apply Hv in E1 as [Hvv E1]; [|done| by apply closes_tail; left..].
      apply arr_tail_inj in E1 as [Hll ->]; [|done..].
      split; [by repeat constructor|done].
  - destruct (dumps_obj d) as (ds & Hp & Ed), (dumps_obj d') as (ds' & Hp' & Ed').
    rewrite Ed, Ed' in E. clear Ed Ed' K.
    cbn [floats_ok] in Hok, Hok'.
    pose proof (forallb_Forall_ok _ (fun kv => sound (snd kv)) _ Hok IHd) as Hsd.
    assert (Forall (fun kv => sound (snd kv)) ds) as IHds by (by rewrite <- Hp).
    pose proof (forallb_Permutation _ _ _ Hp' Hok') as Hokds'.
    cbn [app] in E. apply tail_eq in E.
    rewrite <- !app_assoc in E. cbn [app] in E. rename E into E1.
    destruct ds as [|[k v] ds], ds' as [|[k' v'] ds'].
    + cbn [map join app] in E1. inversion E1. split; [|done]. by eapply alike_obj.
    + cbn [map] in E1. rewrite join_cons in E1. cbn [join app] in E1. done.
    + cbn [map] in E1. rewrite join_cons in E1. cbn [join app] in E1. done.
    + cbn [map] in E1. rewrite !join_cons in E1. rewrite <- !app_assoc in E1.
      inversion IHds as [|? ? Hv Hl]; subst.
      cbn [forallb snd] in Hokds'. apply andb_true_iff in Hokds' as [Hv' Hl'].
      apply item_inj in E1 as (-> & Hvv & E1);
        [|done|done| by apply closes_tail; right..].
      apply obj_tail_inj in E1 as [Hll ->]; [|done..].
      split; [|done]. eapply alike_obj; [done..|]. by constructor.
Qed.

(** [json.dumps] with sorted keys is injective up to the order of the items
    of objects. *)
Lemma dumps_inj v v' :
  floats_ok v = true → floats_ok v' = true → dumps v = dumps v' → alike v v'.
Proof.
  intros H H' E. apply (dumps_sound v H v' [] []); [done..|]. by rewrite !app_nil_r.
Qed.

(** *** The order of keys *)

Lemma str_ltb_asym a : ∀ b, str_ltb a b = true → str_ltb b a = false.
Proof.
  induction a as [|x a IH]; intros [|y b]; simpl; try done.
  destruct (N.ltb_spec x y), (N.ltb_spec y x), (N.eqb_spec x y), (N.eqb_spec y x);
    simpl; try done; try lia. apply IH.
Qed.

Lemma str_le_antisym a : ∀ b, str_ltb a b = false → str_ltb b a = false → a = b.
Proof.
  induction a as [|x a IH]; intros [|y b]; simpl; try done.
  destruct (N.ltb_spec x y), (N.ltb_spec y x), (N.eqb_spec x y), (N.eqb_spec y x);
    simpl; try done; try lia. intros. f_equal; [done|]. by apply IH.
Qed.

Lemma str_le_trans a : ∀ b c,
  str_ltb b a = false → str_ltb c b = false → str_ltb c a = false.
Proof.
  induction a as [|x a IH]; intros [|y b] [|z c]; simpl; try done.
  destruct (N.ltb_spec y x), (N.ltb_spec z y), (N.ltb_spec z x),
    (N.eqb_spec y x), (N.eqb_spec z y), (N.eqb_spec z x);
    simpl; try done; try lia. apply IH.
Qed.

Lemma str_le_total a : ∀ b, str_ltb b a = false ∨ str_ltb a b = false.
Proof.
  induction a as [|x a IH]; intros [|y b]; simpl; auto.
  destruct (N.ltb_spec x y), (N.ltb_spec y x), (N.eqb_spec x y), (N.eqb_spec y x);
    simpl; auto; try lia.
Qed.

#[local] Instance item_le_trans : Transitive item_le.
Proof. intros a b c. unfold item_le. apply str_le_trans. Qed.

#[local] Instance item_le_total : Total item_le.
Proof. intros a b. unfold item_le. apply str_le_total. Qed.

(** Sorting by key does not depend on the order in which the items come,
    as long as no key comes twice. *)
Lemma sort_items_perm (l l' : list (list N * list N)) :
  NoDup (map fst l) → l ≡ₚ l' → merge_sort item_le l = merge_sort item_le l'.
Proof.
  intros Hn Hp.
  apply (Sorted_unique_strong item_le); try apply Sorted_merge_sort; try apply _.
  - intros x1 x2 H1 H2 H12 H21.
    rewrite merge_sort_Permutation in H1. rewrite merge_sort_Permutation, <- Hp in H2.
    assert (fst x1 = fst x2) as Hk by (by apply str_le_antisym).
    clear H12 H21 Hp. induction l as [|y l IH]; [by apply elem_of_nil in H1|].
    simpl in Hn. apply NoDup_cons in Hn as [Hy Hn].
    apply elem_of_cons in H1 as [->|H1], H2 as [->|H2]; try done.
    + exfalso. apply Hy. rewrite Hk. apply list_elem_of_fmap. eauto.
    + exfalso. apply Hy. rewrite <- Hk. apply list_elem_of_fmap. eauto.
    + by apply IH.
  - by rewrite !merge_sort_Permutation.
Qed.

(** Values equal up to the order of object items have one text, provided
    no object has a key twice. *)
Lemma dumps_of_alike : ∀ v, distinct_keys v → ∀ v', alike v v' → dumps v = dumps v'.
Proof.
  induction v as [| b | z | r | t | l IHl | d IHd] using value_ind';
    intros Hw v' He; inversion He; subst; try done.
  - inversion Hw as [| | | | |? Hwl|]; subst.
    match goal with H : Forall2 alike l _ |- _ => rename H into Hf end.
    rewrite !dumps_arr. do 3 f_equal. clear -IHl Hwl Hf.
    induction Hf as [|x y l l' Hxy Hf IH]; [done|].
    inversion IHl; inversion Hwl; subst. simpl. f_equal; eauto.
  - inversion Hw as [| | | | | |? Hnd Hwd]; subst.
    match goal with H1 : d ≡ₚ ?ds, H2 : ?d' ≡ₚ ?ds', H3 : Forall2 _ ?ds ?ds' |- _ =>
      rename H1 into Hp; rename H2 into Hp'; rename H3 into Hf end.
    assert (map (fun kv => (fst kv, dumps (snd kv))) ds
            = map (fun kv => (fst kv, dumps (snd kv))) ds') as Em.
    { assert (Forall (fun kv => distinct_keys (snd kv) ∧ ∀ v', alike (snd kv) v' → dumps (snd kv) = dumps v') ds)
        as Hds.
      { rewrite <- Hp. apply Forall_and. split; [done|].
        eapply Forall_impl; [apply Forall_and; split; [exact IHd|exact Hwd]|].
        intros kv [H1 H2]. by apply H1. }
      clear Hp Hp'. induction Hf as [|[k v] [k' v'] ds ds' [Hk Hv] Hf IH]; [done|].
      inversion Hds as [|? ? [Hw1 Hd1] Hds']; subst. simpl in *. subst k'.
      f_equal; [by rewrite (Hd1 _ Hv)|by apply IH]. }
    change (dumps (Obj d))
      with (123 :: join [44]
              (map (fun kv => encode_basestring (fst kv) ++ 58 :: snd kv)
                 (merge_sort item_le (map (fun kv => (fst kv, dumps (snd kv))) d)))
            ++ [125]).
    change (dumps (Obj d'))
      with (123 :: join [44]
              (map (fun kv => encode_basestring (fst kv) ++ 58 :: snd kv)
                 (merge_sort item_le (map (fun kv => (fst kv, dumps (snd kv))) d')))
            ++ [125]).
    do 4 f_equal. apply sort_items_perm.
    + by rewrite map_map.
    + rewrite Hp, Em, <- Hp'. done.
Qed.

(** *** Bars stand inside strings only *)

Lemma lex_run_app s a : ∀ b, lex_run s (a ++ b) = s' ← lex_run s a; lex_run s' b.
Proof.
  revert s. induction a as [|c a IH]; intros s b; cbn [app lex_run]; [done|].
  destruct (lex_step s c) as [s'|]; cbn; [apply IH|done].
Qed.

Lemma lex_step_plain c : plain c → lex_step Out c = Some Out ∧ lex_step In c = Some In.
Proof.
  intros (Hq & Hb & Hbar). unfold lex_step.
  apply N.eqb_neq in Hq, Hb, Hbar. by rewrite Hq, Hb, Hbar.
Qed.

Lemma lex_plain t : Forall plain t → lex_run Out t = Some Out ∧ lex_run In t = Some In.
Proof.
  induction 1 as [|c t Hc Ht [IH1 IH2]]; [done|]. cbn [lex_run].
  destruct (lex_step_plain c Hc) as [-> ->]. done.
Qed.

Lemma hex_digit_plain n : n < 16 → plain (hex_digit n).
Proof.
  intros Hn. unfold hex_digit, plain, QUOTE, BACKSLASH.
  destruct (n <? 10) eqn:E; [apply N.ltb_lt in E|apply N.ltb_ge in E]; lia.
Qed.

Lemma lex_escape c : lex_run In (escape_char c) = Some In.
Proof.
  unfold escape_char.
  destruct (c =? QUOTE) eqn:E1; [done|].
  destruct (c =? BACKSLASH) eqn:E2; [done|].
  destruct (c =? 10) eqn:E3; [done|].
  destruct (c =? 13) eqn:E4; [done|].
  destruct (c =? 9) eqn:E5; [done|].
  destruct (c =? 8) eqn:E6; [done|].
  destruct (c =? 12) eqn:E7; [done|].
  destruct (c <? 32) eqn:E8.
  - apply N.ltb_lt in E8.
    change (BACKSLASH :: py "u00" ++ [hex_digit (c / 16); hex_digit (c mod 16)])
      with ([BACKSLASH; 117; 48; 48] ++ [hex_digit (c / 16); hex_digit (c mod 16)]).
    rewrite lex_run_app.
    change (lex_run In [BACKSLASH; 117; 48; 48]) with (Some In). cbn [mbind option_bind].
    apply lex_plain. constructor; [|constructor; [|constructor]]; apply hex_digit_plain.
    + assert (c / 16 < 2); [|lia]. apply N.Div0.div_lt_upper_bound. lia.
    + apply N.mod_lt. lia.
  - cbn [lex_run lex_step]. by rewrite E1, E2.
Qed.

Lemma lex_escaped s : lex_run In (concat (map escape_char s)) = Some In.
Proof.
  induction s as [|c s IH]; [done|]. cbn [map concat].
  by rewrite lex_run_app, lex_escape.
Qed.

Lemma lex_basestring s : lex_run Out (encode_basestring s) = Some Out.
Proof.
  unfold encode_basestring. cbn [app lex_run lex_step].
  change (QUOTE =? QUOTE) with true. cbn [mbind option_bind].
  rewrite lex_run_app, lex_escaped. done.
Qed.

Lemma lex_join ts :
  Forall (fun t => lex_run Out t = Some Out) ts → lex_run Out (join [44] ts) = Some Out.
Proof.
  destruct 1 as [|t ts Ht Hts]; [done|]. rewrite join_cons, lex_run_app, Ht.
  cbn [mbind option_bind]. induction Hts as [|u ts Hu Hts IH]; [done|].
  cbn [map concat]. change ((44 :: u) ++ ?r) with (44 :: (u ++ r)).
  cbn [lex_run lex_step]. change (44 =? QUOTE) with false.
  change ((44 =? BACKSLASH) || (44 =? 124)) with false. cbn [mbind option_bind].
  by rewrite lex_run_app, Hu.
Qed.

Lemma lex_bracketed o c t :
  plain o → plain c → lex_run Out t = Some Out → lex_run Out (o :: t ++ [c]) = Some Out.
Proof.
  intros Ho Hc Ht. cbn [lex_run]. destruct (lex_step_plain o Ho) as [-> _].
  cbn [mbind option_bind]. rewrite lex_run_app, Ht. cbn [mbind option_bind lex_run].
  by destruct (lex_step_plain c Hc) as [-> _].
Qed.

(** The reader gets through every text [dumps] prints, and ends outside
    the strings. *)
Lemma lex_dumps : ∀ v, floats_ok v = true → lex_run Out (dumps v) = Some Out.
Proof.
  induction v as [| b | z | r | t | l IHl | d IHd] using value_ind'; intros Hok.
  - done.
  - by destruct b.
  - apply lex_plain. eapply Forall_impl; [apply dumps_int_numeric|].
    intros c Hc. unfold plain, is_numeric, QUOTE, BACKSLASH in *. lia.
  - cbn [floats_ok] in Hok. apply lex_plain.
    by destruct (dumps_float_shape r Hok) as (_ & H & _).
  - apply lex_basestring.
  - rewrite dumps_arr. cbn [floats_ok] in Hok.
    apply lex_bracketed; [by unfold plain, QUOTE, BACKSLASH..|].
    apply lex_join, Forall_map. by apply (forallb_Forall_ok floats_ok).
  - destruct (dumps_obj d) as (ds & Hp & ->). cbn [floats_ok] in Hok.
    apply lex_bracketed; [by unfold plain, QUOTE, BACKSLASH..|].
    apply lex_join, Forall_map. rewrite <- Hp.
    pose proof (forallb_Forall_ok _ _ _ Hok IHd) as H.
    eapply Forall_impl; [exact H|]. intros [k v] Hv. unfold item_text. cbn [fst snd] in *.
    rewrite lex_run_app, lex_basestring. cbn [mbind option_bind lex_run lex_step].
    change (58 =? QUOTE) with false.
    change ((58 =? BACKSLASH) || (58 =? 124)) with false. done.
Qed.

(** Two readers that stand on the two sides of a quote stay on the two
    sides of the quotes, as long as both get on. *)
Lemma lex_opposite t : ∀ s s1 s2,
  s ≠ Esc → lex_run s t = Some s1 → lex_run (opposite s) t = Some s2 →
  s1 ≠ Esc ∧ s2 = opposite s1.
Proof.
  induction t as [|c t IH]; intros s s1 s2 Hs H1 H2.
  - cbn in H1, H2. by simplify_eq.
  - cbn [lex_run] in H1, H2.
    destruct (lex_step s c) as [u|] eqn:E1; [|done].
    destruct (lex_step (opposite s) c) as [u'|] eqn:E2; [|done].
    cbn [mbind option_bind] in H1, H2.
    assert (u ≠ Esc ∧ u' = opposite u) as [Hu ->].
    { destruct s; [| |done]; cbn [opposite lex_step] in E1, E2;
        destruct (c =? QUOTE); simplify_eq; [done| |done|];
        destruct (c =? BACKSLASH); cbn [orb] in *; simplify_eq;
        destruct (c =? 124); by simplify_eq. }
    by apply (IH u).
Qed.

(** No text that the reader gets through ends with a bar and a text that
    the reader gets through. *)
Lemma no_bar_suffix d d' l :
  lex_run Out d = Some Out → lex_run Out d' = Some Out → d ≠ l ++ BAR :: d'.
Proof.
  intros Hd Hd' ->. rewrite lex_run_app in Hd.
  destruct (lex_run Out l) as [s|]; [|done]. cbn [mbind option_bind lex_run] in Hd.
  assert (lex_run In d' = Some Out) as H.
  { destruct s; [done|done|done]. }
  by destruct (lex_opposite d' Out Out Out) as [_ ?].
Qed.

Lemma key_tail_inj k k' d d' :
  lex_run Out d = Some Out → lex_run Out d' = Some Out →
  k ++ BAR :: d = k' ++ BAR :: d' → k = k' ∧ d = d'.
Proof.
  intros Hd Hd' E. apply app_eq_app in E as [l [[-> E]|[-> E]]].
  - destruct l as [|x l]; cbn [app] in E.
    + rewrite app_nil_r. by simplify_eq.
    + inversion E; subst. by destruct (no_bar_suffix _ _ l Hd' Hd).
  - destruct l as [|x l]; cbn [app] in E.
    + rewrite app_nil_r. by simplify_eq.
    + inversion E; subst. by destruct (no_bar_suffix _ _ l Hd Hd').
Qed.

End JsonDumps.

(** ** Python's equality of JSON values *)

Section PyEq.

Import Json.

Lemma number_eqb_spec x y : number_eqb x y = true ↔ same_number x y.
Proof.
  destruct x as [m e|n], y as [m' e'|n']; cbn [number_eqb same_number];
    try (split; [discriminate|done]).
  - rewrite Z.eqb_eq. split.
    + intros H k Hk Hk'.
      assert (∀ u, Z.min e e' ≤ u →
                   2 ^ (u - k) = 2 ^ (u - Z.min e e') * 2 ^ (Z.min e e' - k))%Z as P.
      { intros u Hu. rewrite <- Z.pow_add_r by lia. f_equal. lia. }
      rewrite (P e), (P e') by lia. rewrite !Z.mul_assoc. by rewrite H.
    + intros H. apply H; lia.
  - by rewrite bool_decide_eq_true.
Qed.

Lemma py_eq_arr x : ∀ y,
  py_eq (Arr x) (Arr y) = true ↔ Forall2 (fun u v => py_eq u v = true) x y.
Proof.
  cbn [py_eq]. induction x as [|u x IH]; intros [|v y]; split; intros H;
    try done; try (by inversion H).
  - apply andb_true_iff in H as [H1 H2]. constructor; [done|]. by apply IH.
  - inversion H; subst. apply andb_true_iff. split; [done|]. by apply IH.
Qed.

Lemma py_eq_obj x y :
  py_eq (Obj x) (Obj y) = true
  ↔ length x = length y
    ∧ Forall (fun ku => ∃ j kv, list_find (fun kv => fst kv = fst ku) y = Some (j, kv)
                               ∧ py_eq (snd ku) (snd kv) = true) x.
Proof.
  cbn [py_eq]. rewrite andb_true_iff, Nat.eqb_eq.
  apply and_iff_compat_l.
  induction x as [|[k u] x IH]; [by split|]. cbn [fst snd]. split.
  - intros H. destruct (list_find _ y) as [[j [k' v]]|] eqn:E; [|done].
    apply andb_true_iff in H as [H1 H2]. constructor; [|by apply IH].
    cbn [fst snd]. by exists j, (k', v).
  - intros H. inversion H as [|? ? (j & [k' v] & E & H1) H2]; subst.
    cbn [fst snd] in E. rewrite E. apply andb_true_iff. split; [done|]. by apply IH.
Qed.

Lemma number_of_kind a x :
  number_of a = Some x → (∃ b, a = Bool b) ∨ (∃ z, a = Int z) ∨ (∃ r, a = Float r).
Proof. destruct a; try done; eauto. Qed.

Lemma nan_has_no_value : float_value (py "nan") = None.
Proof. reflexivity. Qed.

Lemma is_nan_spec a : is_nan a = true ↔ a = Float (py "nan").
Proof.
  destruct a; cbn; try (split; [discriminate|congruence]).
  rewrite bool_decide_eq_true. split; congruence.
Qed.

Lemma nan_not_number a x : number_of a = Some x → is_nan a = false.
Proof.
  intros H. destruct (is_nan a) eqn:E; [|done].
  apply is_nan_spec in E as ->. cbn [number_of] in H. by rewrite nan_has_no_value in H.
Qed.

Lemma py_eq_number a b :
  is_Some (number_of a) →
  py_eq a b = match number_of a, number_of b with
              | Some x, Some y => number_eqb x y
              | _, _ => false
              end.
Proof.
  intros [x Hx]. pose proof (nan_not_number _ _ Hx) as Hn.
  destruct (number_of_kind _ _ Hx) as [[? ->]|[[? ->]|[? ->]]];
    destruct b; try done; cbn [py_eq]; rewrite ?Hn; cbn [andb]; try done;
    cbn [number_of]; by destruct (float_value _).
Qed.

Lemma Forall2_under {A B} (R S : A → B → Prop) l l' :
  Forall (fun u => ∀ v, R u v → S u v) l → Forall2 R l l' → Forall2 S l l'.
Proof.
  intros Hl H. induction H as [|u v l l' Huv H IH]; [constructor|].
  inversion Hl; subst. constructor; auto.
Qed.

(** What [==] accepts is equal. *)
Lemma py_eq_sound : ∀ a b, py_eq a b = true → py_equal a b.
Proof.
  assert (∀ a, is_Some (number_of a) → ∀ b, py_eq a b = true → py_equal a b) as Hnum.
  { intros a Ha b H. rewrite py_eq_number in H by done.
    destruct (number_of a) as [x|] eqn:Ex, (number_of b) as [y|] eqn:Ey; try done.
    apply number_eqb_spec in H. by eapply py_equal_number. }
  induction a as [| b | z | r | t | l IHl | d IHd] using value_ind'; intros v H.
  - destruct v; try done. constructor.
  - by apply Hnum.
  - by apply Hnum.
  - destruct (float_value r) as [x|] eqn:E.
    + apply Hnum; [|done]. cbn. by rewrite E.
    + destruct v as [| | |r'| | |]; try done; cbn [py_eq] in H;
        destruct (is_nan (Float r) && is_nan _) eqn:En;
        try (cbn [number_of] in H; by rewrite E in H).
      * by apply andb_true_iff in En as [_ ?].
      * by apply andb_true_iff in En as [_ ?].
      * apply andb_true_iff in En as [->%is_nan_spec Hn%is_nan_spec].
        inversion Hn; subst. constructor.
  - destruct v; try done. cbn in H. apply bool_decide_eq_true in H as ->. constructor.
  - destruct v as [| | | | | l' |]; try done. apply py_eq_arr in H.
    constructor.
    by apply (Forall2_under (fun u v => py_eq u v = true) py_equal l l' IHl).
  - destruct v as [| | | | | | d']; try done. apply py_eq_obj in H as [Hn H].
    constructor; [done|]. rewrite Forall_forall in IHd, H. apply Forall_forall.
    intros ku Hku. destruct (H ku Hku) as (j & kv & E & Hv).
    apply list_find_Some in E as (Hj & Hk & _). apply Exists_exists.
    exists kv. split; [by eapply list_elem_of_lookup_2|]. split; [done|].
    by apply IHd.
Qed.

Lemma NoDup_keys_eq {A} (l : list (list N * A)) a b :
  NoDup (map fst l) → a ∈ l → b ∈ l → fst a = fst b → a = b.
Proof.
  induction l as [|c l IH]; intros Hn Ha Hb E; [by apply elem_of_nil in Ha|].
  cbn [map] in Hn. apply NoDup_cons in Hn as [Hc Hn].
  apply elem_of_cons in Ha as [->|Ha], Hb as [->|Hb]; [done| | |by apply IH].
  - destruct Hc. rewrite E. by apply (list_elem_of_fmap_2 fst).
  - destruct Hc. rewrite <- E. by apply (list_elem_of_fmap_2 fst).
Qed.

(** What is equal, [==] accepts, between dicts that hold no key twice. *)
Lemma py_eq_complete : ∀ a b, distinct_keys b → py_equal a b → py_eq a b = true.
Proof.
  assert (∀ a b x y, number_of a = Some x → number_of b = Some y → same_number x y →
                     py_eq a b = true) as Hnum.
  { intros a b x y Hx Hy H. rewrite py_eq_number by (by rewrite Hx).
    rewrite Hx, Hy. by apply number_eqb_spec. }
  induction a as [| b | z | r | t | l IHl | d IHd] using value_ind'; intros v Hv H;
    inversion H; subst; try done; try (by eapply Hnum).
  - cbn. by apply bool_decide_eq_true.
  - apply py_eq_arr. inversion Hv as [| | | | |? Hl|]; subst.
    match goal with F : Forall2 py_equal _ _ |- _ => rename F into H2 end.
    clear H Hv. revert Hl. induction H2 as [|u v l l' Huv H2 IH]; intros Hl; [constructor|].
    inversion IHl; subst. inversion Hl; subst. constructor; auto.
  - apply py_eq_obj. split; [done|]. inversion Hv as [| | | | | |? Hnd Hd]; subst.
    rewrite Forall_forall in IHd, Hd.
    match goal with F : Forall _ d |- _ => rename F into H2 end.
    rewrite Forall_forall in H2. apply Forall_forall. intros ku Hku.
    pose proof (H2 ku Hku) as Hex. apply Exists_exists in Hex as (kv & Hin & Hk & He).
    destruct (list_find_elem_of (fun kv => fst kv = fst ku) d' kv Hin Hk)
      as [[j kv0] E].
    exists j, kv0. split; [done|].
    apply list_find_Some in E as (Hj & Hk0 & _).
    assert (kv0 = kv) as ->.
    { apply (NoDup_keys_eq d'); [done|by eapply list_elem_of_lookup_2|done|congruence]. }
    apply IHd; [done|by apply Hd|done].
Qed.

(** What is equal field for field is equal to [==]. *)
Lemma alike_py_equal : ∀ a b, floats_valued a = true → alike a b → py_equal a b.
Proof.
  assert (∀ x, same_number x x) as Hrefl by (intros [m e|n]; done).
  induction a as [| b | z | r | t | l IHl | d IHd] using value_ind'; intros v Hn H;
    inversion H; subst.
  - constructor.
  - by eapply py_equal_number.
  - by eapply py_equal_number.
  - cbn [floats_valued] in Hn. apply orb_true_iff in Hn as [Hn|Hn].
    + apply bool_decide_eq_true in Hn as ->. constructor.
    + apply bool_decide_eq_true in Hn as [x Hx]. by eapply py_equal_number.
  - constructor.
  - constructor. cbn [floats_valued] in Hn.
    match goal with F : Forall2 alike _ _ |- _ => rename F into H2 end.
    clear H. induction H2 as [|u v l l' Huv H2 IH]; [constructor|].
    inversion IHl; subst. cbn [forallb] in Hn. apply andb_true_iff in Hn as [? ?].
    constructor; auto.
  - match goal with
    | P1 : d ≡ₚ ?x, P2 : _ ≡ₚ ?y, F : Forall2 _ ?x ?y |- _ =>
        rename P1 into Hp; rename P2 into Hp'; rename F into H2
    end.
    constructor.
    + rewrite Hp, Hp'. by eapply Forall2_length.
    + cbn [floats_valued] in Hn. rewrite forallb_forall in Hn.
      rewrite Forall_forall in IHd. apply Forall_forall. intros ku Hku.
      assert (ku ∈ ds) as Hin by (by rewrite <- Hp).
      apply list_elem_of_lookup_1 in Hin as [j Hj].
      destruct (Forall2_lookup_l _ _ _ _ _ H2 Hj) as (kv & Hj' & Hk & Ha).
      apply Exists_exists. exists kv. split; [|split; [done|]].
      * rewrite Hp'. by eapply list_elem_of_lookup_2.
      * apply IHd; [done| |done]. apply Hn. by apply list_elem_of_In.
Qed.

(** [same] decides the equality of the two requests. *)
Lemma same_spec stored incoming :
  distinct_keys (Obj (payload incoming)) →
  same stored incoming = true ↔ equal_requests stored incoming.
Proof.
  intros Hd. unfold same, equal_requests.
  rewrite !andb_true_iff, !bool_decide_eq_true. split.
  - intros [[Hb Hk] Hp]. split; [done|]. split; [done|]. by apply py_eq_sound.
  - intros (Hb & Hk & Hp). split; [done|]. by apply py_eq_complete.
Qed.

End PyEq.

(** ** The last-result lookup *)

(** C8 (as amended): the lookup compares the stored request with the
    incoming one as Python's [==] does: identity and credential character
    for character, the payloads as dicts whose numbers are equal when their
    values are ([true] equals 1, 1 equals 1.0).  Requests that are equal
    field for field are equal in that way.  When the two requests are equal
    the lookup answers with the
    stored response, and with an error 500 when that response cannot be
    rendered; otherwise it waits on the entry registered under the same key
    if that entry is still in flight, and then answers with the result
    found under the key once the event is set (an error 500 when that
    cannot be rendered), or with 204 when the wait times out; otherwise it
    answers 204, which is not an error. *)
Theorem last_result_lookup r why st :
  distinct_keys (Json.Obj (payload r)) →
  (∀ e, last_chat_completion_entry st = Some e →
        (field_for_field (req e) r →
         floats_valued (Json.Obj (payload (req e))) = true →
         equal_requests (req e) r)
        ∧ (equal_requests (req e) r →
           last_begin r why st = (st, Answer (or_500 why (respond (Some (res e)))))))
  ∧ (∀ a, or_500 why a
          = if renders a then a
            else HTTPException 500 (py "Failed to get last chat completion: " ++ why))
  ∧ ((∀ e, last_chat_completion_entry st = Some e → ¬ equal_requests (req e) r) →
     same_shared st (fst (last_begin r why st))
     ∧ (∀ h, chat_pending_map st !! key_of r = Some h →
             is_set st (event h) = false →
             snd (last_begin r why st) = Wait (event h))
     ∧ (∀ h, chat_pending_map st !! key_of r = Some h →
             is_set st (event h) = true →
             snd (last_begin r why st) = Answer no_content)
     ∧ (chat_pending_map st !! key_of r = None →
        snd (last_begin r why st) = Answer no_content))
  ∧ (∀ c i ev, tasks c !! i = Some (LastWaiting r ev) →
       (is_set (shared c) ev = true →
        step c (Config (shared c) (<[i := Done (last_wake r why (shared c))]> (tasks c))))
       ∧ (is_set (shared c) ev = false →
          step c (Config (shared c) (<[i := Done last_timeout]> (tasks c)))))
  ∧ (∀ st' h u, chat_pending_map st' !! key_of r = Some h → result h = Some u →
                last_wake r why st' = or_500 why (respond (Some u)))
  ∧ last_timeout = no_content
  ∧ status_of no_content = 204%Z.
Proof.
  intros Hd. split; [|split; [done|split; [|split; [|split; [|done]]]]].
  - intros e He. split.
    + intros (? & ? & Ha) Hn. split; [done|]. split; [done|]. by apply alike_py_equal.
    + intros Hs. apply same_spec in Hs; [|done]. unfold last_begin. by rewrite He, Hs.
  - intros Hn.
    assert (E : last_begin r why st
                = let '(st, event) := in_flight (key_of r) st in
                  match event with
                  | Some ev => (st, Wait ev)
                  | None => (st, Answer no_content)
                  end).
    { unfold last_begin. destruct (last_chat_completion_entry st) as [e|] eqn:He; [|done].
      destruct (same (req e) r) eqn:Hs; [|done].
      apply same_spec in Hs; [|done]. by destruct (Hn e). }
    rewrite E. unfold in_flight. simpl.
    split; [|split; [|split]].
    + destruct (chat_pending_map st !! key_of r) as [h|]; simpl; [|done].
      by destruct (is_set _ _).
    + intros h Hh Hs. rewrite Hh. simpl.
      unfold is_set in *. simpl. by rewrite Hs.
    + intros h Hh Hs. rewrite Hh. simpl.
      unfold is_set in *. simpl. by rewrite Hs.
    + intros Hh. by rewrite Hh.
  - intros [st' ts] i ev Hi. cbn [shared tasks] in *. split; intros Hs.
    + by eapply step_last_wake.
    + by eapply step_last_timeout.
  - intros st' h u Hh Hu. unfold last_wake. by rewrite Hh; simpl; rewrite Hu.
Qed.

Lemma last_result_lookup_witness :
  last_begin rq_one [] (after_exchange rq_true ok200)
  = (after_exchange rq_true ok200,
     Answer (JSONResponse (Json.Obj [(py "id", Json.Int 7)]) 200 (py "application/json"))).
Proof.
  assert (distinct_keys (Json.Obj (payload rq_one))) as Hd.
  { constructor; [|repeat constructor]. apply NoDup_singleton. }
  apply (proj2 (proj1 (last_result_lookup rq_one [] (after_exchange rq_true ok200) Hd)
                  (Entry rq_true ok200 (ts_of 2)) eq_refl)).
  split; [done|]. split; [done|]. constructor; [done|].
  repeat constructor. cbn [fst snd]. eapply py_equal_number; [reflexivity..|].
  intros k Hk Hk'. reflexivity.
Defined.

(** C8 (as stated) fails.  The stored request and the incoming one differ
    in a field, [true] against 1, and nothing is in flight for the
    incoming one: the lookup answers with the stored response, not with
    204.  The stored request and the incoming one are equal field for
    field and the stored response holds a lone surrogate: the lookup
    answers with an error 500. *)
Lemma lookup_is_not_field_for_field :
  let why := py "surrogates not allowed" in
  (¬ field_for_field rq_true rq_one
   ∧ last_chat_completion_entry (after_exchange rq_true ok200)
     = Some (Entry rq_true ok200 (ts_of 2))
   ∧ chat_pending_map (after_exchange rq_true ok200) !! key_of rq_one = None
   ∧ snd (last_begin rq_one why (after_exchange rq_true ok200))
     = Answer (respond (Some ok200))
   ∧ status_of (respond (Some ok200)) = 200%Z)
  ∧ (field_for_field rq0 rq0
     ∧ last_chat_completion_entry (after_exchange rq0 unsendable)
       = Some (Entry rq0 unsendable (ts_of 2))
     ∧ snd (last_begin rq0 why (after_exchange rq0 unsendable))
       = Answer (HTTPException 500 (py "Failed to get last chat completion: " ++ why))).
Proof.
  intros why.
  assert (∀ r, field_for_field r r) as Hrefl.
  { intros r. split; [done|]. split; [done|].
    apply (alike_obj _ _ (payload r) (payload r)); [done..|].
    induction (payload r) as [|[k v] l IH]; constructor; [|done]. split; [done|].
    cbn [snd]. clear. induction v as [| | | | | l IHl | d IHd] using value_ind';
      try constructor.
    - induction IHl; by constructor.
    - apply (alike_obj _ _ d d); [done..|].
      induction IHd as [|[k v] d Hv Hd IH]; by constructor. }
  split.
  - split; [|by vm_compute].
    intros (_ & _ & H). apply dumps_of_alike in H; [done|].
    constructor; [apply NoDup_singleton|repeat constructor].
  - split; [done|]. split; [by vm_compute|]. reflexivity.
Qed.

(** ** The fingerprint key *)

Lemma split_at_bar (a a' r r' : list N) :
  BAR ∉ a → BAR ∉ a' → a ++ BAR :: r = a' ++ BAR :: r' → a = a' ∧ r = r'.
Proof.
  revert a'. induction a as [|x a IH]; intros [|y a'] Ha Ha' E; simpl in *.
  - by inversion E.
  - inversion E; subst. exfalso. apply Ha'. by left.
  - inversion E; subst. exfalso. apply Ha. by left.
  - inversion E; subst. destruct (IH a') as [-> ->]; try done.
    + intros H. apply Ha. by right.
    + intros H. apply Ha'. by right.
Qed.

(** C4 (as amended): the key is a function of the trimmed target identity,
    the trimmed credential and the payload as a JSON document, up to the
    order of the keys of its objects; and where neither trimmed identity
    contains a [|], inputs that share a key have the same trimmed identity,
    the same trimmed credential and the same payload document up to the
    order of the keys of its objects.  The payload is any JSON document:
    its numbers are integers and floats, and 1 and 1.0 are two documents. *)
Theorem chat_key_injective_up_to_trimming a k p a' k' p' :
  (strip a = strip a' → strip k = strip k' →
   distinct_keys (Json.Obj p) → alike (Json.Obj p) (Json.Obj p') →
   _make_chat_key a k p = _make_chat_key a' k' p')
  ∧ (floats_ok (Json.Obj p) = true → floats_ok (Json.Obj p') = true →
     BAR ∉ strip a → BAR ∉ strip a' →
     _make_chat_key a k p = _make_chat_key a' k' p' →
     strip a = strip a' ∧ strip k = strip k' ∧ alike (Json.Obj p) (Json.Obj p')).
Proof.
  unfold _make_chat_key, _canonicalize_payload. split.
  - intros -> -> Hw He. by rewrite (dumps_of_alike _ Hw _ He).
  - intros Hp Hp' Ha Ha' E. cbn [app] in E.
    apply split_at_bar in E as [E1 E]; [|done..].
    apply key_tail_inj in E as [E2 E]; [|by apply lex_dumps..].
    split; [done|]. split; [done|]. by apply dumps_inj.
Qed.

Lemma chat_key_injective_up_to_trimming_witness :
  let p := [(py "t", Json.Float (py "0.7")); (py "a", Json.Null)] in
  let p' := [(py "a", Json.Null); (py "t", Json.Float (py "0.7"))] in
  _make_chat_key (py " http://x ") (py "k|") p = _make_chat_key (py "http://x") (py "k| ") p'
  ∧ (strip (py " http://x ") = strip (py "http://x") ∧ strip (py "k|") = strip (py "k| ")
     ∧ alike (Json.Obj p) (Json.Obj p')).
Proof.
  intros p p'.
  assert (_make_chat_key (py " http://x ") (py "k|") p
          = _make_chat_key (py "http://x") (py "k| ") p') as E.
  { apply (proj1 (chat_key_injective_up_to_trimming
                    (py " http://x ") (py "k|") p (py "http://x") (py "k| ") p')).
    - reflexivity.
    - reflexivity.
    - constructor.
      + simpl. repeat (apply NoDup_cons_2 || apply NoDup_nil_2);
          intros H; repeat (apply elem_of_cons in H as [H|H]; [discriminate|]);
          by apply elem_of_nil in H.
      + repeat constructor.
    - apply (alike_obj p p' p p); [reflexivity| |].
      + apply perm_swap.
      + repeat constructor. }
  split; [exact E|].
  apply (proj2 (chat_key_injective_up_to_trimming
                  (py " http://x ") (py "k|") p (py "http://x") (py "k| ") p'));
    try exact E; try reflexivity; vm_compute; intros H;
    repeat (apply elem_of_cons in H as [H|H]; [discriminate|]);
    by apply elem_of_nil in H.
Defined.

(** C4 (as stated) fails: inputs that differ in a component and share their
    key.  The first pair differs in surrounding blanks, which the key
    trims; the second moves a [|] from the identity to the credential. *)
Lemma distinct_inputs_share_a_key :
  (py " http://x" ≠ py "http://x"
   ∧ _make_chat_key (py " http://x") (py "k") [] = _make_chat_key (py "http://x") (py "k") [])
  ∧ ((py "a|b", py "c") ≠ (py "a", py "b|c")
     ∧ _make_chat_key (py "a|b") (py "c") [] = _make_chat_key (py "a") (py "b|c") []).
Proof. repeat split; try reflexivity; discriminate. Qed.

Example chat_key_text :
  _make_chat_key (py " http://x ") (py "k")
    [(py "b", Json.Arr [Json.Int (-1); Json.Bool true; Json.Float (py "1e-07")]);
     (py "a", Json.Str [34; 10])]
  = py "http://x|k|{" ++ [34] ++ py "a" ++ [34] ++ py ":" ++ [34; 92; 34; 92] ++ py "n" ++ [34]
    ++ py "," ++ [34] ++ py "b" ++ [34] ++ py ":[-1,true,1e-07]}".
Proof. reflexivity. Qed.

(** ** The pending registry *)

Lemma invocations_log k st st' ops :
  log st' = log st ++ ops →
  invocations k st' = (invocations k st + length (List.filter (is_invoke k) ops))%nat.
Proof. unfold invocations. intros ->. by rewrite List.filter_app, length_app. Qed.

Lemma in_flight_log k st :
  log (fst (in_flight k st)) = log st ++ [Acquire; Lookup k; Release].
Proof. unfold in_flight. simpl. by rewrite <- !app_assoc. Qed.

Lemma in_flight_pending k ev st :
  pending k ev st → snd (in_flight k st) = Some ev.
Proof.
  intros (_ & [created Hm] & Hs). unfold in_flight. simpl. rewrite Hm. simpl.
  unfold is_set in *. simpl. by rewrite Hs.
Qed.

Lemma is_set_note o st ev : is_set (note o st) ev = is_set st ev.
Proof. done. Qed.

Lemma registry_ok_same st st' :
  chat_pending_map st' = chat_pending_map st → events st' = events st →
  registry_ok st → registry_ok st'.
Proof. unfold registry_ok. by intros -> ->. Qed.

Lemma pending_same k ev st st' :
  chat_pending_map st' = chat_pending_map st → events st' = events st →
  pending k ev st → pending k ev st'.
Proof.
  intros Hm He (Hr & Hh & Hs). split; [by eapply registry_ok_same|].
  rewrite Hm. split; [done|]. unfold is_set in *. by rewrite He.
Qed.

(** A caller that finds the entry of its key in flight becomes a follower
    of that entry's event and starts no upstream call. *)
Lemma chat_begin_follows k ev r now st :
  pending k ev st → key_of r = k →
  snd (chat_begin false r now st) = Follower ev
  ∧ same_shared st (fst (chat_begin false r now st))
  ∧ log (fst (chat_begin false r now st)) = log st ++ [Acquire; Lookup k; Release].
Proof.
  intros Hp <-. unfold chat_begin.
  pose proof (in_flight_pending _ _ _ Hp) as Hf.
  pose proof (in_flight_log (key_of r) st) as Hl.
  pose proof (in_flight_same (key_of r) st) as Hsame.
  destruct (in_flight (key_of r) st) as [st' o]. simpl in *. subst o. done.
Qed.

(** A caller that finds no entry under its key registers one, with a fresh
    unset event, and starts the upstream call: two locked blocks and the
    call, in one segment. *)
Lemma chat_begin_registers r now st :
  chat_pending_map st !! key_of r = None →
  let st' := fst (chat_begin false r now st) in
  snd (chat_begin false r now st) = Leader
  ∧ chat_pending_map st'
    = <[key_of r := Holder (length (events st)) None now]> (chat_pending_map st)
  ∧ events st' = events st ++ [false]
  ∧ last_chat_completion_entry st' = last_chat_completion_entry st
  ∧ cleanups st' = cleanups st
  ∧ log st' = log st ++ [Acquire; Lookup (key_of r); Release;
                         Acquire; Register (key_of r); Release; Invoke r].
Proof.
  intros Hn. unfold chat_begin, in_flight. simpl. rewrite !Hn. simpl. rewrite ?Hn. simpl.
  repeat split; try done. by rewrite <- !app_assoc.
Qed.

Lemma registry_ok_register k now st :
  registry_ok st → chat_pending_map st !! k = None →
  ∀ st', chat_pending_map st' = <[k := Holder (length (events st)) None now]> (chat_pending_map st) →
         events st' = events st ++ [false] →
         registry_ok st'.
Proof.
  intros Hr Hn st' Hm He k1 h1. rewrite Hm, He, length_app. simpl.
  intros H1. apply lookup_insert_Some in H1 as [[<- <-]|[Hne H1]]; simpl.
  - split; [lia|]. intros k2 h2 H2 E.
    apply lookup_insert_Some in H2 as [[<- _]|[_ H2]]; [done|].
    apply Hr in H2 as [H2 _]. lia.
  - destruct (Hr _ _ H1) as [Hlt Hd]. split; [lia|]. intros k2 h2 H2 E.
    apply lookup_insert_Some in H2 as [[<- <-]|[_ H2]]; simpl in *; [lia|].
    by eapply Hd.
Qed.

Lemma is_set_grow st st' ev :
  events st' = events st ++ [false] → is_set st' ev = is_set st ev.
Proof.
  intros He. unfold is_set. rewrite He.
  destruct (decide (ev < length (events st))%nat) as [Hl|Hl].
  - by rewrite lookup_app_l.
  - rewrite lookup_app_r by lia. rewrite (lookup_ge_None_2 (events st)) by lia.
    by destruct (ev - length (events st))%nat as [|[|?]].
Qed.

(** What a caller for another key does to the entry of [k]: nothing. *)
Lemma chat_begin_other k ev mm r now st :
  pending k ev st → key_of r ≠ k →
  pending k ev (fst (chat_begin mm r now st))
  ∧ invocations k (fst (chat_begin mm r now st)) = invocations k st.
Proof.
  intros Hp Hne. unfold chat_begin. destruct mm; [done|].
  destruct (chat_pending_map st !! key_of r) as [h|] eqn:Hm.
  - (* an entry exists: wait for it, or call upstream without registering *)
    unfold in_flight. simpl. rewrite Hm. simpl.
    destruct (is_set (note (Lookup (key_of r)) (note Acquire st)) (event h)); simpl.
    + rewrite ?Hm. split; [by eapply pending_same|].
      erewrite invocations_log; [|simpl; by rewrite <- !app_assoc]. simpl.
      rewrite bool_decide_eq_false_2 by done. simpl. lia.
    + split; [by eapply pending_same|].
      erewrite invocations_log; [|simpl; by rewrite <- !app_assoc]. simpl. lia.
  - destruct (chat_begin_registers r now st Hm) as (_ & Em & Ee & _ & _ & El).
    unfold chat_begin in *. simpl in *. split.
    + destruct Hp as (Hr & [created Hh] & Hs). split; [by eapply registry_ok_register|].
      split.
      * exists created. rewrite Em. by rewrite lookup_insert_ne.
      * by erewrite is_set_grow.
    + erewrite invocations_log; [|exact El]. simpl.
      rewrite bool_decide_eq_false_2 by done. simpl. lia.
Qed.

Lemma publish_fields k u st :
  match chat_pending_map st !! k with
  | Some h =>
      chat_pending_map (publish k u st)
      = <[k := Holder (event h) (Some u) (created_at h)]> (chat_pending_map st)
      ∧ events (publish k u st) = <[event h := true]> (events st)
      ∧ cleanups (publish k u st) = cleanups st ++ [(k, created_at h)]
      ∧ log (publish k u st) = log st ++ [Acquire; Complete k; Release]
  | None =>
      same_shared st (publish k u st)
      ∧ log (publish k u st) = log st ++ [Acquire; Release]
  end.
Proof.
  unfold publish. simpl. destruct (chat_pending_map st !! k) as [h|]; simpl.
  - repeat split. by rewrite <- !app_assoc.
  - repeat split. by rewrite <- !app_assoc.
Qed.

Lemma registry_ok_publish k u st : registry_ok st → registry_ok (publish k u st).
Proof.
  intros Hr. pose proof (publish_fields k u st) as Hp.
  destruct (chat_pending_map st !! k) as [h|] eqn:Hk.
  - destruct Hp as (Em & Ee & _). intros k1 h1. rewrite Em, Ee, length_insert.
    intros H1.
    assert (∀ k2 h2, <[k := Holder (event h) (Some u) (created_at h)]>
                       (chat_pending_map st) !! k2 = Some h2 →
                     ∃ h2', chat_pending_map st !! k2 = Some h2' ∧ event h2' = event h2)
      as Hold.
    { intros k2 h2 H2. apply lookup_insert_Some in H2 as [[<- <-]|[_ H2]]; eauto. }
    destruct (Hold _ _ H1) as (h1' & H1' & E1). destruct (Hr _ _ H1') as [Hlt Hd].
    split; [lia|]. intros k2 h2 H2 E.
    destruct (Hold _ _ H2) as (h2' & H2' & E2). eapply Hd; [done|]. congruence.
  - destruct Hp as ((Em & Ee & _) & _). by eapply registry_ok_same.
Qed.

(** What publishing under another key does to the entry of [k]: nothing. *)
Lemma publish_other k ev k' u st :
  pending k ev st → k' ≠ k →
  pending k ev (publish k' u st)
  ∧ invocations k (publish k' u st) = invocations k st.
Proof.
  intros Hp Hne. pose proof Hp as (Hr & [created Hh] & Hs).
  pose proof (publish_fields k' u st) as Hf.
  destruct (chat_pending_map st !! k') as [h|] eqn:Hk.
  - destruct Hf as (Em & Ee & _ & El). split.
    + split; [by apply registry_ok_publish|]. split.
      * exists created. rewrite Em. by rewrite lookup_insert_ne.
      * unfold is_set in *. rewrite Ee. rewrite list_lookup_insert_ne; [done|].
        intros E. apply Hne. destruct (Hr _ _ Hh) as [_ Hd]. by eapply Hd.
    + erewrite invocations_log; [|exact El]. simpl. lia.
  - destruct Hf as ((Em & Ee & _) & El). split; [by eapply pending_same|].
    erewrite invocations_log; [|exact El]. simpl. lia.
Qed.

Lemma record_last_fields r u now st :
  chat_pending_map (record_last r u now st) = chat_pending_map st
  ∧ events (record_last r u now st) = events st
  ∧ cleanups (record_last r u now st) = cleanups st
  ∧ log (record_last r u now st) = log st.
Proof. unfold record_last. by destruct (_ <? _)%Z. Qed.

Lemma pending_record_last k ev r u now st :
  pending k ev st →
  pending k ev (record_last r u now st)
  ∧ invocations k (record_last r u now st) = invocations k st.
Proof.
  intros Hp. destruct (record_last_fields r u now st) as (Em & Ee & _ & El).
  split; [by eapply pending_same|]. unfold invocations. by rewrite El.
Qed.

Lemma leader_done_other k ev r o now why st :
  pending k ev st → key_of r ≠ k →
  pending k ev (fst (chat_leader_done r o now why st))
  ∧ invocations k (fst (chat_leader_done r o now why st)) = invocations k st.
Proof.
  intros Hp Hne. destruct o as [u|e|e]; cbn [chat_leader_done];
    try (by apply publish_other).
  destruct (publish_other k ev (key_of r) u st Hp Hne) as [H1 H2].
  destruct (pending_record_last k ev r u now _ H1) as [H3 H4].
  destruct (renders (respond (Some u))); cbn [fst].
  - split; [done|congruence].
  - destruct (publish_other k ev (key_of r)
                (error_snapshot 500 (py "AI API request failed: " ++ why)) _ H3 Hne)
      as [H5 H6].
    split; [done|congruence].
Qed.

Lemma follower_wake_frame k ev r now why st :
  pending k ev st →
  pending k ev (fst (chat_follower_wake r now why st))
  ∧ invocations k (fst (chat_follower_wake r now why st)) = invocations k st.
Proof.
  intros Hp. unfold chat_follower_wake.
  destruct (chat_pending_map st !! key_of r ≫= result) as [u|]; simpl; [|done].
  by apply pending_record_last.
Qed.

Lemma registry_ok_delete k st st' :
  registry_ok st → chat_pending_map st' = delete k (chat_pending_map st) →
  events st' = events st → registry_ok st'.
Proof.
  intros Hr Em Ee k1 h1. rewrite Em, Ee. intros H1.
  apply lookup_delete_Some in H1 as [_ H1]. destruct (Hr _ _ H1) as [Hlt Hd].
  split; [done|]. intros k2 h2 H2 E. apply lookup_delete_Some in H2 as [_ H2]. by eapply Hd.
Qed.

(** The delayed cleanup never removes an entry that is still in flight. *)
Lemma cleanup_frame k ev key created cl st :
  pending k ev st →
  pending k ev (_cleanup_pending_later key created (set_cleanups cl st))
  ∧ invocations k (_cleanup_pending_later key created (set_cleanups cl st))
    = invocations k st.
Proof.
  intros Hp. pose proof Hp as (Hr & [cr Hh] & Hs).
  unfold _cleanup_pending_later. simpl.
  destruct (chat_pending_map st !! key) as [h|] eqn:Hk; simpl.
  - destruct (bool_decide (created_at h = created)
              && is_set (note Acquire (set_cleanups cl st)) (event h)) eqn:Hb; simpl.
    + apply andb_true_iff in Hb as [_ Hb].
      assert (key ≠ k) as Hne.
      { intros ->. rewrite Hh in Hk. inversion Hk; subst. simpl in Hb.
        unfold is_set in *. simpl in Hb. congruence. }
      split.
      * split; [by eapply registry_ok_delete|]. split; [|done].
        exists cr. simpl. by rewrite lookup_delete_ne.
      * erewrite invocations_log; [|simpl; by rewrite <- !app_assoc]. simpl. lia.
    + split; [by eapply pending_same|].
      erewrite invocations_log; [|simpl; by rewrite <- !app_assoc]. simpl. lia.
  - split; [by eapply pending_same|].
    erewrite invocations_log; [|simpl; by rewrite <- !app_assoc]. simpl. lia.
Qed.

Lemma last_begin_frame k ev r why st :
  pending k ev st →
  pending k ev (fst (last_begin r why st))
  ∧ invocations k (fst (last_begin r why st)) = invocations k st.
Proof.
  intros Hp.
  assert (∀ st0, (let '(st, event) := in_flight (key_of r) st0 in
                  match event with
                  | Some ev => (st, Wait ev)
                  | None => (st, Answer no_content)
                  end).1 = (in_flight (key_of r) st0).1) as E.
  { intros st0. destruct (in_flight (key_of r) st0) as [s [e|]]; done. }
  assert (pending k ev (in_flight (key_of r) st).1
          ∧ invocations k (in_flight (key_of r) st).1 = invocations k st) as Hin.
  { split; [by eapply pending_same|].
    erewrite invocations_log; [|apply in_flight_log]. simpl. lia. }
  unfold last_begin. destruct (last_chat_completion_entry st) as [e|].
  - destruct (same (req e) r); [done|]. by rewrite E.
  - by rewrite E.
Qed.

Lemma tasks_insert_sole k i i0 t (ts : list task) :
  i0 ≠ i →
  (∀ r, t = Leading r → key_of r ≠ k) →
  (∃ r, ts !! i = Some (Leading r) ∧ key_of r = k) →
  (∀ j r, ts !! j = Some (Leading r) → key_of r = k → j = i) →
  (∃ r, <[i0 := t]> ts !! i = Some (Leading r) ∧ key_of r = k)
  ∧ (∀ j r, <[i0 := t]> ts !! j = Some (Leading r) → key_of r = k → j = i).
Proof.
  intros Hne Ht (r & Hi & Hk) Hu. split.
  - exists r. by rewrite list_lookup_insert_ne.
  - intros j r0 Hj Hk0. destruct (decide (i0 = j)) as [->|Hn].
    + apply list_lookup_insert_Some in Hj as [(_ & Et & _)|[? ?]]; [|done].
      by destruct (Ht r0 Et).
    + rewrite list_lookup_insert_ne in Hj by done. by eapply Hu.
Qed.

Lemma tasks_app_sole k i t (ts : list task) :
  (∀ r, t ≠ Leading r) →
  (∃ r, ts !! i = Some (Leading r) ∧ key_of r = k) →
  (∀ j r, ts !! j = Some (Leading r) → key_of r = k → j = i) →
  (∃ r, (ts ++ [t]) !! i = Some (Leading r) ∧ key_of r = k)
  ∧ (∀ j r, (ts ++ [t]) !! j = Some (Leading r) → key_of r = k → j = i).
Proof.
  intros Ht (r & Hi & Hk) Hu. split.
  - exists r. split; [|done]. by apply lookup_app_l_Some.
  - intros j r0 Hj Hk0. apply lookup_app_Some in Hj as [Hj|[_ Hj]]; [by eapply Hu|].
    destruct (j - length ts)%nat as [|[|?]]; simpl in Hj; try done.
    inversion Hj. by destruct (Ht r0).
Qed.

(** While the leader of [k] is suspended in its upstream call, a turn of
    the event loop keeps it the only leader of [k], keeps the entry in
    flight, and starts no upstream call for [k]. *)
Lemma window_step k i ev c c' :
  sole_leader k i ev c → step_keeping i c c' →
  sole_leader k i ev c' ∧ invocations k (shared c') = invocations k (shared c).
Proof.
  intros (Hr & Hh & Hs & Hi & Hu) [Hstep (r'' & Hi')].
  assert (Hp : pending k ev (shared c)) by done.
  assert (Hmk : ∀ st' (ts' : list task),
            pending k ev st' ∧ invocations k st' = invocations k (shared c) →
            (∃ r, ts' !! i = Some (Leading r) ∧ key_of r = k)
            ∧ (∀ j r, ts' !! j = Some (Leading r) → key_of r = k → j = i) →
            sole_leader k i ev (Config st' ts')
            ∧ invocations k st' = invocations k (shared c)).
  { intros st' ts' [(? & ? & ?) ?] [? ?]. split; [|done]. unfold sole_leader. simpl. tauto. }
  destruct Hi as (r & Hi & Hk).
  inversion Hstep; subst; simpl in *.
  - apply Hmk; [done|]. apply tasks_app_sole; eauto; done.
  - apply Hmk; [done|]. apply tasks_app_sole; eauto; done.
  - assert (i0 ≠ i) by congruence.
    destruct (decide (key_of r0 = key_of r)) as [Ek|Ek].
    + destruct mm.
      * apply Hmk; [done|]. apply tasks_insert_sole; eauto; done.
      * destruct (chat_begin_follows _ _ _ now _ Hp Ek) as (Eb & (Em & Ee & _) & El).
        rewrite Eb. apply Hmk.
        -- split; [by eapply pending_same|].
           erewrite invocations_log; [|exact El]. simpl. lia.
        -- apply tasks_insert_sole; eauto; done.
    + apply Hmk; [by apply chat_begin_other|].
      apply tasks_insert_sole; eauto.
      intros r1. destruct (chat_begin mm r0 now st).2; simpl; congruence.
  - assert (i0 ≠ i).
    { intros ->. rewrite list_lookup_insert_eq in Hi' by (by eapply lookup_lt_Some). done. }
    assert (key_of r0 ≠ key_of r) by (intros E; eauto).
    apply Hmk; [by apply leader_done_other|].
    apply tasks_insert_sole; eauto; done.
  - assert (i0 ≠ i) by congruence.
    apply Hmk; [by apply follower_wake_frame|].
    apply tasks_insert_sole; eauto; done.
  - assert (i0 ≠ i) by congruence.
    apply Hmk; [done|]. apply tasks_insert_sole; eauto; done.
  - apply Hmk; [by apply cleanup_frame|]. eauto.
  - assert (i0 ≠ i) by congruence.
    apply Hmk; [by apply last_begin_frame|].
    apply tasks_insert_sole; eauto.
    intros r1. destruct (last_begin r0 why st).2; simpl; congruence.
  - assert (i0 ≠ i) by congruence.
    apply Hmk; [done|]. apply tasks_insert_sole; eauto; done.
  - assert (i0 ≠ i) by congruence.
    apply Hmk; [done|]. apply tasks_insert_sole; eauto; done.
  - assert (i0 ≠ i).
    { intros ->. rewrite list_lookup_insert_eq in Hi' by (by eapply lookup_lt_Some). done. }
    apply Hmk; [done|]. apply tasks_insert_sole; eauto; done.
  - apply Hmk; [|eauto]. split; [by eapply pending_same|done].
Qed.

Lemma window_steps k i ev c c' :
  sole_leader k i ev c → rtc (step_keeping i) c c' →
  sole_leader k i ev c' ∧ invocations k (shared c') = invocations k (shared c).
Proof.
  intros Hs Hr. induction Hr as [|c1 c2 c3 H12 H23 IH]; [done|].
  destruct (window_step _ _ _ _ _ Hs H12) as [H2 E2].
  destruct (IH H2) as [H3 E3]. split; [done|congruence].
Qed.

Lemma step_keeping_leader i c c' r :
  step_keeping i c c' → tasks c !! i = Some (Leading r) → tasks c' !! i = Some (Leading r).
Proof.
  intros [Hs (r' & Hi')] Hi. inversion Hs; subst; simpl in *; try done;
    try (by apply lookup_app_l_Some);
    (destruct (decide (i0 = i)) as [->|Hne];
     [|by rewrite list_lookup_insert_ne]);
    try congruence.
  all: rewrite list_lookup_insert_eq in Hi' by (by eapply lookup_lt_Some); done.
Qed.

Lemma steps_keeping_leader i c c' r :
  rtc (step_keeping i) c c' → tasks c !! i = Some (Leading r) →
  tasks c' !! i = Some (Leading r).
Proof. induction 1; eauto using step_keeping_leader. Qed.

(** The first caller for a key that has no entry becomes its leader. *)
Lemma election c i r now :
  registry_ok (shared c) →
  chat_pending_map (shared c) !! key_of r = None →
  (∀ j r', tasks c !! j = Some (Leading r') → key_of r' ≠ key_of r) →
  tasks c !! i = Some (Arrived false r) →
  let c1 := Config (fst (chat_begin false r now (shared c)))
                   (<[i := Leading r]> (tasks c)) in
  step c c1
  ∧ sole_leader (key_of r) i (length (events (shared c))) c1
  ∧ invocations (key_of r) (shared c1) = S (invocations (key_of r) (shared c)).
Proof.
  intros Hr Hn Hl Hi c1. destruct c as [st ts]. cbn [shared tasks] in *.
  destruct (chat_begin_registers r now st Hn) as (Eb & Em & Ee & _ & _ & El).
  subst c1. set (st1 := fst (chat_begin false r now st)) in *.
  split; [|split].
  - pose proof (step_begin st ts i false r now Hi) as Hs. by rewrite Eb in Hs.
  - unfold sole_leader. cbn [shared tasks].
    split; [by eapply registry_ok_register|]. split; [|split; [|split]].
    + exists now. rewrite Em. apply lookup_insert_eq.
    + unfold is_set. rewrite Ee. rewrite lookup_app_r by lia.
      by rewrite Nat.sub_diag.
    + exists r. split; [|done]. apply list_lookup_insert_eq. by eapply lookup_lt_Some.
    + intros j r' Hj Hk. destruct (decide (i = j)) as [|Hne]; [done|].
      rewrite list_lookup_insert_ne in Hj by done. by destruct (Hl _ _ Hj).
  - cbn [shared]. erewrite invocations_log; [|exact El]. simpl.
    rewrite bool_decide_eq_true_2 by done. simpl. lia.
Qed.

Lemma publish_set_last k u l st :
  chat_pending_map (publish k u (set_last l st)) = chat_pending_map (publish k u st)
  ∧ events (publish k u (set_last l st)) = events (publish k u st).
Proof. unfold publish. simpl. by destruct (chat_pending_map st !! k). Qed.

Lemma publish_twice k u u' st h :
  chat_pending_map st !! k = Some h →
  chat_pending_map (publish k u' (publish k u st))
  = <[k := Holder (event h) (Some u') (created_at h)]> (chat_pending_map st)
  ∧ events (publish k u' (publish k u st)) = <[event h := true]> (events st).
Proof.
  intros Hh. pose proof (publish_fields k u st) as H1. rewrite Hh in H1.
  destruct H1 as (Em & Ee & _).
  pose proof (publish_fields k u' (publish k u st)) as H2.
  rewrite Em, lookup_insert_eq in H2. cbn [event created_at] in H2.
  destruct H2 as (Em' & Ee' & _).
  split.
  - by rewrite Em', insert_insert_eq.
  - rewrite Ee', Ee. by rewrite list_insert_insert_eq.
Qed.

(** The leader's completion stores its result under the key and sets the
    event; its own answer has the status of what it stored, and is the
    response of upstream when upstream returned one that can be rendered. *)
Lemma completion k i ev c r o now why :
  sole_leader k i ev c → tasks c !! i = Some (Leading r) → key_of r = k →
  let st' := fst (chat_leader_done r o now why (shared c)) in
  let a := snd (chat_leader_done r o now why (shared c)) in
  step c (Config st' (<[i := Done a]> (tasks c)))
  ∧ (∃ created,
       chat_pending_map st' !! k = Some (Holder ev (Some (published o why)) created))
  ∧ is_set st' ev = true
  ∧ status_of a = status_of (respond (Some (published o why)))
  ∧ (∀ u, o = Returned u → renders (respond (Some u)) = true → a = respond (Some u)).
Proof.
  intros (Hr & [created Hh] & Hs & _ & _) Hi <- st' a. destruct c as [st ts].
  cbn [shared tasks] in *.
  split; [by apply step_leader_done|].
  assert (chat_pending_map st'
          = <[key_of r := Holder ev (Some (published o why)) created]> (chat_pending_map st)
          ∧ events st' = <[ev := true]> (events st)) as [Em Ee].
  { subst st'. unfold chat_leader_done, published.
    destruct o as [u|e|e]; cbn [fst].
    - destruct (renders (respond (Some u))); cbn [fst].
      + destruct (record_last_fields r u now (publish (key_of r) u st)) as (-> & -> & _).
        pose proof (publish_fields (key_of r) u st) as Hf. rewrite Hh in Hf.
        by destruct Hf as (? & ? & _).
      + set (u' := error_snapshot 500 _). unfold record_last.
        destruct (status_code u <? 400)%Z.
        * destruct (publish_set_last (key_of r) u' (Some (Entry r u now))
                      (publish (key_of r) u st)) as [-> ->].
          by apply (publish_twice _ u u' st _ Hh).
        * by apply (publish_twice _ u u' st _ Hh).
    - pose proof (publish_fields (key_of r) (error_snapshot 502 (py "Upstream request failed: " ++ e)) st) as Hf.
      rewrite Hh in Hf. by destruct Hf as (? & ? & _).
    - pose proof (publish_fields (key_of r) (error_snapshot 500 (py "AI API request failed: " ++ e)) st) as Hf.
      rewrite Hh in Hf. by destruct Hf as (? & ? & _). }
  split; [|split; [|split]].
  - exists created. rewrite Em. apply lookup_insert_eq.
  - unfold is_set. rewrite Ee. rewrite list_lookup_insert_eq; [done|].
    by destruct (Hr _ _ Hh).
  - subst a. unfold chat_leader_done, published. destruct o as [u|e|e]; cbn [snd]; try done.
    by destruct (renders (respond (Some u))).
  - intros u -> Hu. subst a. unfold chat_leader_done. by rewrite Hu.
Qed.

(** A follower that wakes while the entry holds a result answers with it,
    if it can render it. *)
Lemma delivery r now why st h u :
  chat_pending_map st !! key_of r = Some h → result h = Some u →
  renders (respond (Some u)) = true →
  snd (chat_follower_wake r now why st) = respond (Some u).
Proof.
  intros Hh Hu Hr. unfold chat_follower_wake. rewrite Hh; simpl; rewrite Hu.
  cbn [snd]. by rewrite Hr.
Qed.

(** C1 (as amended): when a caller arrives for a key that has no entry in
    the registry and no upstream call in flight, it registers the entry and
    starts the one upstream call, in two consecutive locked blocks of a
    single segment.  For as long as that call is in flight, whatever the
    event loop runs, the caller stays the only leader of the key, no
    further upstream call is started for the key, and every other caller
    for the key becomes a follower of the entry's event.  When the call
    returns or raises, the leader stores what it obtained, an error
    snapshot in place of a response that cannot be rendered, and sets the
    event; a follower that wakes while the entry holds that result and can
    render it answers with it: the status is the leader's, and so is the
    body when upstream returned a response that can be rendered.  A leader
    that is cancelled in its call stores nothing and leaves the event
    unset. *)
Theorem singleflight_from_fresh_key c i r now :
  registry_ok (shared c) →
  chat_pending_map (shared c) !! key_of r = None →
  (∀ j r', tasks c !! j = Some (Leading r') → key_of r' ≠ key_of r) →
  tasks c !! i = Some (Arrived false r) →
  let k := key_of r in
  let ev := length (events (shared c)) in
  let c1 := Config (fst (chat_begin false r now (shared c)))
                   (<[i := Leading r]> (tasks c)) in
  step c c1
  ∧ log (shared c1)
    = log (shared c) ++ [Acquire; Lookup k; Release; Acquire; Register k; Release; Invoke r]
  ∧ ∀ c2, rtc (step_keeping i) c1 c2 →
      sole_leader k i ev c2
      ∧ invocations k (shared c2) = S (invocations k (shared c))
      ∧ (∀ r' now', key_of r' = k →
           snd (chat_begin false r' now' (shared c2)) = Follower ev
           ∧ invocations k (fst (chat_begin false r' now' (shared c2)))
             = invocations k (shared c2))
      ∧ (step c2 (Config (shared c2) (<[i := Cancelled]> (tasks c2)))
         ∧ pending k ev (shared c2))
      ∧ ∀ o now' why,
          let st3 := fst (chat_leader_done r o now' why (shared c2)) in
          let a := snd (chat_leader_done r o now' why (shared c2)) in
          step c2 (Config st3 (<[i := Done a]> (tasks c2)))
          ∧ (∃ created,
               chat_pending_map st3 !! k = Some (Holder ev (Some (published o why)) created))
          ∧ is_set st3 ev = true
          ∧ status_of a = status_of (respond (Some (published o why)))
          ∧ (∀ u, o = Returned u → renders (respond (Some u)) = true →
                  a = respond (Some u))
          ∧ (∀ r' now'' why' st4 h, key_of r' = k →
               chat_pending_map st4 !! k = Some h → result h = Some (published o why) →
               snd (chat_follower_wake r' now'' why' st4)
               = if renders (respond (Some (published o why)))
                 then respond (Some (published o why))
                 else Unhandled why').
Proof.
  intros Hr Hn Hl Hi k ev c1.
  destruct (election c i r now Hr Hn Hl Hi) as (Hs & Hsole & Hinv).
  split; [exact Hs|]. split.
  { by destruct (chat_begin_registers r now (shared c) Hn) as (_ & _ & _ & _ & _ & El). }
  intros c2 Hrun.
  destruct (window_steps _ _ _ _ _ Hsole Hrun) as [Hsole2 Hinv2].
  assert (Hi2 : tasks c2 !! i = Some (Leading r)).
  { eapply steps_keeping_leader; [exact Hrun|]. subst c1. cbn [tasks].
    apply list_lookup_insert_eq. by eapply lookup_lt_Some. }
  assert (Hp : pending k ev (shared c2)).
  { destruct Hsole2 as (? & ? & ? & _). unfold pending. tauto. }
  split; [exact Hsole2|]. split; [unfold k; congruence|]. split; [|split].
  - intros r' now' Hk.
    destruct (chat_begin_follows k ev r' now' _ Hp Hk) as (Eb & _ & El).
    split; [done|]. erewrite invocations_log; [|exact El]. simpl. lia.
  - split; [|done]. destruct c2 as [st2 ts2]. cbn [shared tasks] in *.
    by eapply step_cancel.
  - intros o now' why st3 a.
    destruct (completion k i ev c2 r o now' why Hsole2 Hi2 eq_refl)
      as (H1 & H2 & H3 & H4 & H5).
    repeat (split; [done|]).
    intros r' now'' why' st4 h <- Hh Hres. unfold chat_follower_wake.
    rewrite Hh. simpl. by rewrite Hres.
Qed.

Lemma singleflight_from_fresh_key_witness :
  let c := Config initial [Arrived false rq0; Arrived false rq0] in
  let k := key_of rq0 in
  let c1 := Config (fst (chat_begin false rq0 (ts_of 1) initial))
                   [Leading rq0; Arrived false rq0] in
  step c c1
  ∧ log (shared c1) = [Acquire; Lookup k; Release; Acquire; Register k; Release; Invoke rq0]
  ∧ ∀ c2, rtc (step_keeping 0) c1 c2 →
      sole_leader k 0 0 c2
      ∧ invocations k (shared c2) = 1%nat
      ∧ (∀ r' now', key_of r' = k →
           snd (chat_begin false r' now' (shared c2)) = Follower 0
           ∧ invocations k (fst (chat_begin false r' now' (shared c2)))
             = invocations k (shared c2))
      ∧ (step c2 (Config (shared c2) (<[0%nat := Cancelled]> (tasks c2)))
         ∧ pending k 0 (shared c2))
      ∧ ∀ o now' why,
          let st3 := fst (chat_leader_done rq0 o now' why (shared c2)) in
          let a := snd (chat_leader_done rq0 o now' why (shared c2)) in
          step c2 (Config st3 (<[0%nat := Done a]> (tasks c2)))
          ∧ (∃ created,
               chat_pending_map st3 !! k = Some (Holder 0 (Some (published o why)) created))
          ∧ is_set st3 0 = true
          ∧ status_of a = status_of (respond (Some (published o why)))
          ∧ (∀ u, o = Returned u → renders (respond (Some u)) = true →
                  a = respond (Some u))
          ∧ (∀ r' now'' why' st4 h, key_of r' = k →
               chat_pending_map st4 !! k = Some h → result h = Some (published o why) →
               snd (chat_follower_wake r' now'' why' st4)
               = if renders (respond (Some (published o why)))
                 then respond (Some (published o why))
                 else Unhandled why').
Proof.
  apply (singleflight_from_fresh_key
           (Config initial [Arrived false rq0; Arrived false rq0]) 0 rq0 (ts_of 1)).
  - intros k h H. simpl in H. by rewrite lookup_empty in H.
  - reflexivity.
  - intros [|[|j]] r' H; simpl in H; discriminate.
  - reflexivity.
Defined.

(** C1 (as stated) fails.  Two callers that share the key of a call that
    has just completed (its entry stays registered, event set, until the
    delayed cleanup) both become leaders and both call upstream.  And the
    decision and the registration of a leader are made in two locked
    blocks, the lock being released in between. *)
Lemma callers_after_completion_both_invoke :
  let k := key_of rq0 in
  let b1 := chat_begin false rq0 (ts_of 3) st_cached in
  let b2 := chat_begin false rq0 (ts_of 4) (fst b1) in
  is_Some (chat_pending_map st_cached !! k)
  ∧ snd b1 = Leader ∧ snd b2 = Leader
  ∧ invocations k (fst b2) = (invocations k st_cached + 2)%nat
  ∧ log (fst (chat_begin false rq0 (ts_of 1) initial))
    = [Acquire; Lookup k; Release; Acquire; Register k; Release; Invoke rq0].
Proof. repeat split; try reflexivity. vm_compute. eauto. Qed.

(** When the upstream call fails, the leader and a follower that takes the
    stored result answer with the same status and with different bodies:
    the leader raises an [HTTPException] (rendered with the key "detail"),
    the follower gets the stored dictionary (key "error"). *)
Example failed_call_bodies_differ e why :
  let a := snd (chat_leader_done rq0 (HTTPError e) (ts_of 2) why initial) in
  let f := respond (Some (published (HTTPError e) why)) in
  status_of a = 502%Z ∧ status_of f = 502%Z ∧ body_of a ≠ body_of f.
Proof. repeat split. vm_compute. discriminate. Qed.

(** When upstream returns a response that cannot be rendered, the leader
    answers 500 and leaves a 500 snapshot for the followers. *)
Example unsendable_response_is_a_500 why :
  let done := chat_leader_done rq0 (Returned unsendable) (ts_of 2) why
                (fst (chat_begin false rq0 (ts_of 1) initial)) in
  snd done = HTTPException 500 (py "AI API request failed: " ++ why)
  ∧ published (Returned unsendable) why
    = error_snapshot 500 (py "AI API request failed: " ++ why).
Proof. by split. Qed.

(** ** Reading back what was written *)

(** C2, at a text with a carriage return: the write stores the bytes of the
    text as they are, the read hands back the text with its line end
    rewritten, so the round trip does not return the content written. *)
Theorem crlf_is_not_read_back :
  let written := write_file fm0 (py "notes/a.txt") crlf_text (ts_of 1) (rnd_of 1) w0 in
  let read := read_file fm0 (py "notes/a.txt") (fst written) in
  snd written = inr true
  ∧ files (fst written) !! Path true [py "app"; py "data"; py "notes"; py "a.txt"]
    = Some [97; 13; 10; 98]
  ∧ snd read = inr (Some [97; 10; 98])
  ∧ snd read ≠ inr (Some crlf_text).
Proof. repeat split; try reflexivity. vm_compute. discriminate. Qed.

Example text_is_read_back :
  let content := py "hello" ++ [10; 12354; 128512] in
  snd (read_file fm0 (py "notes/a.txt")
         (fst (write_file fm0 (py "notes/a.txt") content (ts_of 1) (rnd_of 1) w0)))
  = inr (Some content).
Proof. reflexivity. Qed.

Example hello_then_hello_again :
  let w1 := fst (write_file fm0 (py "notes/a.txt") (py "hello") (ts_of 1) (rnd_of 1) w0) in
  let w2 := fst (write_file fm0 (py "notes/a.txt") (py "hello again") (ts_of 2) (rnd_of 2) w1) in
  snd (read_file fm0 (py "notes/a.txt") w2) = inr (Some (py "hello again"))
  ∧ filter (fun p => parent p = Path true [py "app"; py "backups"; py "notes"])
           (elements (dom (files w2)))
    = [Path true [py "app"; py "backups"; py "notes"; py "a." ++ ts_of 2 ++ py ".txt.bak"]]
  ∧ files w2 !! Path true [py "app"; py "backups"; py "notes"; py "a." ++ ts_of 2 ++ py ".txt.bak"]
    = Some (py "hello").
Proof. vm_compute. done. Qed.

(** ** Backup rotation *)

(** C3, at a directory that holds backups of two files: the rotation run
    by a write to [a.txt] takes the backup of [a.1.txt] for one of its
    own (its name starts with [a.] and ends with [.txt.bak]) and, thirty
    newer names being there, deletes it. *)
Theorem rotation_deletes_backup_of_other_file :
  let other := backup_of (py "a.1") 2 (py ".txt") in
  let written := write_file fm0 (py "a.txt") (content_of 33) (ts_of 33) (rnd_of 33)
                            w_two_files in
  (stem (parse (py "a.1.txt")), suffix (parse (py "a.1.txt"))) = (py "a.1", py ".txt")
  ∧ (stem (parse (py "a.txt")), suffix (parse (py "a.txt"))) = (py "a", py ".txt")
  ∧ (files w_two_files !! other, snd written, files (fst written) !! other,
     length (backup_names (fst written)))
    = (Some (content_of 1), inr true, None, 30%nat).
Proof. split; [reflexivity|]. split; [reflexivity|]. vm_compute. reflexivity. Qed.

Example thirty_five_overwrites_keep_thirty :
  backup_names (writes fm0 (py "a.txt") 36 1 w0)
  = map (fun n => py "a." ++ ts_of n ++ py ".txt.bak")
        (map N.of_nat (rev (seq 7 30))).
Proof. vm_compute. reflexivity. Qed.

(** ** The lock is never waited for *)

Lemma lock_state_app h a b :
  lock_state h (a ++ b) = lock_state h a ≫= fun h' => lock_state h' b.
Proof.
  revert h. induction a as [|o a IH]; intros h; simpl; [done|].
  destruct o, h; simpl; try done; apply IH.
Qed.

Lemma lock_free_log st st' ops :
  log st' = log st ++ ops → lock_state false ops = Some false →
  lock_free st → lock_free st'.
Proof.
  unfold lock_free. intros -> Ho Hl. by rewrite lock_state_app, Hl.
Qed.

Lemma chat_begin_lock mm r now st :
  lock_free st → lock_free (fst (chat_begin mm r now st)).
Proof.
  unfold chat_begin. destruct mm; [done|]. unfold in_flight. simpl.
  destruct (chat_pending_map st !! key_of r) as [h|] eqn:Hm; simpl.
  - destruct (is_set _ (event h)); simpl; rewrite ?Hm;
      (eapply lock_free_log; [simpl; by rewrite <- !app_assoc|done]).
  - rewrite ?Hm. eapply lock_free_log; [simpl; by rewrite <- !app_assoc|done].
Qed.

Lemma publish_lock k u st : lock_free st → lock_free (publish k u st).
Proof.
  pose proof (publish_fields k u st) as Hf.
  destruct (chat_pending_map st !! k); [destruct Hf as (_ & _ & _ & El)|destruct Hf as [_ El]];
    by eapply lock_free_log.
Qed.

Lemma leader_done_lock r o now why st :
  lock_free st → lock_free (fst (chat_leader_done r o now why st)).
Proof.
  intros Hl. destruct o as [u|e|e]; cbn [chat_leader_done];
    try (by apply publish_lock).
  assert (lock_free (record_last r u now (publish (key_of r) u st))) as H.
  { unfold lock_free.
    destruct (record_last_fields r u now (publish (key_of r) u st)) as (_ & _ & _ & ->).
    by apply publish_lock. }
  destruct (renders (respond (Some u))); cbn [fst]; [done|]. by apply publish_lock.
Qed.

Lemma follower_wake_lock r now why st :
  lock_free st → lock_free (fst (chat_follower_wake r now why st)).
Proof.
  intros Hl. unfold chat_follower_wake.
  destruct (chat_pending_map st !! key_of r ≫= result) as [u|]; simpl; [|done].
  unfold lock_free. by destruct (record_last_fields r u now st) as (_ & _ & _ & ->).
Qed.

Lemma cleanup_lock key created cl st :
  lock_free st → lock_free (_cleanup_pending_later key created (set_cleanups cl st)).
Proof.
  unfold _cleanup_pending_later. simpl.
  destruct (chat_pending_map st !! key) as [h|]; simpl.
  - destruct (_ && _); simpl;
      (eapply lock_free_log; [simpl; by rewrite <- !app_assoc|done]).
  - eapply lock_free_log; [simpl; by rewrite <- !app_assoc|done].
Qed.

Lemma last_begin_lock r why st : lock_free st → lock_free (fst (last_begin r why st)).
Proof.
  intros Hl.
  assert (lock_free (in_flight (key_of r) st).1) as Hin
    by (eapply lock_free_log; [apply in_flight_log|done..]).
  unfold last_begin. destruct (last_chat_completion_entry st) as [e|];
    [destruct (same (req e) r); [done|]|];
    by destruct (in_flight (key_of r) st) as [s [ev|]].
Qed.

(** Every locked block is left before the coroutine suspends, so whenever a
    coroutine runs the lock is free: entering a block never waits, and the
    segments of the model run undivided. *)
Lemma lock_is_free_between_segments c c' :
  step c c' → lock_free (shared c) → lock_free (shared c').
Proof.
  intros Hs. inversion Hs; subst; simpl; try done.
  - apply chat_begin_lock.
  - apply leader_done_lock.
  - apply follower_wake_lock.
  - apply cleanup_lock.
  - apply last_begin_lock.
Qed.

Lemma lock_is_free_always c : rtc step (Config initial []) c → lock_free (shared c).
Proof.
  intros H. assert (H0 : lock_free (shared (Config initial []))) by done.
  revert H0. induction H; eauto using lock_is_free_between_segments.
Qed.

(** ** UTF-8 round trip *)

Lemma decode_encode_char c bs rest :
  Codec.encode_char c = Some bs →
  Codec.decode (bs ++ rest) = cons c <$> Codec.decode rest.
Proof.
  unfold Codec.encode_char.
  destruct (c <? 128) eqn:E1.
  { intros [= <-]. simpl. by rewrite E1. }
  destruct (c <? 2048) eqn:E2.
  { intros [= <-]. apply N.ltb_ge in E1. apply N.ltb_lt in E2.
    cbn [app Codec.decode].
    assert (2 ≤ c / 64) by (apply N.div_le_lower_bound; lia).
    assert (c / 64 < 32) by (apply N.Div0.div_lt_upper_bound; lia).
    pose proof (N.mod_upper_bound c 64 ltac:(lia)).
    pose proof (N.div_mod c 64 ltac:(lia)).
    pose proof (N.le_0_l (c mod 64)).
    assert ((192 + c / 64 <? 128) = false) as -> by (apply N.ltb_ge; lia).
    assert (((194 <=? 192 + c / 64) && (192 + c / 64 <=? 223)) = true) as ->
      by (apply andb_true_iff; split; apply N.leb_le; lia).
    assert (Codec.is_cont (128 + c mod 64) = true) as ->
      by (unfold Codec.is_cont; apply andb_true_iff; split; apply N.leb_le; lia).
    assert ((192 + c / 64 - 192) * 64 + (128 + c mod 64 - 128) = c) as -> by lia.
    done. }
  destruct (c <? 65536) eqn:E3.
  { destruct (Codec.is_surrogate c) eqn:Es; [done|].
    intros [= <-]. apply N.ltb_ge in E1, E2. apply N.ltb_lt in E3.
    cbn [app Codec.decode].
    assert (c / 4096 < 16) by (apply N.Div0.div_lt_upper_bound; lia).
    pose proof (N.mod_upper_bound c 64 ltac:(lia)).
    pose proof (N.mod_upper_bound (c / 64) 64 ltac:(lia)).
    pose proof (N.div_mod c 64 ltac:(lia)).
    pose proof (N.div_mod (c / 64) 64 ltac:(lia)).
    pose proof (N.le_0_l (c mod 64)). pose proof (N.le_0_l ((c / 64) mod 64)).
    pose proof (N.le_0_l (c / 4096)).
    assert (c / 64 / 64 = c / 4096) as Hd by (rewrite N.Div0.div_div by lia; done).
    assert ((224 + c / 4096 <? 128) = false) as -> by (apply N.ltb_ge; lia).
    assert (((194 <=? 224 + c / 4096) && (224 + c / 4096 <=? 223)) = false) as ->
      by (apply andb_false_iff; right; apply N.leb_gt; lia).
    assert (((224 <=? 224 + c / 4096) && (224 + c / 4096 <=? 239)) = true) as ->
      by (apply andb_true_iff; split; apply N.leb_le; lia).
    assert ((224 + c / 4096 - 224) * 4096 + (128 + (c / 64) mod 64 - 128) * 64
            + (128 + c mod 64 - 128) = c) as -> by lia.
    assert (Codec.is_cont (128 + (c / 64) mod 64) = true) as ->
      by (unfold Codec.is_cont; apply andb_true_iff; split; apply N.leb_le; lia).
    assert (Codec.is_cont (128 + c mod 64) = true) as ->
      by (unfold Codec.is_cont; apply andb_true_iff; split; apply N.leb_le; lia).
    assert ((2048 <=? c) = true) as -> by (apply N.leb_le; lia).
    by rewrite Es. }
  destruct (c <? 1114112) eqn:E4; [|done].
  intros [= <-]. apply N.ltb_ge in E1, E2, E3. apply N.ltb_lt in E4.
  cbn [app Codec.decode].
  assert (c / 262144 < 5) by (apply N.Div0.div_lt_upper_bound; lia).
  pose proof (N.mod_upper_bound c 64 ltac:(lia)).
  pose proof (N.mod_upper_bound (c / 64) 64 ltac:(lia)).
  pose proof (N.mod_upper_bound (c / 4096) 64 ltac:(lia)).
  pose proof (N.div_mod c 64 ltac:(lia)).
  pose proof (N.div_mod (c / 64) 64 ltac:(lia)).
  pose proof (N.div_mod (c / 4096) 64 ltac:(lia)).
  pose proof (N.le_0_l (c mod 64)). pose proof (N.le_0_l ((c / 64) mod 64)).
  pose proof (N.le_0_l ((c / 4096) mod 64)). pose proof (N.le_0_l (c / 262144)).
  assert (c / 64 / 64 = c / 4096) as Hd by (rewrite N.Div0.div_div by lia; done).
  assert (c / 4096 / 64 = c / 262144) as Hd' by (rewrite N.Div0.div_div by lia; done).
  assert ((240 + c / 262144 <? 128) = false) as -> by (apply N.ltb_ge; lia).
  assert (((194 <=? 240 + c / 262144) && (240 + c / 262144 <=? 223)) = false) as ->
    by (apply andb_false_iff; right; apply N.leb_gt; lia).
  assert (((224 <=? 240 + c / 262144) && (240 + c / 262144 <=? 239)) = false) as ->
    by (apply andb_false_iff; right; apply N.leb_gt; lia).
  assert (((240 <=? 240 + c / 262144) && (240 + c / 262144 <=? 244)) = true) as ->
    by (apply andb_true_iff; split; apply N.leb_le; lia).
  assert ((240 + c / 262144 - 240) * 262144 + (128 + (c / 4096) mod 64 - 128) * 4096
          + (128 + (c / 64) mod 64 - 128) * 64 + (128 + c mod 64 - 128) = c) as -> by lia.
  assert (Codec.is_cont (128 + (c / 4096) mod 64) = true) as ->
    by (unfold Codec.is_cont; apply andb_true_iff; split; apply N.leb_le; lia).
  assert (Codec.is_cont (128 + (c / 64) mod 64) = true) as ->
    by (unfold Codec.is_cont; apply andb_true_iff; split; apply N.leb_le; lia).
  assert (Codec.is_cont (128 + c mod 64) = true) as ->
    by (unfold Codec.is_cont; apply andb_true_iff; split; apply N.leb_le; lia).
  assert ((65536 <=? c) = true) as -> by (apply N.leb_le; lia).
  assert ((c <? 1114112) = true) as -> by (apply N.ltb_lt; lia).
  done.
Qed.

(** What [encode] accepts, [decode] gives back. *)
Lemma decode_encode s b : Codec.encode s = Some b → Codec.decode b = Some s.
Proof.
  revert b. induction s as [|c s IH]; intros b; simpl.
  - by intros [= <-].
  - destruct (Codec.encode_char c) as [bs|] eqn:Ec; [|done].
    destruct (Codec.encode s) as [b'|]; [|done]. intros [= <-].
    rewrite (decode_encode_char _ _ _ Ec). by rewrite (IH b' eq_refl).
Qed.

(** ** Reading back a successful write *)

Lemma bind_inr_inv {A B} (m : io A) (k : A → io B) w w' b :
  bind m k w = (w', inr b) → ∃ a w1, m w = (w1, inr a) ∧ k a w1 = (w', inr b).
Proof. unfold bind. destruct (m w) as [w1 [e|a]]; [done|]. eauto. Qed.

Lemma realpath_walk_result rest : ∀ cur w w',
  snd (realpath_walk cur rest w) = snd (realpath_walk cur rest w').
Proof.
  induction rest as [|n rest IH]; intros cur w w'; simpl; [done|].
  case_bool_decide; [apply IH|].
  destruct (lstat_cases (Path true (cur ++ [n])) w) as [[Hn E]|[Hn E]];
    destruct (lstat_cases (Path true (cur ++ [n])) w') as [[Hn' E']|[Hn' E']];
    try done; unfold bind; rewrite E, E'; [done|apply IH].
Qed.

Lemma resolve_result p w w' :
  is_absolute p = true → snd (resolve p w) = snd (resolve p w').
Proof.
  intros Hp. unfold resolve, bind, get, ret. rewrite Hp.
  pose proof (realpath_walk_result (parts p) [] w w') as H.
  destruct (realpath_walk [] (parts p) w) as [w1 [e|r]],
           (realpath_walk [] (parts p) w') as [w1' [e'|r']]; simpl in *; congruence.
Qed.

Lemma target_absolute self file_path :
  is_absolute (data_dir self) = true → is_absolute (target self file_path) = true.
Proof. intros H. unfold target, joinpath. by destruct (is_absolute (parse file_path)) eqn:E. Qed.

(** With an absolute data directory the verdict of the validation depends
    on the path alone. *)
Lemma validate_result self file_path w w' :
  is_absolute (data_dir self) = true →
  snd (_validate_file_path self file_path w) = snd (_validate_file_path self file_path w').
Proof.
  intros Ha. unfold _validate_file_path.
  destruct (negb _); [done|]. fold (target self file_path).
  pose proof (resolve_result (target self file_path) w w' (target_absolute _ _ Ha)) as H1.
  unfold bind at 1 3.
  destruct (resolve (target self file_path) w) as [w1 [e|full]],
           (resolve (target self file_path) w') as [w1' [e'|full']];
    simpl in H1; try congruence; [simpl; congruence|].
  assert (full' = full) as -> by congruence.
  pose proof (resolve_result (data_dir self) w1 w1' Ha) as H2.
  unfold bind.
  destruct (resolve (data_dir self) w1) as [w2 [e|root]],
           (resolve (data_dir self) w1') as [w2' [e'|root']];
    simpl in H2; try congruence; [simpl; congruence|].
  assert (root' = root) as -> by congruence.
  by destruct (negb _).
Qed.

Lemma tmp_path_differs full_path rnd :
  child (parent full_path) (name full_path ++ [DOT] ++ rnd ++ py ".tmp") ≠ full_path.
Proof.
  intros E. apply (f_equal name) in E. unfold child in E.
  unfold name at 1 in E. simpl in E. rewrite last_last in E.
  apply (f_equal length) in E. rewrite !length_app in E. simpl in E. lia.
Qed.

Lemma is_dir_in_dirs w w' p : dirs w' = dirs w → is_dir_in w' p = is_dir_in w p.
Proof. unfold is_dir_in. by intros ->. Qed.

Lemma mkstemp_ok d pre suf rnd w w1 tmp :
  mkstemp d pre suf rnd w = (w1, inr tmp) →
  tmp = child d (pre ++ rnd ++ suf) ∧ is_dir_in w tmp = false
  ∧ dirs w1 = dirs w ∧ files w1 = <[tmp := []]> (files w).
Proof.
  unfold mkstemp, bind, get, ret, raise, log, set_files. simpl.
  destruct (_ || _ || _) eqn:E; [done|]. intros [= <- <-]. simpl.
  apply orb_false_iff in E as [E _]. apply orb_false_iff in E as [E _]. done.
Qed.

Lemma write_bytes_ok p data w w1 :
  write_bytes p data w = (w1, inr tt) →
  dirs w1 = dirs w ∧ files w1 = <[p := data]> (files w).
Proof.
  unfold write_bytes, bind, get, ret, raise, log, set_files. simpl.
  destruct (_ || _); [done|]. by intros [= <-].
Qed.

Lemma replace_ok src dst w w1 :
  replace src dst w = (w1, inr tt) →
  ∃ b, files w !! src = Some b ∧ is_dir_in w dst = false
       ∧ dirs w1 = dirs w ∧ files w1 = <[dst := b]> (delete src (files w)).
Proof.
  unfold replace, bind, get, ret, raise, log, set_files. simpl.
  destruct (files w !! src) as [b|]; [|done].
  destruct (is_dir_in _ dst) eqn:E; [done|]. intros [= <-]. eauto.
Qed.

Lemma try_finally_ok {A} (m : io A) (f : io unit) w w' a :
  try_finally m f w = (w', inr a) → ∃ w1, m w = (w1, inr a) ∧ f w1 = (w', inr tt).
Proof.
  unfold try_finally. destruct (m w) as [w1 r]. destruct (f w1) as [w2 [e|[]]] eqn:Ef;
    intros [= <- ?]; subst; eauto.
Qed.

(** The cleanup of the temporary file finds nothing to remove once the
    file has been moved onto the target. *)
Lemma cleanup_nothing tmp w w' r :
  is_dir_in w tmp = false → files w !! tmp = None →
  try_except (let! left := exists_ tmp in if left then unlink tmp else ret tt)
             (fun _ => ret tt) w = (w', r) →
  dirs w' = dirs w ∧ files w' = files w.
Proof.
  intros Hd Hf. unfold try_except, exists_, bind, get, ret, log, is_file_in. simpl.
  rewrite (is_dir_in_dirs w) by done. rewrite Hd, Hf. simpl.
  by intros [= <- <-].
Qed.

(** The last steps of [_write_locked]: when they succeed the target holds
    the new bytes. *)
Lemma commit_stores full_path data rnd w w' :
  (let! tmp_path := mkstemp (parent full_path) (name full_path ++ [DOT]) (py ".tmp") rnd in
   try_finally
     (write_bytes tmp_path data >> replace tmp_path full_path)
     (try_except
        (let! left := exists_ tmp_path in
         if left then unlink tmp_path else ret tt)
        (fun _ => ret tt))) w = (w', inr tt) →
  files w' !! full_path = Some data ∧ is_dir_in w' full_path = false.
Proof.
  intros H. apply bind_inr_inv in H as (tmp & w1 & Hm & H).
  apply mkstemp_ok in Hm as (Etmp & Hd & D1 & F1).
  assert (tmp ≠ full_path) as Hne.
  { rewrite Etmp, <- app_assoc. apply tmp_path_differs. }
  apply try_finally_ok in H as (w2 & Hb & Hc).
  apply bind_inr_inv in Hb as ([] & w3 & Hw & Hr).
  apply write_bytes_ok in Hw as (D3 & F3).
  apply replace_ok in Hr as (b & Hb & Hdst & D2 & F2).
  rewrite F3, lookup_insert_eq in Hb. inversion Hb; subst b.
  apply cleanup_nothing in Hc as (D' & F').
  - rewrite F', F2, lookup_insert_eq. split; [done|].
    rewrite (is_dir_in_dirs w2) by done. rewrite (is_dir_in_dirs w3) by done. done.
  - rewrite (is_dir_in_dirs w3) by done. rewrite (is_dir_in_dirs w1) by done.
    by rewrite (is_dir_in_dirs w) by done.
  - rewrite F2. rewrite lookup_insert_ne by done. apply lookup_delete_eq.
Qed.

Lemma write_locked_stores full_path backup_base_dir data ts rnd w w' :
  _write_locked full_path backup_base_dir data ts rnd w = (w', inr tt) →
  files w' !! full_path = Some data ∧ is_dir_in w' full_path = false.
Proof.
  intros H. unfold _write_locked in H.
  apply bind_inr_inv in H as (? & w1 & _ & H).
  apply bind_inr_inv in H as (found & w2 & _ & H).
  apply bind_inr_inv in H as (? & w3 & _ & H).
  by eapply commit_stores.
Qed.

(** A write that succeeds leaves the encoded content at the validated path. *)
Lemma write_file_stores self file_path content ts rnd w w' :
  write_file self file_path content ts rnd w = (w', inr true) →
  ∃ w1 full_path data,
    _validate_file_path self file_path w = (w1, inr full_path)
    ∧ Codec.encode content = Some data
    ∧ files w' !! full_path = Some data
    ∧ is_dir_in w' full_path = false.
Proof.
  intros H. unfold write_file in H.
  apply bind_inr_inv in H as (full_path & w1 & Hv & H).
  apply bind_inr_inv in H as (? & w2 & _ & H).
  apply bind_inr_inv in H as (data & w3 & Hd & H).
  apply bind_inr_inv in H as (rel & w4 & _ & H).
  apply bind_inr_inv in H as (bdir & w5 & _ & H).
  apply bind_inr_inv in H as (? & w6 & _ & H).
  apply bind_inr_inv in H as ([] & w7 & Hl & H).
  inversion H; subst.
  destruct (Codec.encode content) as [d|] eqn:Ee; [|done]. inversion Hd; subst.
  apply write_locked_stores in Hl as [Hf Hdir]. eauto 10.
Qed.

(** What [read_file] returns after a successful [write_file] to the same
    path: the content written, with every CR LF and every lone CR turned
    into LF. *)
Theorem read_after_write self file_path content ts rnd w w' :
  is_absolute (data_dir self) = true →
  write_file self file_path content ts rnd w = (w', inr true) →
  snd (read_file self file_path w') = inr (Some (Codec.translate_newlines content)).
Proof.
  intros Ha H. apply write_file_stores in H as (w1 & full & data & Hv & He & Hf & Hd).
  pose proof (validate_result self file_path w w' Ha) as Hs. rewrite Hv in Hs. simpl in Hs.
  destruct (_validate_file_path self file_path w') as [w2 r] eqn:Hv'. simpl in Hs. subst r.
  assert (files w2 !! full = Some data) as Hf2.
  { destruct (decide (bad_extension file_path)) as [Hb|Hb].
    - rewrite validate_bad_extension in Hv' by done. congruence.
    - destruct (validate_allowed self file_path w' Hb)
        as (probes & _ & [E|[[_ E]|[_ E]]]); rewrite E in Hv'; inversion Hv'; subst; done. }
  unfold read_file. rewrite (bind_ret _ _ _ _ _ Hv').
  unfold exists_, read_text, read_bytes, bind, get, ret, raise, log, is_file_in. simpl.
  rewrite Hf2. rewrite bool_decide_eq_true_2 by eauto. rewrite orb_true_r. simpl.
  rewrite Hf2. by rewrite (decode_encode _ _ He).
Qed.

Lemma translate_newlines_id s : Codec.CR ∉ s → Codec.translate_newlines s = s.
Proof.
  induction s as [|c s IH]; intros Hn; simpl; [done|].
  destruct (c =? Codec.CR) eqn:E.
  - apply N.eqb_eq in E. subst. exfalso. apply Hn. by left.
  - rewrite IH; [done|]. intros H. apply Hn. by right.
Qed.

(** Content without a carriage return is read back as it was written. *)
Corollary round_trip_without_cr self file_path content ts rnd w w' :
  is_absolute (data_dir self) = true →
  Codec.CR ∉ content →
  write_file self file_path content ts rnd w = (w', inr true) →
  snd (read_file self file_path w') = inr (Some content).
Proof.
  intros Ha Hn H. rewrite (read_after_write _ _ _ _ _ _ _ Ha H).
  by rewrite translate_newlines_id.
Qed.
